(** * LRU cache shard of cache/lru_cache.cc: model and verification

    The development embeds the hash table [LRUHandleTable] and the shard
    [LRUCacheShardTemplate] of cache/lru_cache.cc.

    Representation.
    - Every [LRUHandle] record lives in a store [memory], a finite map from
      addresses to records; the table and the LRU list hold addresses, so a
      record reached through the table and through the list is one shared
      object.
    - The intrusive links are represented by the sequences they thread: a
      bucket chain ([next_hash]) is the list of addresses met from the bucket
      head; the circular LRU list ([next]/[prev] around the sentinel [lru_]) is
      the list of addresses from [lru_.next] to [lru_.prev]; [lru_low_pri_] is
      [None] when it points to the sentinel.
    - [uint32_t] and [size_t] values are integers with the wrap-around written
      out ([wrap32], [wrap64], for a 64-bit [size_t]).
    - [assert] is compiled out (release build); an operation yields [None]
      only where the C++ code would leave the representation: it reads a
      record that is not allocated, unlinks a record that is not linked, links
      one that is linked already, walks past the sentinel, or loops forever.
    - The mutex is not modelled: a public operation is one atomic step, its
      deferred [Free] calls included. *)

From Stdlib Require Import ZArith QArith Qround Lia.
From stdpp Require Import base option list gmap strings.

Open Scope Z_scope.

(** ** Machine integers *)

Definition wrap32 (z : Z) : Z := z mod 2 ^ 32.
Definition wrap64 (z : Z) : Z := z mod 2 ^ 64.

(** ** Handles *)

Abbreviation ptr := positive (only parsing).

Inductive Priority := HIGH | LOW.

Inductive Status := OK | Incomplete.

(** Modelled from the spec: the record [LRUHandle] is declared in
    cache/lru_cache.h, which is not among the sources; the fields are the ones
    lru_cache.cc reads and writes, and the bit-packed [flags] byte is kept as
    its four flags (in_cache, is_high_pri, in_high_pri_pool, has_hit).
    [value] and [deleter] are opaque to the cache and kept as integers. *)
Record LRUHandle := mkLRUHandle {
  value : Z;
  deleter : Z;
  charge : Z;
  key_data : string;
  refs : Z;
  in_cache : bool;
  is_high_pri : bool;
  in_high_pri_pool : bool;
  has_hit : bool;
  hash : Z
}.

Abbreviation memory := (gmap positive LRUHandle) (only parsing).

Definition set_refs (r : Z) (h : LRUHandle) : LRUHandle :=
  mkLRUHandle (value h) (deleter h) (charge h) (key_data h) r
    (in_cache h) (is_high_pri h) (in_high_pri_pool h) (has_hit h) (hash h).

(** Modelled from the spec: the flag accessors of lru_cache.h. *)
Definition InCache (h : LRUHandle) : bool := in_cache h.
Definition IsHighPri (h : LRUHandle) : bool := is_high_pri h.
Definition InHighPriPool (h : LRUHandle) : bool := in_high_pri_pool h.
Definition HasHit (h : LRUHandle) : bool := has_hit h.

Definition SetInCache (b : bool) (h : LRUHandle) : LRUHandle :=
  mkLRUHandle (value h) (deleter h) (charge h) (key_data h) (refs h)
    b (is_high_pri h) (in_high_pri_pool h) (has_hit h) (hash h).

Definition SetInHighPriPool (b : bool) (h : LRUHandle) : LRUHandle :=
  mkLRUHandle (value h) (deleter h) (charge h) (key_data h) (refs h)
    (in_cache h) (is_high_pri h) b (has_hit h) (hash h).

Definition SetHit (h : LRUHandle) : LRUHandle :=
  mkLRUHandle (value h) (deleter h) (charge h) (key_data h) (refs h)
    (in_cache h) (is_high_pri h) (in_high_pri_pool h) true (hash h).

(** ** The hash table *)

Module LRUHandleTable.

Record t := mk {
  list_ : list (list ptr);
  length_ : Z;
  elems_ : Z
}.

(** [hash & (length_ - 1)] *)
Definition bucket (hash len : Z) : nat := Z.to_nat (Z.land hash (len - 1)).

(** The walk of [FindPointer] along one chain: the number of [next_hash]
    links followed before the slot that is returned. The slot holds the first
    record with this hash and key, or null when the walk reaches the end. *)
Fixpoint walk (m : memory) (key : string) (hash0 : Z) (chain : list ptr)
  : option nat :=
  match chain with
  | [] => Some 0%nat
  | p :: rest =>
      h ← m !! p;
      if negb (hash h =? hash0) || bool_decide (key ≠ key_data h)
      then S <$> walk m key hash0 rest
      else Some 0%nat
  end.

(** A slot [LRUHandle**] is a bucket index and an offset in its chain. *)
Definition FindPointer (m : memory) (key : string) (hash0 : Z) (tb : t)
  : option (nat * nat) :=
  let b := bucket hash0 (length_ tb) in
  chain ← list_ tb !! b;
  n ← walk m key hash0 chain;
  Some (b, n).

(** [*ptr] *)
Definition deref (tb : t) (slot : nat * nat) : option ptr :=
  chain ← list_ tb !! slot.1;
  chain !! slot.2.

Definition Lookup (m : memory) (key : string) (hash0 : Z) (tb : t)
  : option (option ptr) :=
  slot ← FindPointer m key hash0 tb;
  Some (deref tb slot).

(** The loop of [Resize] that picks the new length. [new_length < elems_ * 1.5]
    compares in [double], exactly for 32-bit values: it is
    [2 * new_length < 3 * elems_]. [new_length *= 2] wraps at 2^32, after
    which the loop cannot end; 32 rounds of fuel tell the two cases apart. *)
Fixpoint Resize_length (fuel : nat) (new_length elems : Z) : option Z :=
  if 2 * new_length <? 3 * elems
  then match fuel with
       | O => None
       | S fuel' => Resize_length fuel' (wrap32 (new_length * 2)) elems
       end
  else Some new_length.

(** One round of the inner loop of [Resize]: [h] goes to the head of its
    chain in [new_list]. *)
Definition relink (m : memory) (new_length : Z) (new_list : list (list ptr))
    (h : ptr) : option (list (list ptr)) :=
  r ← m !! h;
  let b := bucket (hash r) new_length in
  chain ← new_list !! b;
  Some (<[b := h :: chain]> new_list).

Fixpoint relink_all (m : memory) (new_length : Z) (hs : list ptr)
    (new_list : list (list ptr)) : option (list (list ptr)) :=
  match hs with
  | [] => Some new_list
  | h :: rest =>
      new_list' ← relink m new_length new_list h;
      relink_all m new_length rest new_list'
  end.

(** [list_] has [length_] buckets, so the two nested loops of [Resize] visit
    the chains in order, that is [concat (list_ tb)]. *)
Definition Resize (m : memory) (tb : t) : option t :=
  new_length ← Resize_length 32 16 (elems_ tb);
  new_list ← relink_all m new_length (concat (list_ tb))
                (replicate (Z.to_nat new_length) []);
  Some (mk new_list new_length (elems_ tb)).

(** The constructor: an empty table, then [Resize]. *)
Definition init : option t := Resize ∅ (mk [] 0 0).

Definition Insert (m : memory) (h : ptr) (tb : t) : option (option ptr * t) :=
  r ← m !! h;
  slot ← FindPointer m (key_data r) (hash r) tb;
  chain ← list_ tb !! slot.1;
  let old := chain !! slot.2 in
  (* h->next_hash = (old == nullptr ? nullptr : old->next_hash); *ptr = h; *)
  let chain' := take slot.2 chain ++ h :: drop (S slot.2) chain in
  let tb1 := mk (<[slot.1 := chain']> (list_ tb)) (length_ tb) (elems_ tb) in
  match old with
  | Some _ => Some (old, tb1)
  | None =>
      let tb2 := mk (list_ tb1) (length_ tb1) (wrap32 (elems_ tb1 + 1)) in
      if length_ tb2 <? elems_ tb2
      then tb3 ← Resize m tb2; Some (None, tb3)
      else Some (None, tb2)
  end.

Definition Remove (m : memory) (key : string) (hash0 : Z) (tb : t)
  : option (option ptr * t) :=
  slot ← FindPointer m key hash0 tb;
  chain ← list_ tb !! slot.1;
  match chain !! slot.2 with
  | Some result =>
      (* *ptr = result->next_hash; --elems_; *)
      let chain' := take slot.2 chain ++ drop (S slot.2) chain in
      Some (Some result,
            mk (<[slot.1 := chain']> (list_ tb)) (length_ tb)
               (wrap32 (elems_ tb - 1)))
  | None => Some (None, tb)
  end.

End LRUHandleTable.

(** ** The shard *)

Module LRUCacheShard.

(** The members of [LRUCacheShardTemplate] that lru_cache.cc uses, with the
    store of records ([heap]) and the log of the deleter calls made by
    [LRUHandle::Free] ([deleter_calls]: the address freed and the record as it
    was then). [high_pri_pool_ratio_] and [high_pri_pool_capacity_] are
    [double]s, taken as exact rationals; comparing the [size_t]
    [high_pri_pool_usage_] with the latter is exact in the same sense. *)
Record t := mk {
  heap : memory;
  deleter_calls : list (ptr * LRUHandle);
  table_ : LRUHandleTable.t;
  lru_ : list ptr;
  lru_low_pri_ : option ptr;
  usage_ : Z;
  lru_usage_ : Z;
  high_pri_pool_usage_ : Z;
  capacity_ : Z;
  strict_capacity_limit_ : bool;
  high_pri_pool_ratio_ : Q;
  high_pri_pool_capacity_ : Q
}.

Definition set_heap (m : memory) (s : t) : t :=
  mk m (deleter_calls s) (table_ s) (lru_ s) (lru_low_pri_ s) (usage_ s)
     (lru_usage_ s) (high_pri_pool_usage_ s) (capacity_ s)
     (strict_capacity_limit_ s) (high_pri_pool_ratio_ s)
     (high_pri_pool_capacity_ s).

Definition set_deleter_calls (l : list (ptr * LRUHandle)) (s : t) : t :=
  mk (heap s) l (table_ s) (lru_ s) (lru_low_pri_ s) (usage_ s)
     (lru_usage_ s) (high_pri_pool_usage_ s) (capacity_ s)
     (strict_capacity_limit_ s) (high_pri_pool_ratio_ s)
     (high_pri_pool_capacity_ s).

Definition set_table (tb : LRUHandleTable.t) (s : t) : t :=
  mk (heap s) (deleter_calls s) tb (lru_ s) (lru_low_pri_ s) (usage_ s)
     (lru_usage_ s) (high_pri_pool_usage_ s) (capacity_ s)
     (strict_capacity_limit_ s) (high_pri_pool_ratio_ s)
     (high_pri_pool_capacity_ s).

Definition set_lru (l : list ptr) (s : t) : t :=
  mk (heap s) (deleter_calls s) (table_ s) l (lru_low_pri_ s) (usage_ s)
     (lru_usage_ s) (high_pri_pool_usage_ s) (capacity_ s)
     (strict_capacity_limit_ s) (high_pri_pool_ratio_ s)
     (high_pri_pool_capacity_ s).

Definition set_lru_low_pri (c : option ptr) (s : t) : t :=
  mk (heap s) (deleter_calls s) (table_ s) (lru_ s) c (usage_ s)
     (lru_usage_ s) (high_pri_pool_usage_ s) (capacity_ s)
     (strict_capacity_limit_ s) (high_pri_pool_ratio_ s)
     (high_pri_pool_capacity_ s).

Definition set_usage (u : Z) (s : t) : t :=
  mk (heap s) (deleter_calls s) (table_ s) (lru_ s) (lru_low_pri_ s) u
     (lru_usage_ s) (high_pri_pool_usage_ s) (capacity_ s)
     (strict_capacity_limit_ s) (high_pri_pool_ratio_ s)
     (high_pri_pool_capacity_ s).

Definition set_lru_usage (u : Z) (s : t) : t :=
  mk (heap s) (deleter_calls s) (table_ s) (lru_ s) (lru_low_pri_ s) (usage_ s)
     u (high_pri_pool_usage_ s) (capacity_ s)
     (strict_capacity_limit_ s) (high_pri_pool_ratio_ s)
     (high_pri_pool_capacity_ s).

Definition set_high_pri_pool_usage (u : Z) (s : t) : t :=
  mk (heap s) (deleter_calls s) (table_ s) (lru_ s) (lru_low_pri_ s) (usage_ s)
     (lru_usage_ s) u (capacity_ s)
     (strict_capacity_limit_ s) (high_pri_pool_ratio_ s)
     (high_pri_pool_capacity_ s).

Definition set_capacity (c : Z) (s : t) : t :=
  mk (heap s) (deleter_calls s) (table_ s) (lru_ s) (lru_low_pri_ s) (usage_ s)
     (lru_usage_ s) (high_pri_pool_usage_ s) c
     (strict_capacity_limit_ s) (high_pri_pool_ratio_ s)
     (high_pri_pool_capacity_ s).

Definition set_strict_capacity_limit (b : bool) (s : t) : t :=
  mk (heap s) (deleter_calls s) (table_ s) (lru_ s) (lru_low_pri_ s) (usage_ s)
     (lru_usage_ s) (high_pri_pool_usage_ s) (capacity_ s)
     b (high_pri_pool_ratio_ s) (high_pri_pool_capacity_ s).

Definition set_high_pri_pool_ratio (r : Q) (s : t) : t :=
  mk (heap s) (deleter_calls s) (table_ s) (lru_ s) (lru_low_pri_ s) (usage_ s)
     (lru_usage_ s) (high_pri_pool_usage_ s) (capacity_ s)
     (strict_capacity_limit_ s) r (high_pri_pool_capacity_ s).

Definition set_high_pri_pool_capacity (c : Q) (s : t) : t :=
  mk (heap s) (deleter_calls s) (table_ s) (lru_ s) (lru_low_pri_ s) (usage_ s)
     (lru_usage_ s) (high_pri_pool_usage_ s) (capacity_ s)
     (strict_capacity_limit_ s) (high_pri_pool_ratio_ s) c.

(** [a > b] on rationals *)
Definition Qgtb (a b : Q) : bool := negb (Qle_bool a b).

(** A write through the pointer [e]. *)
Definition update (f : LRUHandle → LRUHandle) (e : ptr) (s : t) : option t :=
  h ← heap s !! e;
  Some (set_heap (<[e := f h]> (heap s)) s).

Definition Unref (e : ptr) (s : t) : option (bool * t) :=
  h ← heap s !! e;
  let r := wrap32 (refs h - 1) in
  Some (bool_decide (r = 0), set_heap (<[e := set_refs r h]> (heap s)) s).

(** Modelled from the spec: the counter updates [UsageAdd], [UsageSub],
    [LRUUsageAdd], [LRUUsageSub], [HighPriPoolUsageAdd] and
    [HighPriPoolUsageSub] are declared in cache/lru_cache.h, which is not
    among the sources; each adds the charge of the record to its [size_t]
    counter or subtracts it. *)
Definition UsageAdd (e : ptr) (s : t) : option t :=
  h ← heap s !! e; Some (set_usage (wrap64 (usage_ s + charge h)) s).

Definition UsageSub (e : ptr) (s : t) : option t :=
  h ← heap s !! e; Some (set_usage (wrap64 (usage_ s - charge h)) s).

Definition LRUUsageAdd (e : ptr) (s : t) : option t :=
  h ← heap s !! e; Some (set_lru_usage (wrap64 (lru_usage_ s + charge h)) s).

Definition LRUUsageSub (e : ptr) (s : t) : option t :=
  h ← heap s !! e; Some (set_lru_usage (wrap64 (lru_usage_ s - charge h)) s).

Definition HighPriPoolUsageAdd (e : ptr) (s : t) : option t :=
  h ← heap s !! e;
  Some (set_high_pri_pool_usage (wrap64 (high_pri_pool_usage_ s + charge h)) s).

Definition HighPriPoolUsageSub (e : ptr) (s : t) : option t :=
  h ← heap s !! e;
  Some (set_high_pri_pool_usage (wrap64 (high_pri_pool_usage_ s - charge h)) s).

(** Modelled from the spec: [LRUHandle::Free] (cache/lru_cache.h) invokes the
    deleter on the key and the value, then releases the storage of the
    record. *)
Definition Free (e : ptr) (s : t) : option t :=
  h ← heap s !! e;
  Some (set_heap (delete e (heap s))
          (set_deleter_calls (deleter_calls s ++ [(e, h)]) s)).

(** [for (auto entry : last_reference_list) entry->Free();] *)
Fixpoint Free_all (l : list ptr) (s : t) : option t :=
  match l with
  | [] => Some s
  | e :: l' => s' ← Free e s; Free_all l' s'
  end.

(** Positions in the LRU list. *)
Fixpoint index_of (e : ptr) (l : list ptr) : option nat :=
  match l with
  | [] => None
  | x :: l' => if decide (x = e) then Some 0%nat else S <$> index_of e l'
  end.

(** [e->prev] for the record at position [i]; [None] is the sentinel. *)
Definition prev_of (i : nat) (l : list ptr) : option ptr :=
  match i with
  | O => None
  | S j => l !! j
  end.

(** The position that follows the cursor [c]: the position of [c->next]. *)
Definition after (c : option ptr) (l : list ptr) : option nat :=
  match c with
  | None => Some 0%nat
  | Some p => S <$> index_of p l
  end.

Definition LRU_Remove (e : ptr) (s : t) : option t :=
  h ← heap s !! e;
  i ← index_of e (lru_ s);
  let s1 := if decide (lru_low_pri_ s = Some e)
            then set_lru_low_pri (prev_of i (lru_ s)) s else s in
  let s2 := set_lru (delete i (lru_ s1)) s1 in
  s3 ← LRUUsageSub e s2;
  if InHighPriPool h then HighPriPoolUsageSub e s3 else Some s3.

(** The loop of [MaintainPoolSize]; every round moves the cursor one record
    towards the tail, so [length lru_] rounds at most precede the sentinel. *)
Fixpoint MaintainPoolSize_loop (fuel : nat) (s : t) : option t :=
  if Qgtb (inject_Z (high_pri_pool_usage_ s)) (high_pri_pool_capacity_ s)
  then match fuel with
       | O => None
       | S fuel' =>
           n ← after (lru_low_pri_ s) (lru_ s);
           c ← lru_ s !! n;
           let s1 := set_lru_low_pri (Some c) s in
           s2 ← update (SetInHighPriPool false) c s1;
           s3 ← HighPriPoolUsageSub c s2;
           MaintainPoolSize_loop fuel' s3
       end
  else Some s.

Definition MaintainPoolSize (s : t) : option t :=
  MaintainPoolSize_loop (length (lru_ s)) s.

Definition LRU_Insert (e : ptr) (s : t) : option t :=
  h ← heap s !! e;
  if bool_decide (e ∈ lru_ s) then None
  else if Qgtb (high_pri_pool_ratio_ s) 0 && (IsHighPri h || HasHit h)
  then
    (* Insert "e" to head of LRU list. *)
    let s1 := set_lru (lru_ s ++ [e]) s in
    s2 ← update (SetInHighPriPool true) e s1;
    s3 ← HighPriPoolUsageAdd e s2;
    s4 ← MaintainPoolSize s3;
    LRUUsageAdd e s4
  else
    (* Insert "e" to the head of low-pri pool. *)
    n ← after (lru_low_pri_ s) (lru_ s);
    let s1 := set_lru (take n (lru_ s) ++ e :: drop n (lru_ s)) s in
    s2 ← update (SetInHighPriPool false) e s1;
    let s3 := set_lru_low_pri (Some e) s2 in
    LRUUsageAdd e s3.

(** The body shared by the loops of [EvictFromLRU] and [EraseUnRefEntries]. *)
Definition evict_entry (old : ptr) (s : t) : option t :=
  s1 ← LRU_Remove old s;
  h ← heap s1 !! old;
  r ← LRUHandleTable.Remove (heap s1) (key_data h) (hash h) (table_ s1);
  let s2 := set_table r.2 s1 in
  s3 ← update (SetInCache false) old s2;
  r' ← Unref old s3;
  UsageSub old r'.2.

Fixpoint EvictFromLRU_loop (fuel : nat) (charge0 : Z) (deleted : list ptr)
    (s : t) : option (list ptr * t) :=
  if (capacity_ s <? wrap64 (usage_ s + charge0)) && bool_decide (lru_ s ≠ [])
  then match fuel with
       | O => None
       | S fuel' =>
           old ← head (lru_ s);
           s' ← evict_entry old s;
           EvictFromLRU_loop fuel' charge0 (deleted ++ [old]) s'
       end
  else Some (deleted, s).

(** Every round unlinks one record, so [length lru_] rounds suffice. *)
Definition EvictFromLRU (charge0 : Z) (deleted : list ptr) (s : t)
  : option (list ptr * t) :=
  EvictFromLRU_loop (length (lru_ s)) charge0 deleted s.

Fixpoint EraseUnRefEntries_loop (fuel : nat) (deleted : list ptr) (s : t)
  : option (list ptr * t) :=
  if bool_decide (lru_ s ≠ [])
  then match fuel with
       | O => None
       | S fuel' =>
           old ← head (lru_ s);
           s' ← evict_entry old s;
           EraseUnRefEntries_loop fuel' (deleted ++ [old]) s'
       end
  else Some (deleted, s).

Definition EraseUnRefEntries (s : t) : option t :=
  r ← EraseUnRefEntries_loop (length (lru_ s)) [] s;
  Free_all r.1 r.2.

Definition SetCapacity (capacity : Z) (s : t) : option t :=
  let s1 := set_capacity capacity s in
  let s2 := set_high_pri_pool_capacity
              (inject_Z (capacity_ s1) * high_pri_pool_ratio_ s1)%Q s1 in
  r ← EvictFromLRU 0 [] s2;
  Free_all r.1 r.2.

Definition SetStrictCapacityLimit (strict_capacity_limit : bool) (s : t)
  : option t :=
  Some (set_strict_capacity_limit strict_capacity_limit s).

Definition SetHighPriorityPoolRatio (high_pri_pool_ratio : Q) (s : t)
  : option t :=
  let s1 := set_high_pri_pool_ratio high_pri_pool_ratio s in
  let s2 := set_high_pri_pool_capacity
              (inject_Z (capacity_ s1) * high_pri_pool_ratio_ s1)%Q s1 in
  MaintainPoolSize s2.

Definition Lookup (key : string) (hash0 : Z) (s : t) : option (option ptr * t) :=
  r ← LRUHandleTable.Lookup (heap s) key hash0 (table_ s);
  match r with
  | Some e =>
      h ← heap s !! e;
      s1 ← (if refs h =? 1 then LRU_Remove e s else Some s);
      s2 ← update (λ h, SetHit (set_refs (wrap32 (refs h + 1)) h)) e s1;
      Some (Some e, s2)
  | None => Some (None, s)
  end.

Definition Ref (handle : ptr) (s : t) : option (bool * t) :=
  h ← heap s !! handle;
  s1 ← (if InCache h && (refs h =? 1) then LRU_Remove handle s else Some s);
  s2 ← update (λ h, set_refs (wrap32 (refs h + 1)) h) handle s1;
  Some (true, s2).

Definition Release (handle : option ptr) (force_erase : bool) (s : t)
  : option (bool * t) :=
  match handle with
  | None => Some (false, s)
  | Some e =>
      r1 ← Unref e s;
      s2 ← (if r1.1 then UsageSub e r1.2 else Some r1.2);
      h ← heap s2 !! e;
      r3 ← ((if (refs h =? 1) && InCache h
            then if (capacity_ s2 <? usage_ s2) || force_erase
                 then
                   (* take this opportunity and remove the item *)
                   r ← LRUHandleTable.Remove (heap s2) (key_data h) (hash h)
                         (table_ s2);
                   s3 ← update (SetInCache false) e (set_table r.2 s2);
                   r' ← Unref e s3;
                   s5 ← UsageSub e r'.2;
                   Some (true, s5)
                 else
                   (* put the item on the list to be potentially freed *)
                   s3 ← LRU_Insert e s2; Some (r1.1, s3)
            else Some (r1.1, s2)) : option (bool * t));
      (* free outside of mutex *)
      s4 ← (if r3.1 : bool then Free e r3.2 else Some r3.2);
      Some (r3.1, s4)
  end.

(** The record that [Insert] fills in before it takes the mutex. *)
Definition new_handle (key : string) (hash0 value0 charge0 deleter0 : Z)
    (handle : bool) (priority : Priority) : LRUHandle :=
  mkLRUHandle value0 deleter0 charge0 key
    (if handle then 2 else 1)  (* One from LRUCache, one for the handle *)
    true
    (match priority with HIGH => true | LOW => false end)
    false false hash0.

(** [Insert]. [e] is the address that [new] returns, [handle] tells whether
    the caller passed a non-null [Cache::Handle**]; the second component of
    the result is what is stored through it ([None]: null, or nothing when
    [handle] is null). *)
Definition Insert (e : ptr) (key : string) (hash0 value0 charge0 deleter0 : Z)
    (handle : bool) (priority : Priority) (s : t)
  : option (Status * option ptr * t) :=
  match heap s !! e with
  | Some _ => None
  | None =>
      let h0 := new_handle key hash0 value0 charge0 deleter0 handle
                  priority in
      let s0 := set_heap (<[e := h0]> (heap s)) s in
      r1 ← EvictFromLRU charge0 [] s0;
      let last_reference_list := r1.1 in
      let s1 := r1.2 in
      if (capacity_ s1 <? wrap64 (wrap64 (usage_ s1 - lru_usage_ s1) + charge0))
         && (strict_capacity_limit_ s1 || negb handle)
      then
        if negb handle
        then
          s2 ← Free_all (last_reference_list ++ [e]) s1;
          Some (OK, None, s2)
        else
          (* delete[] reinterpret_cast<char*>(e); *handle = nullptr; *)
          let s2 := set_heap (delete e (heap s1)) s1 in
          s3 ← Free_all last_reference_list s2;
          Some (Incomplete, None, s3)
      else
        r2 ← LRUHandleTable.Insert (heap s1) e (table_ s1);
        s2 ← UsageAdd e (set_table r2.2 s1);
        r3 ← (match r2.1 with
             | Some old =>
                 s3 ← update (SetInCache false) old s2;
                 r ← Unref old s3;
                 if r.1 : bool
                 then s4 ← UsageSub old r.2;
                      s5 ← LRU_Remove old s4;
                      Some (last_reference_list ++ [old], s5)
                 else Some (last_reference_list, r.2)
             | None => Some (last_reference_list, s2)
             end : option (list ptr * t));
        r4 ← ((if negb handle
               then s4 ← LRU_Insert e r3.2; Some (None, s4)
               else Some (Some e, r3.2)) : option (option ptr * t));
        s5 ← Free_all r3.1 r4.2;
        Some (OK, r4.1, s5)
  end.

Definition Erase (key : string) (hash0 : Z) (s : t) : option t :=
  r ← LRUHandleTable.Remove (heap s) key hash0 (table_ s);
  let s1 := set_table r.2 s in
  match r.1 : option ptr with
  | Some e =>
      r2 ← Unref e s1;
      h ← heap r2.2 !! e;
      s3 ← (if (r2.1 : bool) && InCache h then LRU_Remove e r2.2 else Some r2.2);
      s4 ← (if r2.1 : bool then UsageSub e s3 else Some s3);
      s5 ← update (SetInCache false) e s4;
      if r2.1 : bool then Free e s5 else Some s5
  | None => Some s1
  end.

Definition GetUsage (s : t) : Z := usage_ s.

Definition GetPinnedUsage (s : t) : Z := wrap64 (usage_ s - lru_usage_ s).

(** The constructor: empty list, counters at zero, then [SetCapacity]. *)
Definition init (capacity : Z) (strict_capacity_limit : bool)
    (high_pri_pool_ratio : Q) : option t :=
  tb ← LRUHandleTable.init;
  SetCapacity capacity
    (mk ∅ [] tb [] None 0 0 0 0 strict_capacity_limit high_pri_pool_ratio 0).

(** [TEST_GetLRUSize]: the walk from [lru_.next] back to the sentinel, one
    [lru_size++] in [size_t] for each record met. *)
Definition TEST_GetLRUSize (s : t) : Z :=
  foldl (λ lru_size _, wrap64 (lru_size + 1)) 0 (lru_ s).

Definition GetHighPriPoolRatio (s : t) : Q := high_pri_pool_ratio_ s.

End LRUCacheShard.

Import LRUCacheShard.

(** ** Public operations and reachable states *)

(** The public operations of a shard, each with its arguments. *)
Inductive op :=
  | OpInsert (e : ptr) (key : string) (hash0 value0 charge0 deleter0 : Z)
      (handle : bool) (priority : Priority)
  | OpLookup (key : string) (hash0 : Z)
  | OpRef (handle : ptr)
  | OpRelease (handle : option ptr) (force_erase : bool)
  | OpErase (key : string) (hash0 : Z)
  | OpEraseUnRefEntries
  | OpSetCapacity (capacity : Z)
  | OpSetStrictCapacityLimit (strict_capacity_limit : bool)
  | OpSetHighPriorityPoolRatio (high_pri_pool_ratio : Q).

Definition run_op (o : op) (s : t) : option t :=
  match o with
  | OpInsert e key hash0 value0 charge0 deleter0 handle priority =>
      r ← Insert e key hash0 value0 charge0 deleter0 handle priority s;
      Some r.2
  | OpLookup key hash0 => r ← Lookup key hash0 s; Some r.2
  | OpRef handle => r ← Ref handle s; Some r.2
  | OpRelease handle force_erase => r ← Release handle force_erase s; Some r.2
  | OpErase key hash0 => Erase key hash0 s
  | OpEraseUnRefEntries => EraseUnRefEntries s
  | OpSetCapacity capacity => SetCapacity capacity s
  | OpSetStrictCapacityLimit b => SetStrictCapacityLimit b s
  | OpSetHighPriorityPoolRatio r => SetHighPriorityPoolRatio r s
  end.

(** What a caller owes the shard: arguments in the range of their C++ types,
    [new] returning an address that is not in use, a reference count below
    [UINT32_MAX] where a reference is taken, a handle that the caller owns
    where one is released, and a ratio that is not negative. *)
Definition allowed (o : op) (s : t) : Prop :=
  match o with
  | OpInsert e _ hash0 _ charge0 _ _ _ =>
      heap s !! e = None ∧ 0 ≤ hash0 < 2 ^ 32 ∧ 0 ≤ charge0 < 2 ^ 64
  | OpLookup _ _ => ∀ p h, heap s !! p = Some h → refs h < 2 ^ 32 - 1
  | OpRef p => ∃ h, heap s !! p = Some h ∧ refs h < 2 ^ 32 - 1
  | OpRelease (Some e) _ =>
      ∃ h, heap s !! e = Some h ∧ (in_cache h = true → 2 ≤ refs h)
  | OpRelease None _ => True
  | OpErase _ _ => True
  | OpEraseUnRefEntries => True
  | OpSetCapacity c => 0 ≤ c < 2 ^ 64
  | OpSetStrictCapacityLimit _ => True
  | OpSetHighPriorityPoolRatio r => (0 <= r)%Q
  end.

Inductive reachable : t → Prop :=
  | reachable_init capacity strict ratio s :
      0 ≤ capacity < 2 ^ 64 → (0 <= ratio)%Q →
      init capacity strict ratio = Some s →
      reachable s
  | reachable_step o s s' :
      reachable s → allowed o s → run_op o s = Some s' →
      reachable s'.

(** ** Sums of charges and the shard invariant *)

Definition weight (P : LRUHandle → bool) (h : LRUHandle) : Z :=
  if P h then charge h else 0.

(** The sum of [charge] over the records of [m] that satisfy [P]. *)
Definition sum_charge (P : LRUHandle → bool) (m : memory) : Z :=
  map_fold (λ _ w acc, w + acc) 0 (weight P <$> m).

(** The sum of [charge] along a list of addresses. *)
Definition charge_of (m : memory) (p : ptr) : Z :=
  default 0 (charge <$> m !! p).

Definition charges (m : memory) (l : list ptr) : Z :=
  foldr (λ p acc, charge_of m p + acc) 0 l.

(** A record that somebody references: the cache or a handle. *)
Definition live (h : LRUHandle) : bool := 1 <=? refs h.

(** A record that only the cache references. *)
Definition evictable (h : LRUHandle) : bool := in_cache h && (refs h =? 1).

Definition pooled (h : LRUHandle) : bool := in_high_pri_pool h && evictable h.

Definition entries (tb : LRUHandleTable.t) : list ptr :=
  concat (LRUHandleTable.list_ tb).

(** [h] is a record with this hash and key. *)
Definition matches (key : string) (hash0 : Z) (h : LRUHandle) : Prop :=
  hash h = hash0 ∧ key_data h = key.

Definition heap_ok (m : memory) : Prop :=
  ∀ p h, m !! p = Some h →
    0 ≤ refs h < 2 ^ 32 ∧ 0 ≤ charge h < 2 ^ 64 ∧
    (in_cache h = true → 1 ≤ refs h).

Definition table_wf (m : memory) (tb : LRUHandleTable.t) : Prop :=
  length (LRUHandleTable.list_ tb) = Z.to_nat (LRUHandleTable.length_ tb) ∧
  (∃ k, LRUHandleTable.length_ tb = 2 ^ k ∧ 4 ≤ k ≤ 31) ∧
  LRUHandleTable.elems_ tb = Z.of_nat (length (entries tb)) ∧
  LRUHandleTable.elems_ tb ≤ LRUHandleTable.length_ tb ∧
  (∀ b chain p, LRUHandleTable.list_ tb !! b = Some chain → p ∈ chain →
     ∃ h, m !! p = Some h ∧
          LRUHandleTable.bucket (hash h) (LRUHandleTable.length_ tb) = b) ∧
  NoDup (entries tb) ∧
  (∀ p q hp hq, p ∈ entries tb → q ∈ entries tb →
     m !! p = Some hp → m !! q = Some hq →
     hash hp = hash hq → key_data hp = key_data hq → p = q).

(** The list [l] holds exactly the addresses of the records that satisfy
    [P]. *)
Definition tracks (P : LRUHandle → bool) (m : memory) (l : list ptr) : Prop :=
  ∀ p, p ∈ l ↔ ∃ h, m !! p = Some h ∧ P h = true.

(** The LRU list holds the records that only the cache references. *)
Definition lru_ok (m : memory) (lru : list ptr) : Prop :=
  NoDup lru ∧ tracks evictable m lru.

(** The cursor splits the list in the low-priority pool, which it ends, and
    the high-priority pool. *)
Definition pool_ok (m : memory) (lru : list ptr) (cursor : option ptr) : Prop :=
  ∃ low high, lru = low ++ high ∧ cursor = last low ∧
    (∀ p h, p ∈ low → m !! p = Some h → in_high_pri_pool h = false) ∧
    (∀ p h, p ∈ high → m !! p = Some h → in_high_pri_pool h = true).

(** The LRU list with its cursor and its two counters, against a store. *)
Definition lru_part (m : memory) (lru : list ptr) (cursor : option ptr)
    (lru_usage high_pri_pool_usage : Z) : Prop :=
  lru_ok m lru ∧
  pool_ok m lru cursor ∧
  lru_usage = wrap64 (sum_charge evictable m) ∧
  high_pri_pool_usage = wrap64 (sum_charge pooled m).

(** A state with another store, list, cursor and list counters. *)
Definition relinked (m : memory) (lru : list ptr) (cursor : option ptr)
    (lru_usage high_pri_pool_usage : Z) (s : t) : t :=
  mk m (deleter_calls s) (table_ s) lru cursor (usage_ s) lru_usage
     high_pri_pool_usage (capacity_ s) (strict_capacity_limit_ s)
     (high_pri_pool_ratio_ s) (high_pri_pool_capacity_ s).

(** Two stores that differ in [in_high_pri_pool] flags only. *)
Definition flag_eq (m m' : memory) : Prop :=
  ∀ p, SetInHighPriPool false <$> m' !! p = SetInHighPriPool false <$> m !! p.

(** The store against the entries of the table and the counter [usage_]. *)
Definition store_inv (m : memory) (ents : list ptr) (usage : Z) : Prop :=
  heap_ok m ∧
  tracks in_cache m ents ∧
  usage = wrap64 (sum_charge live m).

(** What eviction leaves of a record until it is freed. *)
Definition retire (h : LRUHandle) : LRUHandle :=
  set_refs 0 (SetInCache false h).

(** A store in which the records of [l] were evicted. *)
Definition retired (l : list ptr) (m m' : memory) : Prop :=
  ∀ p, m' !! p = if decide (p ∈ l) then retire <$> m !! p else m !! p.

(** The effect of evicting the first [k] records of the list. *)
Definition evicted (k : nat) (s s' : t) : Prop :=
  lru_ s' = drop k (lru_ s) ∧
  retired (take k (lru_ s)) (heap s) (heap s') ∧
  (∀ q, q ∈ entries (table_ s') ↔
        q ∈ entries (table_ s) ∧ q ∉ take k (lru_ s)) ∧
  usage_ s' = wrap64 (usage_ s - charges (heap s) (take k (lru_ s))) ∧
  deleter_calls s' = deleter_calls s ∧
  capacity_ s' = capacity_ s ∧
  strict_capacity_limit_ s' = strict_capacity_limit_ s ∧
  high_pri_pool_ratio_ s' = high_pri_pool_ratio_ s ∧
  high_pri_pool_capacity_ s' = high_pri_pool_capacity_ s.

(** The store after the records of [d] were freed. *)
Definition delete_all (d : list ptr) (m : memory) : memory :=
  foldl (λ m p, delete p m) m d.

(** The log entries that freeing the records of [d] adds. *)
Definition freed_log (m : memory) (d : list ptr) : list (ptr * LRUHandle) :=
  omap (λ p, (λ h, (p, h)) <$> m !! p) d.

(** The invariant of a shard state inside an operation, where records whose
    last reference is gone may still await [Free]. *)
Definition shard_inv (s : t) : Prop :=
  store_inv (heap s) (entries (table_ s)) (usage_ s) ∧
  table_wf (heap s) (table_ s) ∧
  lru_part (heap s) (lru_ s) (lru_low_pri_ s) (lru_usage_ s)
    (high_pri_pool_usage_ s) ∧
  (0 <= high_pri_pool_capacity_ s)%Q ∧
  (0 <= high_pri_pool_ratio_ s)%Q ∧
  0 ≤ capacity_ s < 2 ^ 64.

(** Properties that do not read the flag. *)
Definition flag_blind (P : LRUHandle → bool) : Prop :=
  ∀ h, P (SetInHighPriPool false h) = P h.

Definition unreferenced (h : LRUHandle) : bool := refs h =? 0.

(** The records that await [Free]: those whose reference count is zero. *)
Definition pending (d : list ptr) (m : memory) : Prop :=
  NoDup d ∧ tracks unreferenced m d.

(** The invariant between two public operations. *)
Definition Inv (s : t) : Prop := shard_inv s ∧ pending [] (heap s).

(** ** Concrete runs *)

(** [allowed], as a test that can be evaluated. *)
Definition allowedb (o : op) (s : t) : bool :=
  match o with
  | OpInsert e _ hash0 _ charge0 _ _ _ =>
      match heap s !! e with Some _ => false | None => true end
      && (0 <=? hash0) && (hash0 <? 2 ^ 32)
      && (0 <=? charge0) && (charge0 <? 2 ^ 64)
  | OpLookup _ _ =>
      bool_decide (map_Forall (λ _ h, refs h < 2 ^ 32 - 1) (heap s))
  | OpRef p =>
      match heap s !! p with
      | Some h => refs h <? 2 ^ 32 - 1
      | None => false
      end
  | OpRelease (Some e) _ =>
      match heap s !! e with
      | Some h => implb (in_cache h) (2 <=? refs h)
      | None => false
      end
  | OpRelease None _ => true
  | OpErase _ _ => true
  | OpEraseUnRefEntries => true
  | OpSetCapacity c => (0 <=? c) && (c <? 2 ^ 64)
  | OpSetStrictCapacityLimit _ => true
  | OpSetHighPriorityPoolRatio r => Qle_bool 0 r
  end.

(** A sequence of public operations, each of them allowed where it runs. *)
Fixpoint run (ops : list op) (s : t) : option t :=
  match ops with
  | [] => Some s
  | o :: rest => if allowedb o s then s' ← run_op o s; run rest s' else None
  end.

(** A new shard and a sequence of operations on it. *)
Definition boot (capacity : Z) (strict : bool) (ratio : Q) (ops : list op)
  : option t :=
  if (0 <=? capacity) && (capacity <? 2 ^ 64) && Qle_bool 0 ratio
  then s ← init capacity strict ratio; run ops s
  else None.

(** The state that stands for a run that fails; no run below does. *)
Definition blank : t :=
  mk ∅ [] (LRUHandleTable.mk [] 0 0) [] None 0 0 0 0 false 0 0.

(** A pinned entry of charge 10 under key a, displaced by a second [Insert]
    under the same key. *)
Definition displaced_state : t :=
  default blank
    (boot 100 false 0
       [OpInsert 1 "a" 7 0 10 0 true LOW; OpInsert 2 "a" 7 0 20 0 false LOW]).


(** A full shard of capacity 50 with a strict limit: a pinned entry of charge
    40 and an unpinned one of charge 10. *)
Definition crowded_state : t :=
  default blank
    (boot 50 true 0
       [OpInsert 1 "a" 1 0 40 0 true LOW; OpInsert 2 "c" 3 0 10 0 false LOW]).

(** The record that a third [Insert], of charge 30 under key b, allocates at
    address 3; its hash selects the bucket of the entry at address 1. *)
Definition third_record (handle : bool) : LRUHandle :=
  new_handle "b" 17 0 30 0 handle LOW.

Definition third_store : memory :=
  <[3%positive := third_record true]> (heap crowded_state).

(** Two high-priority entries of charge 25 in a shard of capacity 100 whose
    high-priority pool takes half of the capacity. *)
Definition pooled_ops : list op :=
  [OpInsert 1 "k1" 1 0 25 0 false HIGH; OpInsert 2 "k2" 2 0 25 0 false HIGH].

Definition pooled_state : t := default blank (boot 100 false (1 # 2) pooled_ops).

(** The same shard after [SetCapacity(60)]. *)
Definition shrunk_state : t :=
  default blank (boot 100 false (1 # 2) (pooled_ops ++ [OpSetCapacity 60])).

(** A high-priority entry of charge 50 that a [Lookup] pins, then a second
    one, in a shard of capacity 100 whose pool takes half of it. *)
Definition pinned_pool_state : t :=
  default blank
    (boot 100 false (1 # 2)
       [OpInsert 1 "k1" 1 0 50 0 false HIGH; OpLookup "k1" 1;
        OpInsert 2 "k2" 2 0 50 0 false HIGH]).

(** ** The sharded cache *)

Module LRUCacheBase.

(** The members that lru_cache.cc sets: the number of shards and the array of
    shards. The base class [ShardedCache] is declared in cache/sharded_cache.h,
    which is not among the sources; nothing of it is used here. *)
Record t := mk {
  num_shards_ : Z;
  shards_ : list LRUCacheShard.t
}.

(** [size_t per_shard = (capacity + (num_shards_ - 1)) / num_shards_]: the
    sum is taken in [size_t]. *)
Definition per_shard (capacity num_shards : Z) : Z :=
  wrap64 (capacity + (num_shards - 1)) / num_shards.


(** [Value], [GetCharge] and [GetHash] read a field of the record behind the
    handle. *)
Definition Value (m : memory) (handle : ptr) : option Z :=
  value <$> m !! handle.

Definition GetCharge (m : memory) (handle : ptr) : option Z :=
  charge <$> m !! handle.

Definition GetHash (m : memory) (handle : ptr) : option Z :=
  hash <$> m !! handle.

(** [TEST_GetLRUSize]: the sum over the shards, in [size_t]. *)
Definition TEST_GetLRUSize (c : t) : Z :=
  foldl (λ n sh, wrap64 (n + LRUCacheShard.TEST_GetLRUSize sh)) 0 (shards_ c).


End LRUCacheBase.

(** ** What an operation leaves alone *)

(** Two states with the same limits and the same number of buckets. *)
Definition same_config (s s' : LRUCacheShard.t) : Prop :=
  LRUHandleTable.length_ (table_ s') = LRUHandleTable.length_ (table_ s) ∧
  capacity_ s' = capacity_ s ∧
  strict_capacity_limit_ s' = strict_capacity_limit_ s ∧
  high_pri_pool_ratio_ s' = high_pri_pool_ratio_ s ∧
  high_pri_pool_capacity_ s' = high_pri_pool_capacity_ s.

(** Two states with the same limits. *)
Definition same_limits (s s' : LRUCacheShard.t) : Prop :=
  capacity_ s' = capacity_ s ∧
  strict_capacity_limit_ s' = strict_capacity_limit_ s ∧
  high_pri_pool_ratio_ s' = high_pri_pool_ratio_ s ∧
  high_pri_pool_capacity_ s' = high_pri_pool_capacity_ s.

(** The operations that set a limit of the shard. *)
Definition sets_limit (o : op) : bool :=
  match o with
  | OpSetCapacity _ | OpSetStrictCapacityLimit _
  | OpSetHighPriorityPoolRatio _ => true
  | _ => false
  end.

(** Sixteen unpinned entries of charge 1 in a new shard: as many as its
    table has buckets. *)
Definition full_table_ops : list op :=
  map (λ i, OpInsert (Pos.of_nat i) "k" (Z.of_nat i) 0 1 0 false LOW)
      (seq 1 16).

Definition full_table_state : t :=
  default blank (boot 100 false 0 full_table_ops).

(** The charge that an operation brings into the shard. *)
Definition added_charge (o : op) : Z :=
  match o with
  | OpInsert _ _ _ _ charge0 _ _ _ => charge0
  | _ => 0
  end.

(** What [Release] asserts before it erases a record: a shard over its
    capacity has an empty LRU list,
    [assert(!(usage_ > capacity_) || lru_.next == &lru_)]. *)
Definition full_means_unlisted (s : t) : Prop :=
  capacity_ s < usage_ s → lru_ s = [].

(** * Proofs *)

(** ** Machine arithmetic *)

Section arithmetic.


Lemma wrap32_range z : 0 ≤ wrap32 z < 2 ^ 32.
Proof. unfold wrap32. apply Z.mod_pos_bound. lia. Qed.

Lemma wrap64_small z : 0 ≤ z < 2 ^ 64 → wrap64 z = z.
Proof. intros. unfold wrap64. apply Z.mod_small. lia. Qed.

Lemma wrap32_small z : 0 ≤ z < 2 ^ 32 → wrap32 z = z.
Proof. intros. unfold wrap32. apply Z.mod_small. lia. Qed.

Lemma wrap64_add_l a b : wrap64 (wrap64 a + b) = wrap64 (a + b).
Proof. unfold wrap64. apply Zplus_mod_idemp_l. Qed.

Lemma wrap64_sub_l a b : wrap64 (wrap64 a - b) = wrap64 (a - b).
Proof. unfold wrap64. apply Zminus_mod_idemp_l. Qed.

Lemma wrap64_idemp a : wrap64 (wrap64 a) = wrap64 a.
Proof. unfold wrap64. apply Z.mod_mod. lia. Qed.

(** [x & y] does not exceed [y] *)
Lemma land_le_r a b : 0 ≤ b → 0 ≤ Z.land a b ≤ b.
Proof.
  intros Hb. split.
  - apply Z.land_nonneg. by right.
  - assert (Hsplit : Z.ldiff b a + Z.land b a = b).
    { rewrite Z.add_nocarry_lor.
      - apply Z.lor_ldiff_and.
      - apply Z.bits_inj'. intros n Hn.
        rewrite Z.land_spec, Z.ldiff_spec, Z.land_spec, Z.bits_0.
        destruct (Z.testbit b n), (Z.testbit a n); reflexivity. }
    assert (0 ≤ Z.ldiff b a) by (apply Z.ldiff_nonneg; by left).
    rewrite (Z.land_comm a b). lia.
Qed.

Lemma bucket_lt hash0 len :
  0 < len → (LRUHandleTable.bucket hash0 len < Z.to_nat len)%nat.
Proof.
  intros Hlen. unfold LRUHandleTable.bucket.
  pose proof (land_le_r hash0 (len - 1)). lia.
Qed.

End arithmetic.

(** ** Sums of charges *)

Section sums.

Implicit Types (m : gmap positive LRUHandle) (P : LRUHandle → bool).

Lemma sum_charge_empty P : sum_charge P ∅ = 0.
Proof. unfold sum_charge. by rewrite fmap_empty, map_fold_empty. Qed.

Lemma sum_charge_alloc P m p h :
  m !! p = None → sum_charge P (<[p := h]> m) = sum_charge P m + weight P h.
Proof.
  intros Hp. unfold sum_charge. rewrite fmap_insert.
  rewrite map_fold_insert_L.
  - lia.
  - intros. lia.
  - by rewrite lookup_fmap, Hp.
Qed.

Lemma sum_charge_delete P m p h :
  m !! p = Some h → sum_charge P (delete p m) = sum_charge P m - weight P h.
Proof.
  intros Hp.
  rewrite <- (insert_delete_id m p h) at 2 by done.
  rewrite sum_charge_alloc by apply lookup_delete_eq. lia.
Qed.

Lemma sum_charge_update P m p h h' :
  m !! p = Some h →
  sum_charge P (<[p := h']> m) = sum_charge P m - weight P h + weight P h'.
Proof.
  intros Hp. rewrite <- insert_delete_eq.
  rewrite sum_charge_alloc by apply lookup_delete_eq.
  by rewrite (sum_charge_delete P m p h).
Qed.

(** A sum that is not zero has a record that counts. *)
Lemma sum_charge_witness P m :
  sum_charge P m ≠ 0 → ∃ p h, m !! p = Some h ∧ P h = true.
Proof.
  induction m as [|p h m Hp IH] using map_ind.
  - by rewrite sum_charge_empty.
  - rewrite sum_charge_alloc by done. intros Hsum.
    destruct (P h) eqn:HP.
    + exists p, h. by rewrite lookup_insert_eq.
    + unfold weight in Hsum. rewrite HP in Hsum.
      destruct IH as (q & hq & Hq & HPq); [lia|].
      exists q, hq. split; [|done].
      rewrite lookup_insert_ne; [done|]. intros ->. congruence.
Qed.

(** Two stores whose records weigh the same have the same sum. *)
Lemma sum_charge_ext P m m' :
  (∀ p, weight P <$> m' !! p = weight P <$> m !! p) →
  sum_charge P m' = sum_charge P m.
Proof.
  intros Hw. unfold sum_charge. f_equal.
  apply map_eq. intros p. by rewrite !lookup_fmap.
Qed.

End sums.

(** ** The hash table *)

Section table.

Implicit Types (m : gmap positive LRUHandle) (tb : LRUHandleTable.t).
Implicit Types (chain : list positive) (p q e : positive).

Lemma elem_of_concat {A} (x : A) (ls : list (list A)) :
  x ∈ concat ls ↔ ∃ l, x ∈ l ∧ l ∈ ls.
Proof.
  rewrite list_elem_of_In, in_concat. split.
  - intros (l & Hl & Hx). exists l. by rewrite !list_elem_of_In.
  - intros (l & Hx & Hl). exists l. by rewrite <- !list_elem_of_In.
Qed.

Lemma walk_test key hash0 h :
  negb (hash h =? hash0) || bool_decide (key ≠ key_data h) = false
  ↔ matches key hash0 h.
Proof.
  unfold matches. rewrite orb_false_iff, negb_false_iff, Z.eqb_eq.
  rewrite bool_decide_eq_false. split.
  - intros [? Hk]. split; [done|]. symmetry. by apply dec_stable.
  - intros [? <-]. split; [done|]. by intros ?.
Qed.

(** The walk stops at the first record that matches, or at the end. *)
Lemma walk_spec m key hash0 chain :
  (∀ p, p ∈ chain → is_Some (m !! p)) →
  ∃ n, LRUHandleTable.walk m key hash0 chain = Some n ∧
    (n ≤ length chain)%nat ∧
    (∀ i p h, (i < n)%nat → chain !! i = Some p → m !! p = Some h →
       ¬ matches key hash0 h) ∧
    (∀ p h, chain !! n = Some p → m !! p = Some h → matches key hash0 h).
Proof.
  induction chain as [|p chain IH]; intros Hall; simpl.
  - exists 0%nat. split_and!; [done|lia| |]; intros; by try lia.
  - destruct (Hall p) as [h Hh]; [left|]. rewrite Hh. simpl.
    destruct (negb (hash h =? hash0) || bool_decide (key ≠ key_data h))
      eqn:Htest.
    + destruct IH as (n & -> & Hn & Hbefore & Hat).
      { intros q Hq. apply Hall. by right. }
      exists (S n). simpl. split_and!; [done|lia| |].
      * intros [|i] q hq Hi Hq Hhq; simpl in Hq.
        -- simplify_eq. intros Hm. apply walk_test in Hm. congruence.
        -- apply (Hbefore i q hq); [lia|done|done].
      * intros q hq Hq. simpl in Hq. by apply Hat.
    + exists 0%nat. split_and!; [done|lia| |].
      * intros; lia.
      * intros q hq Hq Hhq. simpl in Hq. simplify_eq. by apply walk_test.
Qed.

(** The walk reads the hash and the key of the records of the chain only. *)
Lemma walk_ext m m' key hash0 chain :
  (∀ p, p ∈ chain → ∃ h h', m !! p = Some h ∧ m' !! p = Some h' ∧
      hash h' = hash h ∧ key_data h' = key_data h) →
  LRUHandleTable.walk m' key hash0 chain = LRUHandleTable.walk m key hash0 chain.
Proof.
  induction chain as [|p chain IH]; intros Hall; simpl; [done|].
  destruct (Hall p) as (h & h' & -> & -> & Hhash & Hkey); [left|].
  simpl. rewrite Hhash, Hkey, IH; [done|].
  intros q Hq. apply Hall. by right.
Qed.

Lemma entries_chain tb b chain p :
  LRUHandleTable.list_ tb !! b = Some chain → p ∈ chain → p ∈ entries tb.
Proof.
  intros Hb Hp. unfold entries. apply elem_of_concat.
  exists chain. split; [done|]. by eapply list_elem_of_lookup_2.
Qed.

Lemma entries_inv tb p :
  p ∈ entries tb →
  ∃ b chain, LRUHandleTable.list_ tb !! b = Some chain ∧ p ∈ chain.
Proof.
  unfold entries. intros (chain & Hp & Hchain)%elem_of_concat.
  apply list_elem_of_lookup in Hchain as [b Hb]. eauto.
Qed.

Lemma table_wf_bucket m tb hash0 :
  table_wf m tb →
  ∃ chain, LRUHandleTable.list_ tb
             !! LRUHandleTable.bucket hash0 (LRUHandleTable.length_ tb)
           = Some chain.
Proof.
  intros (Hlen & (k & Hk & Hkr) & _).
  apply lookup_lt_is_Some. rewrite Hlen. apply bucket_lt.
  rewrite Hk. apply Z.pow_pos_nonneg; lia.
Qed.

Lemma table_wf_lookup m tb p :
  table_wf m tb → p ∈ entries tb → is_Some (m !! p).
Proof.
  intros (_ & _ & _ & _ & Hin & _) (b & chain & Hb & Hp)%entries_inv.
  destruct (Hin b chain p Hb Hp) as (h & Hh & _). eauto.
Qed.

(** What [FindPointer] returns in a well-formed table. *)
Lemma FindPointer_spec m tb key hash0 :
  table_wf m tb →
  ∃ chain n,
    let b := LRUHandleTable.bucket hash0 (LRUHandleTable.length_ tb) in
    LRUHandleTable.list_ tb !! b = Some chain ∧
    LRUHandleTable.FindPointer m key hash0 tb = Some (b, n) ∧
    (n ≤ length chain)%nat ∧
    (∀ p h, chain !! n = Some p → m !! p = Some h → matches key hash0 h) ∧
    (chain !! n = None →
     ∀ p h, p ∈ entries tb → m !! p = Some h → ¬ matches key hash0 h).
Proof.
  intros Hwf. destruct (table_wf_bucket m tb hash0 Hwf) as [chain Hchain].
  destruct (walk_spec m key hash0 chain) as (n & Hwalk & Hn & Hbefore & Hat).
  { intros p Hp. eapply table_wf_lookup; [done|]. by eapply entries_chain. }
  exists chain, n. simpl. split_and!; [done| |done|done|].
  - unfold LRUHandleTable.FindPointer. rewrite Hchain. simpl.
    by rewrite Hwalk.
  - intros Hnone p h Hp Hh [Hhash Hkey].
    apply lookup_ge_None in Hnone.
    apply entries_inv in Hp as (b & chain' & Hb & Hp).
    destruct Hwf as (_ & _ & _ & _ & Hin & _).
    destruct (Hin b chain' p Hb Hp) as (h' & Hh' & Hbucket).
    rewrite Hh in Hh'. injection Hh' as <-.
    rewrite Hhash in Hbucket. subst b.
    rewrite Hchain in Hb. injection Hb as <-.
    apply list_elem_of_lookup in Hp as [i Hi].
    apply (Hbefore i p h); [|done|done|done].
    apply lookup_lt_Some in Hi. lia.
Qed.

(** [Lookup] finds the record with this hash and key, if the table has one. *)
Lemma table_Lookup_spec m tb key hash0 :
  table_wf m tb →
  ∃ r, LRUHandleTable.Lookup m key hash0 tb = Some r ∧
    ∀ p, r = Some p ↔
      p ∈ entries tb ∧ ∃ h, m !! p = Some h ∧ matches key hash0 h.
Proof.
  intros Hwf.
  destruct (FindPointer_spec m tb key hash0 Hwf)
    as (chain & n & Hchain & Hfind & Hn & Hat & Hnone).
  simpl in *.
  exists (chain !! n). split.
  { unfold LRUHandleTable.Lookup, LRUHandleTable.deref.
    rewrite Hfind. simpl. by rewrite Hchain. }
  intros p. split.
  - intros Hp.
    assert (p ∈ entries tb) as Hin.
    { eapply entries_chain; [done|]. by eapply list_elem_of_lookup_2. }
    split; [done|].
    destruct (table_wf_lookup m tb p Hwf Hin) as [h Hh].
    exists h. split; [done|]. by eapply Hat.
  - intros (Hin & h & Hh & Hm).
    destruct (chain !! n) as [q|] eqn:Hq.
    + f_equal.
      assert (q ∈ entries tb) as Hqin.
      { eapply entries_chain; [done|]. by eapply list_elem_of_lookup_2. }
      destruct (table_wf_lookup m tb q Hwf Hqin) as [hq Hhq].
      destruct (Hat q hq eq_refl Hhq) as [Hqh Hqk].
      destruct Hm as [Hph Hpk].
      destruct Hwf as (_ & _ & _ & _ & _ & _ & Huniq).
      apply (Huniq q p hq h); congruence.
    + exfalso. by apply (Hnone eq_refl p h).
Qed.

End table.

Section table_update.

Implicit Types (m : gmap positive LRUHandle) (tb : LRUHandleTable.t).
Implicit Types (chain : list positive) (p q e : positive).

(** Replacing the middle of one chain replaces it in the sequence of all
    entries. *)
Lemma concat_insert_middle {A} (ls : list (list A)) b c1 mid c2 :
  ls !! b = Some (c1 ++ mid ++ c2) →
  ∃ l1 l2, concat ls = l1 ++ mid ++ l2 ∧
    ∀ mid', concat (<[b := c1 ++ mid' ++ c2]> ls) = l1 ++ mid' ++ l2.
Proof.
  intros Hb.
  exists (concat (take b ls) ++ c1), (c2 ++ concat (drop (S b) ls)). split.
  - rewrite <- (take_drop_middle ls b _ Hb) at 1.
    rewrite concat_app. simpl. by rewrite <- !app_assoc.
  - intros mid'. rewrite insert_take_drop by by eapply lookup_lt_Some.
    rewrite concat_app. simpl. by rewrite <- !app_assoc.
Qed.

Lemma NoDup_remove_middle {A} (l1 l2 : list A) x :
  NoDup (l1 ++ x :: l2) → NoDup (l1 ++ l2) ∧ x ∉ l1 ++ l2.
Proof.
  intros Hnd.
  assert (Hperm : l1 ++ x :: l2 ≡ₚ x :: (l1 ++ l2))
    by (symmetry; apply Permutation_middle).
  rewrite Hperm in Hnd. apply NoDup_cons in Hnd. tauto.
Qed.

Lemma NoDup_insert_middle {A} (l1 l2 : list A) x :
  NoDup (l1 ++ l2) → x ∉ l1 ++ l2 → NoDup (l1 ++ x :: l2).
Proof.
  intros Hnd Hx.
  assert (Hperm : l1 ++ x :: l2 ≡ₚ x :: (l1 ++ l2))
    by (symmetry; apply Permutation_middle).
  rewrite Hperm. by apply NoDup_cons.
Qed.

Lemma elem_of_middle {A} (l1 l2 : list A) x y :
  y ∈ l1 ++ x :: l2 ↔ y = x ∨ y ∈ l1 ++ l2.
Proof. rewrite !elem_of_app, elem_of_cons. tauto. Qed.

(** The table after a change of the chain of one bucket. *)
Lemma table_wf_intro m ls len elems :
  length ls = Z.to_nat len →
  (∃ k, len = 2 ^ k ∧ 4 ≤ k ≤ 31) →
  elems = Z.of_nat (length (concat ls)) →
  elems ≤ len →
  (∀ b chain p, ls !! b = Some chain → p ∈ chain →
     ∃ h, m !! p = Some h ∧ LRUHandleTable.bucket (hash h) len = b) →
  NoDup (concat ls) →
  (∀ p q hp hq, p ∈ concat ls → q ∈ concat ls →
     m !! p = Some hp → m !! q = Some hq →
     hash hp = hash hq → key_data hp = key_data hq → p = q) →
  table_wf m (LRUHandleTable.mk ls len elems).
Proof. intros. unfold table_wf, entries. simpl. split_and!; done. Qed.

Lemma table_wf_elems_range m tb :
  table_wf m tb → 0 ≤ LRUHandleTable.elems_ tb ≤ 2 ^ 31.
Proof.
  intros (_ & (k & Hk & Hkr) & He & Hle & _).
  split; [lia|].
  assert (2 ^ k ≤ 2 ^ 31) by (apply Z.pow_le_mono_r; lia). lia.
Qed.

(** [Remove] unlinks the record that [Lookup] finds. *)
Lemma table_Remove_spec m tb key hash0 :
  table_wf m tb →
  ∃ r tb', LRUHandleTable.Remove m key hash0 tb = Some (r, tb') ∧
    LRUHandleTable.Lookup m key hash0 tb = Some r ∧
    match r with
    | None => tb' = tb
    | Some p =>
        table_wf m tb' ∧
        LRUHandleTable.length_ tb' = LRUHandleTable.length_ tb ∧
        LRUHandleTable.elems_ tb' = LRUHandleTable.elems_ tb - 1 ∧
        ∃ l1 l2, entries tb = l1 ++ p :: l2 ∧ entries tb' = l1 ++ l2
    end.
Proof.
  intros Hwf.
  destruct (FindPointer_spec m tb key hash0 Hwf)
    as (chain & n & Hchain & Hfind & Hn & Hat & Hnone).
  simpl in *.
  unfold LRUHandleTable.Remove, LRUHandleTable.Lookup, LRUHandleTable.deref.
  rewrite Hfind. simpl. rewrite Hchain. simpl.
  destruct (chain !! n) as [p|] eqn:Hp; [|by eauto].
  eexists _, _. split; [done|]. split; [done|].
  set (b := LRUHandleTable.bucket hash0 (LRUHandleTable.length_ tb)) in *.
  assert (Hsplit : chain = take n chain ++ [p] ++ drop (S n) chain)
    by (symmetry; by apply take_drop_middle).
  rewrite Hsplit in Hchain.
  destruct (concat_insert_middle _ _ _ _ _ Hchain) as (l1 & l2 & Hc & Hc').
  specialize (Hc' []). simpl in Hc, Hc'.
  pose proof (table_wf_elems_range m tb Hwf) as Hrange.
  destruct Hwf as (Hlen & Hpow & Helems & Hle & Hin & Hnd & Huniq).
  unfold entries in *. rewrite Hc in *.
  destruct (NoDup_remove_middle _ _ _ Hnd) as [Hnd' Hp'].
  assert (Hsub : ∀ q, q ∈ l1 ++ l2 → q ∈ l1 ++ p :: l2).
  { intros q. rewrite elem_of_middle. tauto. }
  rewrite length_app in Helems. simpl in Helems.
  assert (Hwrap : wrap32 (LRUHandleTable.elems_ tb - 1)
                  = LRUHandleTable.elems_ tb - 1)
    by (apply wrap32_small; lia).
  rewrite Hwrap.
  split_and!; [|done|done|by exists l1, l2].
  apply table_wf_intro; rewrite ?Hc'; try done.
  - by rewrite length_insert.
  - rewrite length_app. lia.
  - lia.
  - intros b' chain' q Hb' Hq.
    apply list_lookup_insert_Some in Hb' as [(<- & <- & _)|[Hne Hb']].
    + apply (Hin b (take n chain ++ p :: drop (S n) chain) q); [done|].
      rewrite elem_of_middle. by right.
    + by apply (Hin b' chain' q).
  - intros q q' hq hq' Hq Hq'. apply Huniq; by apply Hsub.
Qed.

End table_update.

Section table_insert.

Implicit Types (m : gmap positive LRUHandle) (tb : LRUHandleTable.t).
Implicit Types (chain : list positive) (p q e : positive).

Lemma Resize_length_unfold fuel nl elems :
  LRUHandleTable.Resize_length fuel nl elems =
  if 2 * nl <? 3 * elems
  then match fuel with
       | O => None
       | S fuel' => LRUHandleTable.Resize_length fuel' (wrap32 (nl * 2)) elems
       end
  else Some nl.
Proof. by destruct fuel. Qed.

Lemma Resize_length_zero fuel elems :
  0 < elems → LRUHandleTable.Resize_length fuel 0 elems = None.
Proof.
  intros He.
  assert (Hc : (2 * 0 <? 3 * elems) = true) by (apply Z.ltb_lt; lia).
  induction fuel as [|fuel IH]; rewrite Resize_length_unfold, Hc; [done|].
  exact IH.
Qed.

(** The new length is a power of two that leaves the load factor below one;
    it is the first such power from the start value on. *)
Lemma Resize_length_pow2 fuel j elems nl :
  4 ≤ j ≤ 31 →
  LRUHandleTable.Resize_length fuel (2 ^ j) elems = Some nl →
  ∃ j', j ≤ j' ≤ 31 ∧ nl = 2 ^ j' ∧ 3 * elems ≤ 2 * nl ∧
        (j' = j ∨ nl < 3 * elems).
Proof.
  revert j. induction fuel as [|fuel IH]; intros j Hj;
    rewrite Resize_length_unfold.
  - destruct (2 * 2 ^ j <? 3 * elems) eqn:Hc; [done|].
    apply Z.ltb_ge in Hc. intros [= <-]. exists j. split_and!; auto; lia.
  - destruct (2 * 2 ^ j <? 3 * elems) eqn:Hc.
    + apply Z.ltb_lt in Hc.
      destruct (decide (j = 31)) as [->|Hne].
      * replace (wrap32 (2 ^ 31 * 2)) with 0 by (by vm_compute).
        rewrite Resize_length_zero; [done|]. 
        assert (0 < 2 * 2 ^ 31) by (by vm_compute). lia.
      * assert (Hpow : 2 ^ j * 2 = 2 ^ (j + 1)).
        { rewrite Z.pow_add_r by lia. lia. }
        rewrite Hpow.
        assert (Hlt : 2 ^ (j + 1) < 2 ^ 32)
          by (apply Z.pow_lt_mono_r; lia).
        rewrite wrap32_small
          by (split; [apply Z.pow_nonneg; lia|done]).
        intros Hres. destruct (IH (j + 1) ltac:(lia) Hres)
          as (j' & Hj' & -> & Hload & Hfirst).
        exists j'. split_and!; [lia|lia|done|lia|].
        right. destruct Hfirst as [->|?]; [|done].
        rewrite <- Hpow. lia.
    + apply Z.ltb_ge in Hc. intros [= <-]. exists j. split_and!; auto; lia.
Qed.

(** When one record too many is linked, the new length is twice the old. *)
Lemma Resize_length_double k :
  4 ≤ k ≤ 30 →
  LRUHandleTable.Resize_length 32 16 (2 ^ k + 1) = Some (2 * 2 ^ k).
Proof.
  intros Hk.
  assert (Hcases : (Z.to_nat (k - 4) < 27)%nat) by lia.
  replace k with (Z.of_nat (Z.to_nat (k - 4)) + 4) by lia.
  generalize dependent (Z.to_nat (k - 4)). clear Hk. intros n Hn.
  do 27 (destruct n as [|n]; [by vm_compute|]). lia.
Qed.

Lemma concat_replicate_nil {A} n : concat (replicate n (@nil A)) = [].
Proof. induction n; simpl; auto. Qed.

(** [relink_all] moves every record to the chain of its hash. *)
Lemma relink_all_spec m nl hs new_list :
  0 < nl → length new_list = Z.to_nat nl →
  (∀ p, p ∈ hs → is_Some (m !! p)) →
  (∀ b chain p, new_list !! b = Some chain → p ∈ chain →
     ∃ h, m !! p = Some h ∧ LRUHandleTable.bucket (hash h) nl = b) →
  ∃ new_list', LRUHandleTable.relink_all m nl hs new_list = Some new_list' ∧
    length new_list' = Z.to_nat nl ∧
    concat new_list' ≡ₚ hs ++ concat new_list ∧
    (∀ b chain p, new_list' !! b = Some chain → p ∈ chain →
       ∃ h, m !! p = Some h ∧ LRUHandleTable.bucket (hash h) nl = b).
Proof.
  intros Hnl. revert new_list.
  induction hs as [|p hs IH]; intros new_list Hlen Hall Hin; simpl.
  - exists new_list. split_and!; done.
  - destruct (Hall p) as [h Hh]; [left|].
    unfold LRUHandleTable.relink. rewrite Hh. simpl.
    destruct (lookup_lt_is_Some_2 new_list
                (LRUHandleTable.bucket (hash h) nl)) as [chain Hchain].
    { rewrite Hlen. by apply bucket_lt. }
    rewrite Hchain. simpl.
    destruct (concat_insert_middle new_list _ [] [] chain Hchain)
      as (l1 & l2 & Hc & Hc').
    specialize (Hc' [p]). simpl in Hc, Hc'.
    destruct (IH (<[LRUHandleTable.bucket (hash h) nl := p :: chain]>
                    new_list))
      as (new_list' & Hrun & Hlen' & Hperm & Hin').
    + by rewrite length_insert.
    + intros q Hq. apply Hall. by right.
    + intros b chain' q Hb Hq.
      apply list_lookup_insert_Some in Hb as [(<- & <- & _)|[Hne Hb]].
      * apply elem_of_cons in Hq as [->|Hq]; [by exists h|].
        by apply (Hin _ chain q).
      * by apply (Hin b chain' q).
    + exists new_list'. split_and!; [exact Hrun|exact Hlen'| |exact Hin'].
      rewrite Hperm, Hc', Hc.
      simpl. by rewrite <- (Permutation_middle l1), <- Permutation_middle.
Qed.

(** [Resize] keeps the entries and restores the shape of the table. *)
Lemma Resize_spec m tb nl :
  (∀ p, p ∈ entries tb → is_Some (m !! p)) →
  NoDup (entries tb) →
  (∀ p q hp hq, p ∈ entries tb → q ∈ entries tb →
     m !! p = Some hp → m !! q = Some hq →
     hash hp = hash hq → key_data hp = key_data hq → p = q) →
  LRUHandleTable.elems_ tb = Z.of_nat (length (entries tb)) →
  LRUHandleTable.Resize_length 32 16 (LRUHandleTable.elems_ tb) = Some nl →
  ∃ tb', LRUHandleTable.Resize m tb = Some tb' ∧
    table_wf m tb' ∧ entries tb' ≡ₚ entries tb ∧
    LRUHandleTable.length_ tb' = nl ∧
    LRUHandleTable.elems_ tb' = LRUHandleTable.elems_ tb.
Proof.
  intros Hall Hnd Huniq Helems Hnl.
  destruct (Resize_length_pow2 32 4 _ nl ltac:(lia) Hnl)
    as (j & Hj & -> & Hload & _).
  assert (Hpos : 0 < 2 ^ j) by (apply Z.pow_pos_nonneg; lia).
  destruct (relink_all_spec m (2 ^ j) (entries tb)
              (replicate (Z.to_nat (2 ^ j)) []))
    as (new_list & Hrun & Hlen & Hperm & Hin); [done| |done| |].
  { by rewrite length_replicate. }
  { intros b chain p [-> _]%lookup_replicate Hp. by apply elem_of_nil in Hp. }
  rewrite concat_replicate_nil, app_nil_r in Hperm.
  unfold LRUHandleTable.Resize. rewrite Hnl. simpl.
  unfold entries in Hrun. rewrite Hrun. simpl.
  eexists. split; [done|]. split_and!; [|done|done|done].
  apply table_wf_intro; try done.
  - by exists j.
  - by rewrite Hperm.
  - lia.
  - by rewrite Hperm.
  - intros p q hp hq Hp Hq. rewrite Hperm in Hp, Hq. by apply Huniq.
Qed.

Lemma table_init_spec :
  ∃ tb, LRUHandleTable.init = Some tb ∧ table_wf ∅ tb ∧ entries tb = [].
Proof.
  eexists. split; [by vm_compute|]. split; [|done].
  apply table_wf_intro; try done.
  - exists 4. lia.
  - intros b chain p Hb Hp.
    change (replicate 16 [] !! b = Some chain) in Hb.
    apply lookup_replicate in Hb as [-> _]. by apply elem_of_nil in Hp.
  - constructor.
Qed.

End table_insert.

Section table_insert_spec.

Implicit Types (m : gmap positive LRUHandle) (tb : LRUHandleTable.t).
Implicit Types (chain : list positive) (p q e : positive).

(** What [Insert] computes in a well-formed table: the record replaces the
    one with its hash and key in place, or goes to the end of its chain. *)
Lemma table_Insert_spec m tb e h :
  table_wf m tb → m !! e = Some h →
  ∃ chain n,
    let b := LRUHandleTable.bucket (hash h) (LRUHandleTable.length_ tb) in
    LRUHandleTable.list_ tb !! b = Some chain ∧
    (n ≤ length chain)%nat ∧
    LRUHandleTable.Lookup m (key_data h) (hash h) tb = Some (chain !! n) ∧
    LRUHandleTable.Insert m e tb =
      match chain !! n with
      | Some old =>
          Some (Some old,
                LRUHandleTable.mk
                  (<[b := <[n := e]> chain]> (LRUHandleTable.list_ tb))
                  (LRUHandleTable.length_ tb) (LRUHandleTable.elems_ tb))
      | None =>
          let tb2 := LRUHandleTable.mk
                       (<[b := chain ++ [e]]> (LRUHandleTable.list_ tb))
                       (LRUHandleTable.length_ tb)
                       (LRUHandleTable.elems_ tb + 1) in
          if LRUHandleTable.length_ tb <? LRUHandleTable.elems_ tb + 1
          then tb3 ← LRUHandleTable.Resize m tb2; Some (None, tb3)
          else Some (None, tb2)
      end.
Proof.
  intros Hwf He.
  destruct (FindPointer_spec m tb (key_data h) (hash h) Hwf)
    as (chain & n & Hchain & Hfind & Hn & Hat & Hnone).
  simpl in *. exists chain, n. split_and!; [done|done| |].
  { unfold LRUHandleTable.Lookup, LRUHandleTable.deref.
    rewrite Hfind. simpl. by rewrite Hchain. }
  unfold LRUHandleTable.Insert. rewrite He. simpl. rewrite Hfind. simpl.
  rewrite Hchain. simpl.
  destruct (chain !! n) as [old|] eqn:Hold.
  - rewrite <- insert_take_drop by by eapply lookup_lt_Some. done.
  - apply lookup_ge_None in Hold.
    rewrite take_ge, drop_ge by lia.
    pose proof (table_wf_elems_range m tb Hwf).
    rewrite wrap32_small by lia. done.
Qed.

(** [Insert] keeps the table well formed. *)
Lemma table_Insert_wf m tb e h r tb' :
  table_wf m tb → m !! e = Some h → e ∉ entries tb →
  LRUHandleTable.Insert m e tb = Some (r, tb') →
  LRUHandleTable.Lookup m (key_data h) (hash h) tb = Some r ∧
  table_wf m tb' ∧
  match r with
  | Some old =>
      ∃ l1 l2, entries tb = l1 ++ old :: l2 ∧ entries tb' = l1 ++ e :: l2
  | None => entries tb' ≡ₚ e :: entries tb
  end.
Proof.
  intros Hwf He Hfresh.
  destruct (table_Insert_spec m tb e h Hwf He)
    as (chain & n & Hchain & Hn & Hlook & ->).
  simpl in Hchain.
  set (b := LRUHandleTable.bucket (hash h) (LRUHandleTable.length_ tb)) in *.
  destruct (table_Lookup_spec m tb (key_data h) (hash h) Hwf)
    as (r0 & Hlook0 & Hmatch).
  rewrite Hlook in Hlook0. injection Hlook0 as <-.
  pose proof (table_wf_elems_range m tb Hwf) as Hrange.
  pose proof Hwf as (Hlen & Hpow & Helems & Hle & Hin & Hnd & Huniq).
  destruct (chain !! n) as [old|] eqn:Hold.
  - intros [= <- <-]. split; [done|].
    assert (Hsplit : chain = take n chain ++ [old] ++ drop (S n) chain)
      by (symmetry; by apply take_drop_middle).
    rewrite Hsplit in Hchain.
    destruct (concat_insert_middle _ _ _ _ _ Hchain) as (l1 & l2 & Hc & Hc').
    specialize (Hc' [e]). simpl in Hc, Hc'.
    rewrite <- insert_take_drop in Hc' by by eapply lookup_lt_Some.
    unfold entries in *. simpl. rewrite Hc in *.
    destruct (NoDup_remove_middle _ _ _ Hnd) as [Hnd' Hold'].
    assert (Hfresh' : e ∉ l1 ++ l2).
    { intros Hx. apply Hfresh. apply elem_of_middle. by right. }
    split; [|by exists l1, l2].
    apply table_wf_intro; rewrite ?Hc'; try done.
    + by rewrite length_insert.
    + rewrite Helems, !length_app. simpl. lia.
    + intros b' chain' q Hb' Hq.
      apply list_lookup_insert_Some in Hb' as [(<- & <- & _)|[Hne Hb']].
      * rewrite insert_take_drop in Hq by by eapply lookup_lt_Some.
        apply elem_of_middle in Hq as [->|Hq]; [by exists h|].
        apply (Hin b (take n chain ++ old :: drop (S n) chain) q); [done|].
        apply elem_of_middle. by right.
      * by apply (Hin b' chain' q).
    + by apply NoDup_insert_middle.
    + assert (Hother : ∀ q hq, q ∈ l1 ++ l2 → m !! q = Some hq →
                hash hq = hash h → key_data hq = key_data h → False).
      { intros q hq Hq Hhq Hh Hk. apply Hold'.
        assert (Some old = Some q) as [= ->]; [|done].
        apply Hmatch. split; [apply elem_of_middle; by right|].
        by exists hq. }
      intros p q hp hq [->|Hp]%elem_of_middle [->|Hq]%elem_of_middle
        Hhp Hhq Hh Hk; [done| | |].
      * exfalso. rewrite He in Hhp. injection Hhp as <-.
        by apply (Hother q hq).
      * exfalso. rewrite He in Hhq. injection Hhq as <-.
        by apply (Hother p hp).
      * apply (Huniq p q hp hq); try done; apply elem_of_middle; by right.
  - assert (Hnomatch : ∀ q hq, q ∈ entries tb → m !! q = Some hq →
              hash hq = hash h → key_data hq = key_data h → False).
    { intros q hq Hq Hhq Hh Hk.
      assert (None = Some q) as [=]. apply Hmatch. split; [done|].
      by exists hq. }
    assert (Hsplit : chain = chain ++ [] ++ []) by by rewrite app_nil_r.
    rewrite Hsplit in Hchain.
    destruct (concat_insert_middle _ _ _ _ _ Hchain) as (l1 & l2 & Hc & Hc').
    specialize (Hc' [e]). simpl in Hc, Hc'.
    set (tb2 := LRUHandleTable.mk _ _ _).
    assert (Hentries2 : entries tb2 = l1 ++ e :: l2) by done.
    assert (Hperm2 : entries tb2 ≡ₚ e :: entries tb).
    { rewrite Hentries2. unfold entries. rewrite Hc.
      by rewrite Permutation_middle. }
    assert (Hall2 : ∀ p, p ∈ entries tb2 → is_Some (m !! p)).
    { intros p. rewrite Hperm2. intros [->|Hp]%elem_of_cons; [by eauto|].
      by eapply table_wf_lookup. }
    assert (Hnd2 : NoDup (entries tb2)).
    { rewrite Hperm2. by apply NoDup_cons. }
    assert (Huniq2 : ∀ p q hp hq, p ∈ entries tb2 → q ∈ entries tb2 →
              m !! p = Some hp → m !! q = Some hq →
              hash hp = hash hq → key_data hp = key_data hq → p = q).
    { intros p q hp hq. rewrite !Hperm2.
      intros [->|Hp]%elem_of_cons [->|Hq]%elem_of_cons Hhp Hhq Hh Hk;
        [done| | |].
      * exfalso. rewrite He in Hhp. injection Hhp as <-.
        by apply (Hnomatch q hq).
      * exfalso. rewrite He in Hhq. injection Hhq as <-.
        by apply (Hnomatch p hp).
      * by apply (Huniq p q hp hq). }
    assert (Helems2 : LRUHandleTable.elems_ tb2
                      = Z.of_nat (length (entries tb2))).
    { rewrite Hperm2. simpl. lia. }
    destruct (LRUHandleTable.length_ tb <? LRUHandleTable.elems_ tb + 1)
      eqn:Hfull.
    + cbv zeta.
      destruct (LRUHandleTable.Resize m tb2) as [tb3|] eqn:Hresize; [|done].
      simpl. intros [= <- <-]. split; [done|].
      assert (∃ nl, LRUHandleTable.Resize_length 32 16
                      (LRUHandleTable.elems_ tb2) = Some nl) as [nl Hnl].
      { unfold LRUHandleTable.Resize in Hresize.
        destruct (LRUHandleTable.Resize_length 32 16 _) eqn:Hrl;
          [by eauto|done]. }
      destruct (Resize_spec m tb2 nl Hall2 Hnd2 Huniq2 Helems2 Hnl)
        as (tb3' & Hresize' & Hwf3 & Hperm3 & _).
      rewrite Hresize in Hresize'. injection Hresize' as <-.
      split; [done|]. by rewrite Hperm3.
    + apply Z.ltb_ge in Hfull. cbv zeta. intros [= <- <-].
      split; [done|]. split; [|done].
      apply table_wf_intro; try done.
      * by rewrite length_insert.
      * intros b' chain' q Hb' Hq.
        apply list_lookup_insert_Some in Hb' as [(<- & <- & _)|[Hne Hb']].
        -- apply elem_of_app in Hq as [Hq|Hq%list_elem_of_singleton].
           ++ apply (Hin b (chain ++ []) q); [done|by rewrite app_nil_r].
           ++ subst q. by exists h.
        -- by apply (Hin b' chain' q).
Qed.

(** [Insert] returns as long as the table can still double, and the table
    doubles when one record more than its length is linked. *)
Lemma table_Insert_total m tb e h :
  table_wf m tb → m !! e = Some h → e ∉ entries tb →
  LRUHandleTable.length_ tb < 2 ^ 31 →
  ∃ r tb', LRUHandleTable.Insert m e tb = Some (r, tb') ∧
    (r = None →
     LRUHandleTable.elems_ tb' = LRUHandleTable.elems_ tb + 1 ∧
     LRUHandleTable.length_ tb'
     = if LRUHandleTable.length_ tb <? LRUHandleTable.elems_ tb + 1
       then 2 * LRUHandleTable.length_ tb
       else LRUHandleTable.length_ tb).
Proof.
  intros Hwf He Hfresh Hsmall.
  destruct (table_Insert_spec m tb e h Hwf He)
    as (chain & n & Hchain & Hn & Hlook & Hins).
  simpl in Hchain.
  set (b := LRUHandleTable.bucket (hash h) (LRUHandleTable.length_ tb)) in *.
  destruct (table_Lookup_spec m tb (key_data h) (hash h) Hwf)
    as (r0 & Hlook0 & Hmatch).
  rewrite Hlook in Hlook0. injection Hlook0 as <-.
  pose proof Hwf as (Hlen & (k & Hk & Hkr) & Helems & Hle & Hin & Hnd & Huniq).
  destruct (chain !! n) as [old|] eqn:Hold.
  { eexists _, _. split; [exact Hins|]. done. }
  cbv zeta in Hins.
  destruct (LRUHandleTable.length_ tb <? LRUHandleTable.elems_ tb + 1)
    eqn:Hfull.
  2: { eexists _, _. split; [exact Hins|]. done. }
  apply Z.ltb_lt in Hfull.
  assert (Hnomatch : ∀ q hq, q ∈ entries tb → m !! q = Some hq →
            hash hq = hash h → key_data hq = key_data h → False).
  { intros q hq Hq Hhq Hh Hkey.
    assert (None = Some q) as [=]. apply Hmatch. split; [done|].
    by exists hq. }
  assert (Hsplit : chain = chain ++ [] ++ []) by by rewrite app_nil_r.
  rewrite Hsplit in Hchain.
  destruct (concat_insert_middle _ _ _ _ _ Hchain) as (l1 & l2 & Hc & Hc').
  specialize (Hc' [e]). simpl in Hc, Hc'.
  set (tb2 := LRUHandleTable.mk _ _ _) in Hins.
  assert (Hentries2 : entries tb2 = l1 ++ e :: l2) by done.
  assert (Hperm2 : entries tb2 ≡ₚ e :: entries tb).
  { rewrite Hentries2. unfold entries. rewrite Hc.
    by rewrite Permutation_middle. }
  assert (Hall2 : ∀ p, p ∈ entries tb2 → is_Some (m !! p)).
  { intros p. rewrite Hperm2. intros [->|Hp]%elem_of_cons; [by eauto|].
    by eapply table_wf_lookup. }
  assert (Hnd2 : NoDup (entries tb2)).
  { rewrite Hperm2. by apply NoDup_cons. }
  assert (Huniq2 : ∀ p q hp hq, p ∈ entries tb2 → q ∈ entries tb2 →
            m !! p = Some hp → m !! q = Some hq →
            hash hp = hash hq → key_data hp = key_data hq → p = q).
  { intros p q hp hq. rewrite !Hperm2.
    intros [->|Hp]%elem_of_cons [->|Hq]%elem_of_cons Hhp Hhq Hh Hkey;
      [done| | |].
    * exfalso. rewrite He in Hhp. injection Hhp as <-.
      by apply (Hnomatch q hq).
    * exfalso. rewrite He in Hhq. injection Hhq as <-.
      by apply (Hnomatch p hp).
    * by apply (Huniq p q hp hq). }
  assert (Helems2 : LRUHandleTable.elems_ tb2
                    = Z.of_nat (length (entries tb2))).
  { rewrite Hperm2. simpl. lia. }
  assert (Hk30 : k ≤ 30).
  { destruct (decide (k ≤ 30)) as [|Hbig]; [done|].
    assert (k = 31) as -> by lia. lia. }
  assert (Hnl : LRUHandleTable.Resize_length 32 16
                  (LRUHandleTable.elems_ tb2) = Some (2 * 2 ^ k)).
  { replace (LRUHandleTable.elems_ tb2) with (2 ^ k + 1) by (simpl; lia).
    apply Resize_length_double. lia. }
  destruct (Resize_spec m tb2 _ Hall2 Hnd2 Huniq2 Helems2 Hnl)
    as (tb3 & Hresize & _ & _ & Hlen3 & Helems3).
  rewrite Hresize in Hins. simpl in Hins.
  eexists _, _. split; [exact Hins|]. intros _.
  rewrite Hlen3, Helems3, Hk. done.
Qed.

End table_insert_spec.

(** ** The store against the table and the list *)

Section frames.

Implicit Types (m : gmap positive LRUHandle) (tb : LRUHandleTable.t).
Implicit Types (P : LRUHandle → bool) (l : list positive) (p q e : positive).

Lemma tracks_insert P m l l' p h' :
  tracks P m l →
  (∀ q, q ∈ l' ↔ (q ≠ p ∧ q ∈ l) ∨ (q = p ∧ P h' = true)) →
  tracks P (<[p := h']> m) l'.
Proof.
  intros Htr Hl' q. rewrite Hl'. split.
  - intros [[Hne Hq]|[-> HP]].
    + apply Htr in Hq as (h & Hh & HPh). exists h.
      by rewrite lookup_insert_ne.
    + exists h'. by rewrite lookup_insert_eq.
  - intros (h & Hh & HPh). destruct (decide (q = p)) as [->|Hne].
    + rewrite lookup_insert_eq in Hh. injection Hh as ->. by right.
    + rewrite lookup_insert_ne in Hh by done. left. split; [done|].
      apply Htr. eauto.
Qed.

Lemma tracks_delete P m l l' p :
  tracks P m l → (∀ q, q ∈ l' ↔ q ≠ p ∧ q ∈ l) →
  tracks P (delete p m) l'.
Proof.
  intros Htr Hl' q. rewrite Hl'. split.
  - intros [Hne Hq]. apply Htr in Hq as (h & Hh & HPh). exists h.
    by rewrite lookup_delete_ne.
  - intros (h & Hh & HPh). destruct (decide (q = p)) as [->|Hne].
    + by rewrite lookup_delete_eq in Hh.
    + rewrite lookup_delete_ne in Hh by done. split; [done|].
      apply Htr. eauto.
Qed.

(** A record outside [P] can be forgotten, changed and put back. *)
Lemma tracks_forget P m l p h :
  tracks P m l → m !! p = Some h → P h = false → tracks P (delete p m) l.
Proof.
  intros Htr Hp HP. apply (tracks_delete P m l l p Htr).
  intros q. split; [|tauto]. intros Hq. split; [|done].
  intros ->. apply Htr in Hq as (h' & Hh' & HP'). congruence.
Qed.

Lemma tracks_restore P m l p h' :
  tracks P (delete p m) l → P h' = false → tracks P (<[p := h']> m) l.
Proof.
  intros Htr HP. rewrite <- insert_delete_eq.
  apply (tracks_insert P _ l l p h' Htr).
  intros q. split.
  - intros Hq. left. split; [|done]. intros ->.
    apply Htr in Hq as (h & Hh & _). by rewrite lookup_delete_eq in Hh.
  - intros [[_ ?]|[_ ?]]; [done|congruence].
Qed.

Lemma tracks_update P m l p h h' :
  tracks P m l → m !! p = Some h → P h' = P h →
  tracks P (<[p := h']> m) l.
Proof.
  intros Htr Hp HP. apply (tracks_insert P m l l p h' Htr).
  intros q. destruct (decide (q = p)) as [->|Hne].
  - rewrite HP. split.
    + intros Hq. right. split; [done|].
      apply Htr in Hq as (h0 & Hh0 & HP0). congruence.
    + intros [[? _]|[_ HPh]]; [done|]. apply Htr. eauto.
  - split; [by left|]. by intros [[_ ?]|[? _]].
Qed.

Lemma tracks_perm P m l l' : tracks P m l → l ≡ₚ l' → tracks P m l'.
Proof. intros Htr Hperm q. rewrite <- Hperm. apply Htr. Qed.

Lemma tracks_not_elem P m l p :
  tracks P m l → m !! p = None → p ∉ l.
Proof. intros Htr Hp Hin. apply Htr in Hin as (h & Hh & _). congruence. Qed.

Lemma heap_ok_insert m p h' :
  heap_ok m →
  0 ≤ refs h' < 2 ^ 32 → 0 ≤ charge h' < 2 ^ 64 →
  (in_cache h' = true → 1 ≤ refs h') →
  heap_ok (<[p := h']> m).
Proof.
  intros Hok ? ? ? q h. destruct (decide (q = p)) as [->|Hne].
  - rewrite lookup_insert_eq. intros [= <-]. done.
  - rewrite lookup_insert_ne by done. apply Hok.
Qed.

Lemma heap_ok_delete m p : heap_ok m → heap_ok (delete p m).
Proof.
  intros Hok q h Hq. apply lookup_delete_Some in Hq as [_ Hq]. by apply (Hok q).
Qed.

(** The table reads the hash and the key of its entries only. *)
Lemma table_wf_ext m m' tb :
  table_wf m tb →
  (∀ p h, p ∈ entries tb → m !! p = Some h →
     ∃ h', m' !! p = Some h' ∧ hash h' = hash h ∧ key_data h' = key_data h) →
  table_wf m' tb.
Proof.
  intros Hwf Hext.
  pose proof Hwf as (Hlen & Hpow & Helems & Hle & Hin & Hnd & Huniq).
  split_and!; try done.
  - intros b chain p Hb Hp.
    destruct (Hin b chain p Hb Hp) as (h & Hh & Hbucket).
    destruct (Hext p h) as (h' & Hh' & Hhash & _);
      [by eapply entries_chain|done|].
    exists h'. by rewrite Hhash.
  - intros p q hp hq Hp Hq Hhp Hhq Hh Hk.
    destruct (table_wf_lookup m tb p Hwf Hp) as [hp0 Hhp0].
    destruct (table_wf_lookup m tb q Hwf Hq) as [hq0 Hhq0].
    destruct (Hext p hp0 Hp Hhp0) as (hp' & Hhp' & Hph & Hpk).
    destruct (Hext q hq0 Hq Hhq0) as (hq' & Hhq' & Hqh & Hqk).
    apply (Huniq p q hp0 hq0); try done; congruence.
Qed.

Lemma table_wf_update m tb p h h' :
  table_wf m tb → m !! p = Some h →
  hash h' = hash h → key_data h' = key_data h →
  table_wf (<[p := h']> m) tb.
Proof.
  intros Hwf Hp Hh Hk. apply (table_wf_ext m _ tb Hwf).
  intros q hq Hq Hhq. destruct (decide (q = p)) as [->|Hne].
  - exists h'. rewrite lookup_insert_eq. split; [done|]. split; congruence.
  - exists hq. by rewrite lookup_insert_ne.
Qed.

Lemma table_wf_insert_other m tb p h' :
  table_wf m tb → p ∉ entries tb → table_wf (<[p := h']> m) tb.
Proof.
  intros Hwf Hp. apply (table_wf_ext m _ tb Hwf).
  intros q hq Hq Hhq. exists hq. rewrite lookup_insert_ne; [done|].
  by intros ->.
Qed.

Lemma table_wf_delete m tb p :
  table_wf m tb → p ∉ entries tb → table_wf (delete p m) tb.
Proof.
  intros Hwf Hp. apply (table_wf_ext m _ tb Hwf).
  intros q hq Hq Hhq. exists hq. rewrite lookup_delete_ne; [done|].
  by intros ->.
Qed.

(** Positions in a list without duplicates. *)
Lemma index_of_middle l1 l2 e :
  e ∉ l1 → index_of e (l1 ++ e :: l2) = Some (length l1).
Proof.
  induction l1 as [|x l1 IH]; intros Hnot; simpl.
  - by rewrite decide_True.
  - rewrite decide_False.
    + rewrite IH; [done|]. intros ?. apply Hnot. by right.
    + intros ->. apply Hnot. by left.
Qed.

Lemma index_of_None l e : e ∉ l → index_of e l = None.
Proof.
  induction l as [|x l IH]; intros Hnot; simpl; [done|].
  rewrite decide_False.
  - rewrite IH; [done|]. intros ?. apply Hnot. by right.
  - intros ->. apply Hnot. by left.
Qed.

Lemma NoDup_middle_not_elem {A} (l1 l2 : list A) x :
  NoDup (l1 ++ x :: l2) → (x ∉ l1) ∧ (x ∉ l2).
Proof.
  intros [_ Hx]%NoDup_remove_middle. rewrite elem_of_app in Hx. tauto.
Qed.

Lemma prev_of_middle l1 l2 e :
  prev_of (length l1) (l1 ++ e :: l2) = last l1.
Proof.
  induction l1 as [|x l1 _] using rev_ind; [done|].
  rewrite length_app. simpl. rewrite Nat.add_1_r. simpl.
  rewrite last_snoc. rewrite <- app_assoc. simpl.
  by rewrite list_lookup_middle.
Qed.

Lemma elem_of_remove_middle {A} (l1 l2 : list A) x :
  NoDup (l1 ++ x :: l2) → ∀ y, y ∈ l1 ++ l2 ↔ y ≠ x ∧ y ∈ l1 ++ x :: l2.
Proof.
  intros [_ Hx]%NoDup_remove_middle y. rewrite elem_of_middle.
  split; [|tauto]. intros Hy. split; [|tauto]. by intros ->.
Qed.

End frames.

(** ** The LRU list *)

Section flags.

Implicit Types (m : gmap positive LRUHandle) (P : LRUHandle → bool).

Lemma flag_eq_refl m : flag_eq m m.
Proof. by intros p. Qed.

Lemma flag_eq_trans m1 m2 m3 : flag_eq m1 m2 → flag_eq m2 m3 → flag_eq m1 m3.
Proof. intros H12 H23 p. by rewrite H23, H12. Qed.

Lemma flag_eq_update m p h b :
  m !! p = Some h → flag_eq m (<[p := SetInHighPriPool b h]> m).
Proof.
  intros Hp q. destruct (decide (q = p)) as [->|Hne].
  - by rewrite lookup_insert_eq, Hp.
  - by rewrite lookup_insert_ne.
Qed.

Lemma flag_eq_lookup m m' p h :
  flag_eq m m' → m !! p = Some h →
  ∃ h', m' !! p = Some h' ∧
        SetInHighPriPool false h' = SetInHighPriPool false h.
Proof.
  intros Heq Hp. specialize (Heq p). rewrite Hp in Heq.
  destruct (m' !! p) as [h'|]; [|done]. exists h'. split; [done|].
  simpl in Heq. by apply (inj Some) in Heq.
Qed.

Lemma flag_eq_sym m m' : flag_eq m m' → flag_eq m' m.
Proof. intros Heq p. by rewrite Heq. Qed.

Lemma flag_blind_eq P h h' :
  flag_blind P →
  SetInHighPriPool false h' = SetInHighPriPool false h → P h' = P h.
Proof. intros HP Heq. by rewrite <- (HP h'), Heq, HP. Qed.

Lemma flag_blind_in_cache : flag_blind in_cache.
Proof. done. Qed.
Lemma flag_blind_evictable : flag_blind evictable.
Proof. done. Qed.
Lemma flag_blind_live : flag_blind live.
Proof. done. Qed.
Lemma flag_blind_unreferenced : flag_blind unreferenced.
Proof. done. Qed.

Lemma flag_eq_tracks P m m' l :
  flag_blind P → flag_eq m m' → tracks P m l → tracks P m' l.
Proof.
  intros HP Heq Htr q. rewrite (Htr q). split.
  - intros (h & Hh & HPh).
    destruct (flag_eq_lookup m m' q h Heq Hh) as (h' & Hh' & Hsame).
    exists h'. split; [done|]. by rewrite (flag_blind_eq P h h').
  - intros (h' & Hh' & HPh).
    destruct (flag_eq_lookup m' m q h' (flag_eq_sym _ _ Heq) Hh')
      as (h & Hh & Hsame).
    exists h. split; [done|]. by rewrite (flag_blind_eq P h' h).
Qed.

Lemma flag_eq_sum P m m' :
  flag_blind P → flag_eq m m' → sum_charge P m' = sum_charge P m.
Proof.
  intros HP Heq. apply sum_charge_ext. intros p.
  specialize (Heq p).
  destruct (m !! p) as [h|], (m' !! p) as [h'|]; try done.
  simpl in *. apply (inj Some) in Heq. f_equal. unfold weight.
  rewrite (flag_blind_eq P h h' HP Heq).
  replace (charge h') with (charge (SetInHighPriPool false h')) by done.
  by rewrite Heq.
Qed.

Lemma flag_eq_heap_ok m m' : flag_eq m m' → heap_ok m → heap_ok m'.
Proof.
  intros Heq Hok p h' Hp.
  destruct (flag_eq_lookup m' m p h' (flag_eq_sym _ _ Heq) Hp)
    as (h & Hh & Hsame).
  destruct (Hok p h Hh) as (Hr & Hc & Hi).
  replace (refs h') with (refs (SetInHighPriPool false h')) by done.
  replace (charge h') with (charge (SetInHighPriPool false h')) by done.
  replace (in_cache h') with (in_cache (SetInHighPriPool false h')) by done.
  by rewrite <- Hsame.
Qed.

Lemma flag_eq_table_wf m m' tb :
  flag_eq m m' → table_wf m tb → table_wf m' tb.
Proof.
  intros Heq Hwf. apply (table_wf_ext m m' tb Hwf).
  intros p h _ Hh.
  destruct (flag_eq_lookup m m' p h Heq Hh) as (h' & Hh' & Hsame).
  exists h'. split; [done|].
  replace (hash h') with (hash (SetInHighPriPool false h')) by done.
  replace (key_data h') with (key_data (SetInHighPriPool false h')) by done.
  by rewrite Hsame.
Qed.

End flags.

Section lru_remove.

Implicit Types (m : gmap positive LRUHandle) (l : list positive).
Implicit Types (s : t) (e p q : positive).

Lemma tracks_delete_not_elem P m l e : tracks P (delete e m) l → e ∉ l.
Proof.
  intros Htr. apply (tracks_not_elem P (delete e m)); [done|].
  apply lookup_delete_eq.
Qed.

Lemma relinked_relinked m l c lu hu m' l' c' lu' hu' s :
  relinked m l c lu hu (relinked m' l' c' lu' hu' s) = relinked m l c lu hu s.
Proof. done. Qed.

(** The cursor is followed by the first record of the high-priority pool. *)
Lemma pool_after low high cursor :
  NoDup (low ++ high) → cursor = last low →
  after cursor (low ++ high) = Some (length low).
Proof.
  intros Hnd ->. induction low as [|c low _] using rev_ind; [done|].
  rewrite last_snoc. simpl. rewrite <- app_assoc. simpl.
  rewrite <- app_assoc in Hnd. simpl in Hnd.
  rewrite index_of_middle by (by apply NoDup_middle_not_elem in Hnd as [? ?]).
  simpl. rewrite length_app. simpl. f_equal. lia.
Qed.

Lemma last_not_elem {A} (l : list A) x : x ∉ l → last l ≠ Some x.
Proof. intros Hx Hl. by apply last_Some_elem_of in Hl. Qed.

Lemma pool_ok_remove m l1 l2 e cursor :
  NoDup (l1 ++ e :: l2) → pool_ok m (l1 ++ e :: l2) cursor →
  pool_ok (delete e m) (l1 ++ l2)
    (if decide (cursor = Some e) then last l1 else cursor).
Proof.
  intros Hnd (low & high & Hsplit & -> & Hlow & Hhigh).
  destruct (NoDup_middle_not_elem _ _ _ Hnd) as [He1 He2].
  assert (Hlow' : ∀ p h, p ∈ low → delete e m !! p = Some h →
            in_high_pri_pool h = false).
  { intros p h Hp [_ Hh]%lookup_delete_Some. by apply (Hlow p h). }
  assert (Hhigh' : ∀ p h, p ∈ high → delete e m !! p = Some h →
            in_high_pri_pool h = true).
  { intros p h Hp [_ Hh]%lookup_delete_Some. by apply (Hhigh p h). }
  symmetry in Hsplit.
  apply app_eq_inv in Hsplit as [(k & Hl & Hr)|(k & Hl & Hr)].
  - destruct k as [|x k]; simpl in Hr.
    + rewrite app_nil_r in Hl. subst low high.
      rewrite decide_False by by apply last_not_elem.
      exists l1, l2. split_and!; [done|done|done|].
      intros p h Hp. apply Hhigh'. by right.
    + injection Hr as <- ->. subst low.
      destruct k as [|y k _] using rev_ind.
      * rewrite last_snoc, decide_True by done. simpl.
        exists l1, high. split_and!; [done|done| |done].
        intros p h Hp. apply Hlow'. apply elem_of_app. by left.
      * assert (Hy : y ≠ e).
        { intros ->. apply He2. rewrite !elem_of_app, list_elem_of_singleton.
          tauto. }
        replace (l1 ++ e :: k ++ [y]) with ((l1 ++ e :: k) ++ [y])
          by (by rewrite <- app_assoc).
        rewrite last_snoc, decide_False by congruence.
        exists (l1 ++ k ++ [y]), high.
        split_and!; [by rewrite <- !app_assoc|by rewrite app_assoc, last_snoc| |done].
        intros p h Hp. apply Hlow'.
        rewrite elem_of_app in Hp. rewrite elem_of_app, elem_of_cons. tauto.
  - subst l1 high.
    rewrite decide_False.
    2:{ apply last_not_elem. intros ?. apply He1. apply elem_of_app. by left. }
    exists low, (k ++ l2). split_and!; [by rewrite <- app_assoc|done|done|].
    intros p h Hp. apply Hhigh'.
    rewrite elem_of_app in Hp. rewrite elem_of_app, elem_of_cons. tauto.
Qed.

Lemma lru_ok_remove m l1 l2 e :
  lru_ok m (l1 ++ e :: l2) → lru_ok (delete e m) (l1 ++ l2).
Proof.
  intros [Hnd Htr]. split; [by apply NoDup_remove_middle in Hnd as [? ?]|].
  apply (tracks_delete _ m (l1 ++ e :: l2)); [done|].
  by apply elem_of_remove_middle.
Qed.

Lemma weight_true P h : P h = true → weight P h = charge h.
Proof. unfold weight. by intros ->. Qed.

Lemma weight_false P h : P h = false → weight P h = 0.
Proof. unfold weight. by intros ->. Qed.

(** [LRU_Remove] unlinks a record of the list and takes it out of the
    counters of the list. It reads the charge and the pool flag of the
    record; [m0] is the store in which the list is in order, before the
    caller changed the reference count or the cache flag of the record. *)
Lemma LRU_Remove_spec s m0 e h h0 :
  lru_part m0 (lru_ s) (lru_low_pri_ s) (lru_usage_ s)
    (high_pri_pool_usage_ s) →
  m0 !! e = Some h0 → evictable h0 = true →
  heap s !! e = Some h →
  charge h = charge h0 → in_high_pri_pool h = in_high_pri_pool h0 →
  ∃ l1 l2 c lu hu,
    lru_ s = l1 ++ e :: l2 ∧
    LRU_Remove e s = Some (relinked (heap s) (l1 ++ l2) c lu hu s) ∧
    lru_part (delete e m0) (l1 ++ l2) c lu hu.
Proof.
  intros (Hok & Hpool & Hlu & Hhu) Hh0 Hev Hh Hcharge Hflag.
  assert (e ∈ lru_ s) as (l1 & l2 & Hsplit)%list_elem_of_split.
  { apply Hok. eauto. }
  exists l1, l2.
  rewrite Hsplit in Hok, Hpool.
  pose proof Hok as [Hnd _].
  destruct (NoDup_middle_not_elem _ _ _ Hnd) as [He1 He2].
  eexists _, _, _. split; [done|].
  split.
  { unfold LRU_Remove. rewrite Hh. simpl.
    rewrite Hsplit, index_of_middle by done. simpl.
    unfold LRUUsageSub. simpl.
    assert (Hheap : heap (if decide (lru_low_pri_ s = Some e)
                          then set_lru_low_pri
                                 (prev_of (length l1) (l1 ++ e :: l2)) s
                          else s) = heap s) by by case_decide.
    rewrite Hheap, Hh. simpl.
    unfold HighPriPoolUsageSub. simpl. rewrite Hheap, Hh. simpl.
    rewrite prev_of_middle.
    assert (Hlru : lru_ (if decide (lru_low_pri_ s = Some e)
                         then set_lru_low_pri (last l1) s else s) = lru_ s)
      by by case_decide.
    rewrite Hlru, Hsplit, delete_middle.
    unfold InHighPriPool.
    instantiate (3 := if decide (lru_low_pri_ s = Some e)
                      then last l1 else lru_low_pri_ s).
    instantiate (2 := wrap64 (lru_usage_ s - charge h)).
    instantiate (1 := if in_high_pri_pool h
                      then wrap64 (high_pri_pool_usage_ s - charge h)
                      else high_pri_pool_usage_ s).
    by destruct (in_high_pri_pool h); case_decide. }
  rewrite Hcharge, Hflag.
  split_and!.
  - by apply lru_ok_remove.
  - by apply pool_ok_remove.
  - rewrite (sum_charge_delete _ _ _ _ Hh0), weight_true by done.
    by rewrite Hlu, wrap64_sub_l.
  - rewrite (sum_charge_delete _ _ _ _ Hh0). unfold pooled at 2, weight.
    rewrite Hev, andb_true_r.
    destruct (in_high_pri_pool h0).
    + by rewrite Hhu, wrap64_sub_l.
    + by rewrite Z.sub_0_r.
Qed.

(** A record that the list does not hold can be forgotten, changed and put
    back. *)
Lemma pool_ok_other m m' l c :
  pool_ok m l c → (∀ p, p ∈ l → m' !! p = m !! p) → pool_ok m' l c.
Proof.
  intros (low & high & -> & Hc & Hlow & Hhigh) Hsame.
  exists low, high. split_and!; [done|done| |].
  - intros p h Hp Hh. apply (Hlow p h Hp). rewrite <- Hsame; [done|].
    apply elem_of_app. by left.
  - intros p h Hp Hh. apply (Hhigh p h Hp). rewrite <- Hsame; [done|].
    apply elem_of_app. by right.
Qed.

Lemma pooled_false h : evictable h = false → pooled h = false.
Proof. unfold pooled. intros ->. apply andb_false_r. Qed.

Lemma lru_part_forget m l c lu hu e h :
  lru_part m l c lu hu → m !! e = Some h → evictable h = false →
  lru_part (delete e m) l c lu hu.
Proof.
  intros ((Hnd & Htr) & Hpool & Hlu & Hhu) He Hev.
  assert (e ∉ l) as Hnot.
  { intros (h' & Hh' & Hev')%Htr. congruence. }
  split_and!.
  - split; [done|]. by eapply tracks_forget.
  - apply (pool_ok_other m); [done|].
    intros p Hp. apply lookup_delete_ne. by intros ->.
  - rewrite (sum_charge_delete _ _ _ _ He), weight_false by done.
    by rewrite Z.sub_0_r.
  - rewrite (sum_charge_delete _ _ _ _ He), weight_false
      by by apply pooled_false.
    by rewrite Z.sub_0_r.
Qed.

Lemma lru_part_restore m l c lu hu e h' :
  lru_part (delete e m) l c lu hu → evictable h' = false →
  lru_part (<[e := h']> m) l c lu hu.
Proof.
  intros ((Hnd & Htr) & Hpool & Hlu & Hhu) Hev.
  pose proof (tracks_delete_not_elem _ _ _ _ Htr) as Hnot.
  split_and!.
  - split; [done|]. by apply tracks_restore.
  - apply (pool_ok_other (delete e m)); [done|].
    intros p Hp. assert (p ≠ e) by (by intros ->).
    by rewrite lookup_insert_ne, lookup_delete_ne.
  - rewrite <- insert_delete_eq.
    rewrite sum_charge_alloc by apply lookup_delete_eq.
    rewrite weight_false by done. by rewrite Z.add_0_r.
  - rewrite <- insert_delete_eq.
    rewrite sum_charge_alloc by apply lookup_delete_eq.
    rewrite weight_false by by apply pooled_false.
    by rewrite Z.add_0_r.
Qed.

Lemma lru_part_fresh m l c lu hu e :
  lru_part m l c lu hu → m !! e = None → lru_part (delete e m) l c lu hu.
Proof. intros Hpart He. by rewrite delete_id. Qed.

End lru_remove.

Section lru_insert.

Implicit Types (m : gmap positive LRUHandle) (l : list positive).
Implicit Types (s : t) (e p q : positive).

Lemma MaintainPoolSize_loop_unfold fuel s :
  MaintainPoolSize_loop fuel s =
  if Qgtb (inject_Z (high_pri_pool_usage_ s)) (high_pri_pool_capacity_ s)
  then match fuel with
       | O => None
       | S fuel' =>
           n ← after (lru_low_pri_ s) (lru_ s);
           c ← lru_ s !! n;
           let s1 := set_lru_low_pri (Some c) s in
           s2 ← update (SetInHighPriPool false) c s1;
           s3 ← HighPriPoolUsageSub c s2;
           MaintainPoolSize_loop fuel' s3
       end
  else Some s.
Proof. by destruct fuel. Qed.

Lemma relinked_id s :
  relinked (heap s) (lru_ s) (lru_low_pri_ s) (lru_usage_ s)
    (high_pri_pool_usage_ s) s = s.
Proof. by destruct s. Qed.

(** A pool that is over its capacity is not empty. *)
Lemma over_capacity_positive u (cap : Q) :
  (0 <= cap)%Q → Qgtb (inject_Z u) cap = true → 0 < u.
Proof.
  intros Hcap Hgt. unfold Qgtb in Hgt. apply negb_true_iff in Hgt.
  destruct (decide (0 < u)) as [|Hle]; [done|]. exfalso.
  assert (Hq : (inject_Z u <= cap)%Q).
  { apply (Qle_trans _ 0); [|done]. change 0%Q with (inject_Z 0).
    rewrite <- Zle_Qle. lia. }
  apply Qle_bool_iff in Hq. congruence.
Qed.

Lemma MaintainPoolSize_loop_spec fuel : ∀ s low high,
  lru_ s = low ++ high → lru_low_pri_ s = last low →
  (length high ≤ fuel)%nat →
  lru_ok (heap s) (lru_ s) →
  (∀ p h, p ∈ low → heap s !! p = Some h → in_high_pri_pool h = false) →
  (∀ p h, p ∈ high → heap s !! p = Some h → in_high_pri_pool h = true) →
  high_pri_pool_usage_ s = wrap64 (sum_charge pooled (heap s)) →
  (0 <= high_pri_pool_capacity_ s)%Q →
  ∃ m' c hu,
    MaintainPoolSize_loop fuel s
      = Some (relinked m' (lru_ s) c (lru_usage_ s) hu s) ∧
    flag_eq (heap s) m' ∧
    lru_ok m' (lru_ s) ∧ pool_ok m' (lru_ s) c ∧
    hu = wrap64 (sum_charge pooled m') ∧
    Qgtb (inject_Z hu) (high_pri_pool_capacity_ s) = false.
Proof.
  assert (Hne : ∀ s low high,
    lru_ s = low ++ high →
    lru_ok (heap s) (lru_ s) →
    (∀ p h, p ∈ low → heap s !! p = Some h → in_high_pri_pool h = false) →
    high_pri_pool_usage_ s = wrap64 (sum_charge pooled (heap s)) →
    (0 <= high_pri_pool_capacity_ s)%Q →
    Qgtb (inject_Z (high_pri_pool_usage_ s)) (high_pri_pool_capacity_ s)
      = true →
    high ≠ []).
  { intros s low high Hsplit Hok Hlow Hhu Hcap Hover.
    pose proof (over_capacity_positive _ _ Hcap Hover) as Hpos.
    destruct (sum_charge_witness pooled (heap s)) as (p & h & Hp & HP).
    { intros Hz. rewrite Hhu, Hz in Hpos. by vm_compute in Hpos. }
    apply andb_true_iff in HP as [Hflag Hev].
    assert (p ∈ lru_ s) as Hin by (apply Hok; eauto).
    rewrite Hsplit in Hin. apply elem_of_app in Hin as [Hin|Hin].
    - specialize (Hlow p h Hin Hp). congruence.
    - intros ->. by apply elem_of_nil in Hin. }
  induction fuel as [|fuel IH];
    intros s low high Hsplit Hcur Hfuel Hok Hlow Hhigh Hhu Hcap;
    rewrite MaintainPoolSize_loop_unfold;
    destruct (Qgtb (inject_Z (high_pri_pool_usage_ s))
                (high_pri_pool_capacity_ s)) eqn:Hover.
  - specialize (Hne s low high Hsplit Hok Hlow Hhu Hcap Hover).
    destruct high; [done|simpl in Hfuel; lia].
  - exists (heap s), (lru_low_pri_ s), (high_pri_pool_usage_ s).
    rewrite relinked_id. split_and!; [done|apply flag_eq_refl|done| |done|done].
    by exists low, high.
  - specialize (Hne s low high Hsplit Hok Hlow Hhu Hcap Hover).
    destruct high as [|c high]; [done|]. clear Hne.
    pose proof Hok as [Hnd Htr]. rewrite Hsplit in Hnd.
    rewrite Hsplit, Hcur, pool_after by done. simpl.
    rewrite list_lookup_middle by done. simpl.
    assert (c ∈ lru_ s) as Hc.
    { rewrite Hsplit. apply elem_of_app. right. by left. }
    apply Htr in Hc as (hc & Hhc & Hev).
    pose proof (Hhigh c hc ltac:(by left) Hhc) as Hflag.
    destruct (NoDup_middle_not_elem _ _ _ Hnd) as [Hc1 Hc2].
    unfold update. simpl. rewrite Hhc. simpl.
    unfold HighPriPoolUsageSub. simpl. rewrite lookup_insert_eq. simpl.
    set (s3 := set_high_pri_pool_usage _ _).
    destruct (IH s3 (low ++ [c]) high) as (m' & c' & hu & Hrun & Heq & Hok' & Hpool' & Hhu' & Hdone).
    + simpl. by rewrite Hsplit, <- app_assoc.
    + simpl. by rewrite last_snoc.
    + simpl in Hfuel. lia.
    + simpl. split; [by rewrite Hsplit|].
      by apply (tracks_update evictable _ _ c hc).
    + simpl. intros p h [Hp|Hp%list_elem_of_singleton]%elem_of_app.
      * rewrite lookup_insert_ne by (by intros ->). by apply Hlow.
      * subst p. rewrite lookup_insert_eq. by intros [= <-].
    + simpl. intros p h Hp.
      rewrite lookup_insert_ne by (by intros ->). apply Hhigh. by right.
    + simpl. rewrite (sum_charge_update _ _ _ _ _ Hhc).
      rewrite weight_true by (unfold pooled; by rewrite Hflag, Hev).
      rewrite weight_false by done.
      by rewrite Hhu, wrap64_sub_l, Z.add_0_r.
    + done.
    + rewrite <- Hsplit. exists m', c', hu. split_and!; try done.
      eapply flag_eq_trans; [|exact Heq].
      by apply flag_eq_update.
  - exists (heap s), (lru_low_pri_ s), (high_pri_pool_usage_ s).
    rewrite relinked_id. split_and!; [done|apply flag_eq_refl|done| |done|done].
    by exists low, high.
Qed.

Lemma MaintainPoolSize_spec s :
  lru_ok (heap s) (lru_ s) →
  pool_ok (heap s) (lru_ s) (lru_low_pri_ s) →
  high_pri_pool_usage_ s = wrap64 (sum_charge pooled (heap s)) →
  (0 <= high_pri_pool_capacity_ s)%Q →
  ∃ m' c hu,
    MaintainPoolSize s = Some (relinked m' (lru_ s) c (lru_usage_ s) hu s) ∧
    flag_eq (heap s) m' ∧
    lru_ok m' (lru_ s) ∧ pool_ok m' (lru_ s) c ∧
    hu = wrap64 (sum_charge pooled m') ∧
    Qgtb (inject_Z hu) (high_pri_pool_capacity_ s) = false.
Proof.
  intros Hok (low & high & Hsplit & Hcur & Hlow & Hhigh) Hhu Hcap.
  apply (MaintainPoolSize_loop_spec _ s low high); try done.
  rewrite Hsplit, length_app. lia.
Qed.

End lru_insert.

Section lru_insert_spec.

Implicit Types (m : gmap positive LRUHandle) (l : list positive).
Implicit Types (s : t) (e p q : positive).

(** [LRU_Insert] links a record that only the cache references and counts
    it in the counters of the list. *)
Lemma LRU_Insert_spec s e h :
  heap s !! e = Some h → evictable h = true →
  lru_part (delete e (heap s)) (lru_ s) (lru_low_pri_ s) (lru_usage_ s)
    (high_pri_pool_usage_ s) →
  (0 <= high_pri_pool_capacity_ s)%Q →
  ∃ m' l' c' lu' hu',
    LRU_Insert e s = Some (relinked m' l' c' lu' hu' s) ∧
    flag_eq (heap s) m' ∧
    lru_part m' l' c' lu' hu'.
Proof.
  intros Hh Hev ((Hnd & Htr) & Hpool & Hlu & Hhu) Hcap.
  pose proof (tracks_delete_not_elem _ _ _ _ Htr) as He.
  assert (Hother : ∀ p hp, p ∈ lru_ s → ∀ h', <[e := h']> (heap s) !! p = Some hp →
            delete e (heap s) !! p = Some hp).
  { intros p hp Hp h' Hhp. assert (p ≠ e) by (by intros ->).
    rewrite lookup_insert_ne in Hhp by done. by rewrite lookup_delete_ne. }
  unfold LRU_Insert. rewrite Hh. simpl.
  rewrite bool_decide_eq_false_2 by done.
  destruct Hpool as (low & high & Hsplit & Hcur & Hlow & Hhigh).
  destruct (Qgtb (high_pri_pool_ratio_ s) 0 && (IsHighPri h || HasHit h)).
  - unfold update. simpl. rewrite Hh. simpl.
    unfold HighPriPoolUsageAdd. simpl. rewrite lookup_insert_eq. simpl.
    set (s3 := set_high_pri_pool_usage _ _).
    destruct (MaintainPoolSize_spec s3)
      as (m' & c & hu & Hrun & Heq & Hok' & Hpool' & Hhu' & _).
    + simpl. split.
      * apply NoDup_app. split_and!; [done| |apply NoDup_singleton].
        intros p Hp Hx%list_elem_of_singleton. by subst p.
      * rewrite <- insert_delete_eq.
        apply (tracks_insert _ _ (lru_ s)); [done|].
        intros q. rewrite elem_of_app, list_elem_of_singleton.
        split; [|tauto]. intros [Hq| ->]; [|tauto].
        left. split; [by intros ->|done].
    + simpl. exists low, (high ++ [e]).
      split_and!; [by rewrite Hsplit, app_assoc|done| |].
      * intros p hp Hp Hhp. apply (Hlow p hp Hp).
        apply (Hother p hp) in Hhp; [done|].
        rewrite Hsplit, elem_of_app. tauto.
      * intros p hp [Hp|Hx%list_elem_of_singleton]%elem_of_app Hhp.
        -- apply (Hhigh p hp Hp). apply (Hother p hp) in Hhp; [done|].
           rewrite Hsplit, elem_of_app. tauto.
        -- subst p. rewrite lookup_insert_eq in Hhp. by injection Hhp as <-.
    + simpl. rewrite <- insert_delete_eq.
      rewrite sum_charge_alloc by apply lookup_delete_eq.
      rewrite weight_true by exact Hev.
      by rewrite Hhu, wrap64_add_l.
    + done.
    + rewrite Hrun. simpl.
      destruct (flag_eq_lookup (heap s3) m' e (SetInHighPriPool true h) Heq)
        as (h' & Hh' & Hsame).
      { simpl. apply lookup_insert_eq. }
      unfold LRUUsageAdd. simpl. rewrite Hh'. simpl.
      assert (Hcharge : charge h' = charge h).
      { by apply (f_equal charge) in Hsame. }
      assert (Heq' : flag_eq (heap s) m').
      { eapply flag_eq_trans; [|exact Heq]. simpl. by apply flag_eq_update. }
      eexists m', _, c, _, hu. split; [done|].
      split; [done|]. split_and!; [done|done| |done].
      rewrite (flag_eq_sum evictable (heap s) m'); [|done|done].
      rewrite <- (insert_delete_id (heap s) e h) by done.
      rewrite sum_charge_alloc by apply lookup_delete_eq.
      rewrite weight_true by done.
      by rewrite Hcharge, Hlu, wrap64_add_l.
  - rewrite Hsplit, Hcur, pool_after by (try rewrite <- Hsplit; done). simpl.
    rewrite take_app_length, drop_app_length.
    unfold update. simpl. rewrite Hh. simpl.
    unfold LRUUsageAdd. simpl. rewrite lookup_insert_eq. simpl.
    eexists _, _, _, _, _. split; [done|].
    split; [by apply flag_eq_update|].
    rewrite Hsplit in Hnd, He. simpl.
    split_and!.
    + split; [by apply NoDup_insert_middle|].
      rewrite <- insert_delete_eq.
      apply (tracks_insert _ _ (lru_ s)); [done|].
      intros q. rewrite elem_of_middle, Hsplit.
      split; [|tauto]. intros [->|Hq]; [tauto|].
      left. split; [by intros ->|done].
    + exists (low ++ [e]), high.
      split_and!; [by rewrite <- app_assoc|by rewrite last_snoc| |].
      * intros p hp [Hp|Hx%list_elem_of_singleton]%elem_of_app Hhp.
        -- apply (Hlow p hp Hp). apply (Hother p hp) in Hhp; [done|].
           rewrite Hsplit, elem_of_app. tauto.
        -- subst p. rewrite lookup_insert_eq in Hhp. by injection Hhp as <-.
      * intros p hp Hp Hhp. apply (Hhigh p hp Hp).
        apply (Hother p hp) in Hhp; [done|].
        rewrite Hsplit, elem_of_app. tauto.
    + rewrite <- insert_delete_eq.
      rewrite sum_charge_alloc by apply lookup_delete_eq.
      rewrite weight_true by done.
      by rewrite Hlu, wrap64_add_l.
    + rewrite <- insert_delete_eq.
      rewrite sum_charge_alloc by apply lookup_delete_eq.
      rewrite weight_false by done.
      by rewrite Z.add_0_r.
Qed.

End lru_insert_spec.

(** ** The store *)

Section store.

Implicit Types (m : gmap positive LRUHandle) (l ents : list positive).
Implicit Types (s : t) (e p q : positive).

Lemma usage_update P m u p h h' :
  u = wrap64 (sum_charge P m) → m !! p = Some h →
  wrap64 (u + weight P h' - weight P h)
  = wrap64 (sum_charge P (<[p := h']> m)).
Proof.
  intros -> Hp. rewrite (sum_charge_update _ _ _ _ _ Hp).
  rewrite <- Z.add_sub_assoc, wrap64_add_l. f_equal. lia.
Qed.

Lemma store_inv_update m ents u e h h' ents' u' :
  store_inv m ents u → m !! e = Some h →
  0 ≤ refs h' < 2 ^ 32 → 0 ≤ charge h' < 2 ^ 64 →
  (in_cache h' = true → 1 ≤ refs h') →
  (∀ q, q ∈ ents' ↔ (q ≠ e ∧ q ∈ ents) ∨ (q = e ∧ in_cache h' = true)) →
  u' = wrap64 (u + weight live h' - weight live h) →
  store_inv (<[e := h']> m) ents' u'.
Proof.
  intros (Hok & Htr & Hu) He Hr Hc Hi Hents ->. split_and!.
  - by apply heap_ok_insert.
  - by apply (tracks_insert _ m ents).
  - by apply usage_update.
Qed.

Lemma store_inv_alloc m ents u e h' ents' u' :
  store_inv m ents u → m !! e = None →
  0 ≤ refs h' < 2 ^ 32 → 0 ≤ charge h' < 2 ^ 64 →
  (in_cache h' = true → 1 ≤ refs h') →
  (∀ q, q ∈ ents' ↔ (q ≠ e ∧ q ∈ ents) ∨ (q = e ∧ in_cache h' = true)) →
  u' = wrap64 (u + weight live h') →
  store_inv (<[e := h']> m) ents' u'.
Proof.
  intros (Hok & Htr & Hu) He Hr Hc Hi Hents ->. split_and!.
  - by apply heap_ok_insert.
  - by apply (tracks_insert _ m ents).
  - rewrite sum_charge_alloc by done. by rewrite Hu, wrap64_add_l.
Qed.

Lemma store_inv_delete m ents u e h ents' u' :
  store_inv m ents u → m !! e = Some h →
  (∀ q, q ∈ ents' ↔ q ≠ e ∧ q ∈ ents) →
  u' = wrap64 (u - weight live h) →
  store_inv (delete e m) ents' u'.
Proof.
  intros (Hok & Htr & Hu) He Hents ->. split_and!.
  - by apply heap_ok_delete.
  - by apply (tracks_delete _ m ents).
  - rewrite (sum_charge_delete _ _ _ _ He). by rewrite Hu, wrap64_sub_l.
Qed.

Lemma store_inv_flag_eq m m' ents u :
  store_inv m ents u → flag_eq m m' → store_inv m' ents u.
Proof.
  intros (Hok & Htr & Hu) Heq. split_and!.
  - by eapply flag_eq_heap_ok.
  - eapply flag_eq_tracks; [apply flag_blind_in_cache|done|done].
  - rewrite (flag_eq_sum live m m'); [done|apply flag_blind_live|done].
Qed.

(** Membership conditions of the lemmas above, for the usual cases. *)
Lemma ents_same ents e b :
  (e ∈ ents ↔ b = true) →
  ∀ q, q ∈ ents ↔ (q ≠ e ∧ q ∈ ents) ∨ (q = e ∧ b = true).
Proof.
  intros He q. destruct (decide (q = e)) as [->|Hne]; [|tauto].
  rewrite He. tauto.
Qed.

Lemma ents_removed l1 l2 e q :
  NoDup (l1 ++ e :: l2) →
  q ∈ l1 ++ l2 ↔ (q ≠ e ∧ q ∈ l1 ++ e :: l2) ∨ (q = e ∧ false = true).
Proof.
  intros Hnd. rewrite (elem_of_remove_middle l1 l2 e Hnd).
  split; [tauto|]. by intros [?|[_ ?]].
Qed.

Lemma store_inv_in_cache m ents u e h :
  store_inv m ents u → m !! e = Some h → (e ∈ ents ↔ in_cache h = true).
Proof.
  intros (_ & Htr & _) He. rewrite (Htr e). split.
  - intros (h' & Hh' & Hin). congruence.
  - eauto.
Qed.

Lemma store_inv_refs m ents u e h :
  store_inv m ents u → m !! e = Some h →
  0 ≤ refs h < 2 ^ 32 ∧ 0 ≤ charge h < 2 ^ 64 ∧
  (in_cache h = true → 1 ≤ refs h).
Proof. intros (Hok & _) He. by apply (Hok e). Qed.

End store.

(** ** Eviction and freeing *)

Section evict.

Implicit Types (m : gmap positive LRUHandle) (l ents : list positive).
Implicit Types (s : t) (e p q : positive).

Lemma evictable_inv h :
  evictable h = true → in_cache h = true ∧ refs h = 1.
Proof.
  unfold evictable. intros [? ?%Z.eqb_eq]%andb_true_iff. done.
Qed.

Lemma evictable_intro h : in_cache h = true → refs h = 1 → evictable h = true.
Proof. unfold evictable. intros -> ->. done. Qed.

Lemma shard_inv_intro m dc tb l c u lu hu cap strict ratio hcap :
  store_inv m (entries tb) u → table_wf m tb → lru_part m l c lu hu →
  (0 <= hcap)%Q → (0 <= ratio)%Q → 0 ≤ cap < 2 ^ 64 →
  shard_inv (mk m dc tb l c u lu hu cap strict ratio hcap).
Proof.
  intros H1 H2 H3 H4 H5 H6.
  exact (conj H1 (conj H2 (conj H3 (conj H4 (conj H5 H6))))).
Qed.

(** In a well-formed table that is in step with the store, the record that
    [Lookup] finds for the key of an entry is that entry. *)
Lemma table_Lookup_entry m tb e h :
  table_wf m tb → e ∈ entries tb → m !! e = Some h →
  LRUHandleTable.Lookup m (key_data h) (hash h) tb = Some (Some e).
Proof.
  intros Hwf He Hh.
  destruct (table_Lookup_spec m tb (key_data h) (hash h) Hwf)
    as (r & -> & Hr).
  f_equal. apply Hr. split; [done|]. by exists h.
Qed.

Lemma table_Remove_entry m tb e h :
  table_wf m tb → e ∈ entries tb → m !! e = Some h →
  ∃ tb' t1 t2,
    LRUHandleTable.Remove m (key_data h) (hash h) tb = Some (Some e, tb') ∧
    table_wf m tb' ∧
    entries tb = t1 ++ e :: t2 ∧ entries tb' = t1 ++ t2.
Proof.
  intros Hwf He Hh.
  destruct (table_Remove_spec m tb (key_data h) (hash h) Hwf)
    as (r & tb' & Hrem & Hlook & Hcase).
  rewrite (table_Lookup_entry m tb e h) in Hlook by done.
  injection Hlook as <-.
  destruct Hcase as (Hwf' & _ & _ & t1 & t2 & Ht & Ht').
  by exists tb', t1, t2.
Qed.

Lemma table_wf_weaken m m' tb : table_wf m tb → m ⊆ m' → table_wf m' tb.
Proof.
  intros Hwf Hsub. apply (table_wf_ext m m' tb Hwf).
  intros p h _ Hh. exists h. split; [|done]. by eapply lookup_weaken.
Qed.

Lemma table_wf_strengthen m m' tb :
  table_wf m' tb → m ⊆ m' → (∀ p, p ∈ entries tb → is_Some (m !! p)) →
  table_wf m tb.
Proof.
  intros Hwf Hsub Hall. apply (table_wf_ext m' m tb Hwf).
  intros p h' Hp Hh'. destruct (Hall p Hp) as [h Hh].
  exists h. split; [done|].
  rewrite (lookup_weaken _ _ _ _ Hh Hsub) in Hh'. by injection Hh' as ->.
Qed.

Lemma set_heap_id s : set_heap (heap s) s = s.
Proof. by destruct s. Qed.

(** One round of eviction: the record leaves the list and the table, and
    stays in the store, unreferenced, until it is freed. The store [mc] that
    the code runs on may hold records that the shard does not know yet. *)
Lemma evict_entry_spec s mc old h :
  shard_inv s → heap s ⊆ mc → heap s !! old = Some h → evictable h = true →
  ∃ tb' l1 l2 c lu hu t1 t2,
    lru_ s = l1 ++ old :: l2 ∧
    entries (table_ s) = t1 ++ old :: t2 ∧ entries tb' = t1 ++ t2 ∧
    evict_entry old (set_heap mc s)
    = Some (mk (<[old := retire h]> mc) (deleter_calls s) tb'
              (l1 ++ l2) c (wrap64 (usage_ s - charge h)) lu hu
              (capacity_ s) (strict_capacity_limit_ s)
              (high_pri_pool_ratio_ s) (high_pri_pool_capacity_ s)) ∧
    shard_inv (mk (<[old := retire h]> (heap s)) (deleter_calls s) tb'
              (l1 ++ l2) c (wrap64 (usage_ s - charge h)) lu hu
              (capacity_ s) (strict_capacity_limit_ s)
              (high_pri_pool_ratio_ s) (high_pri_pool_capacity_ s)).
Proof.
  intros (Hstore & Hwf & Hlru & Hcap & Hratio & Hcapr) Hsub Hh Hev.
  destruct (evictable_inv h Hev) as [Hin Hrefs].
  pose proof (lookup_weaken _ _ _ _ Hh Hsub) as Hhc.
  destruct (LRU_Remove_spec (set_heap mc s) (heap s) old h h
              Hlru Hh Hev Hhc eq_refl eq_refl)
    as (l1 & l2 & c & lu & hu & Hsplit & Hrun & Hpart).
  assert (old ∈ entries (table_ s)) as Hent
    by (by apply (store_inv_in_cache _ _ _ _ _ Hstore Hh)).
  destruct (table_Remove_entry mc _ old h
              (table_wf_weaken _ _ _ Hwf Hsub) Hent Hhc)
    as (tb' & t1 & t2 & Hrem & Hwf' & Ht & Ht').
  exists tb', l1, l2, c, lu, hu, t1, t2. split_and!; [done|done|done| |].
  - unfold evict_entry. rewrite Hrun. simpl. rewrite Hhc. simpl.
    rewrite Hrem. simpl.
    unfold update. simpl. rewrite Hhc. simpl.
    unfold Unref. simpl. rewrite lookup_insert_eq. simpl.
    unfold UsageSub. simpl. rewrite lookup_insert_eq. simpl.
    rewrite !insert_insert_eq, Hrefs. done.
  - destruct (store_inv_refs _ _ _ _ _ Hstore Hh) as (Hr & Hc & _).
    assert (Hnd : NoDup (t1 ++ old :: t2)) by (rewrite <- Ht; apply Hwf).
    apply shard_inv_intro; try done.
    + apply (store_inv_update _ _ _ old h _ _ _ Hstore Hh); try done.
      * intros q. rewrite Ht', Ht. by apply ents_removed.
      * rewrite (weight_true live h) by (unfold live; by rewrite Hrefs).
        rewrite (weight_false live (retire h)) by done.
        f_equal. lia.
    + apply (table_wf_update _ _ _ h); [|done..].
      apply (table_wf_strengthen _ mc); [done|done|].
      intros p Hp. apply (table_wf_lookup _ _ _ Hwf).
      rewrite Ht' in Hp. rewrite Ht. apply elem_of_middle. by right.
    + by apply lru_part_restore.
Qed.

End evict.

Section evict_loop.

Implicit Types (m mc : gmap positive LRUHandle) (l ents : list positive).
Implicit Types (s : t) (e p q : positive).

Lemma EvictFromLRU_loop_unfold fuel charge0 deleted s :
  EvictFromLRU_loop fuel charge0 deleted s =
  if (capacity_ s <? wrap64 (usage_ s + charge0)) && bool_decide (lru_ s ≠ [])
  then match fuel with
       | O => None
       | S fuel' =>
           old ← head (lru_ s);
           s' ← evict_entry old s;
           EvictFromLRU_loop fuel' charge0 (deleted ++ [old]) s'
       end
  else Some (deleted, s).
Proof. by destruct fuel. Qed.

Lemma charges_retire m old h l :
  m !! old = Some h → charges (<[old := retire h]> m) l = charges m l.
Proof.
  intros Hold. induction l as [|p l IH]; simpl; [done|].
  rewrite IH. f_equal. unfold charge_of.
  destruct (decide (p = old)) as [->|Hne].
  - by rewrite lookup_insert_eq, Hold.
  - by rewrite lookup_insert_ne.
Qed.

Lemma retired_nil m : retired [] m m.
Proof. intros p. rewrite decide_False; [done|]. apply not_elem_of_nil. Qed.

Lemma retired_step m m' old h l :
  m !! old = Some h → old ∉ l →
  retired l (<[old := retire h]> m) m' → retired (old :: l) m m'.
Proof.
  intros Hold Hnot Hret p. rewrite (Hret p).
  destruct (decide (p = old)) as [->|Hne].
  - rewrite decide_False by done. rewrite decide_True by by left.
    by rewrite lookup_insert_eq, Hold.
  - rewrite lookup_insert_ne by done.
    destruct (decide (p ∈ l)) as [Hin|Hin].
    + by rewrite decide_True by by right.
    + rewrite decide_False; [done|]. by intros [?|?]%elem_of_cons.
Qed.

Lemma elem_of_take_1 {A} (x : A) n (l : list A) : x ∈ take n l → x ∈ l.
Proof.
  intros Hx. rewrite <- (take_drop n l). apply elem_of_app. by left.
Qed.

Lemma shard_inv_usage s : shard_inv s → wrap64 (usage_ s) = usage_ s.
Proof. intros ((_ & _ & ->) & _). apply wrap64_idemp. Qed.

Lemma evicted_refl s : shard_inv s → evicted 0 s s.
Proof.
  intros Hinv. unfold evicted. rewrite take_0, drop_0. simpl.
  split_and!; try done.
  - intros q. split; [|tauto]. intros Hq. split; [done|]. apply not_elem_of_nil.
  - by rewrite Z.sub_0_r, shard_inv_usage.
Qed.

Lemma evicted_step s old rest h tb' c lu hu t1 t2 k s' :
  lru_ s = old :: rest → NoDup (lru_ s) → heap s !! old = Some h →
  entries (table_ s) = t1 ++ old :: t2 → NoDup (entries (table_ s)) →
  entries tb' = t1 ++ t2 →
  evicted k (mk (<[old := retire h]> (heap s)) (deleter_calls s) tb'
               rest c (wrap64 (usage_ s - charge h)) lu hu
               (capacity_ s) (strict_capacity_limit_ s)
               (high_pri_pool_ratio_ s) (high_pri_pool_capacity_ s)) s' →
  evicted (S k) s s'.
Proof.
  intros Hlru Hnd Hold Ht Hndt Ht'
    (Hl & Hret & Hents & Hu & Hdc & Hc & Hs & Hr & Hhc).
  simpl in *. rewrite Hlru in Hnd. apply NoDup_cons in Hnd as [Hnot Hnd].
  assert (Hnot' : old ∉ take k rest).
  { intros Hin. apply Hnot. by eapply elem_of_take_1. }
  unfold evicted. rewrite Hlru. simpl.
  split_and!; try done.
  - by apply (retired_step _ _ _ h).
  - intros q. rewrite Hents, Ht', Ht.
    rewrite Ht in Hndt. rewrite (elem_of_remove_middle _ _ _ Hndt q).
    rewrite not_elem_of_cons. tauto.
  - rewrite Hu, charges_retire by done.
    rewrite wrap64_sub_l. f_equal. unfold charge_of. rewrite Hold. simpl. lia.
Qed.

(** The loop of [EvictFromLRU] evicts the records at the head of the list,
    one by one, until the charge fits or the list is empty. *)
Lemma EvictFromLRU_loop_spec fuel : ∀ s mc charge0 deleted,
  shard_inv s → heap s ⊆ mc → (length (lru_ s) ≤ fuel)%nat →
  ∃ k s' mc',
    EvictFromLRU_loop fuel charge0 deleted (set_heap mc s)
    = Some (deleted ++ take k (lru_ s), set_heap mc' s') ∧
    shard_inv s' ∧ evicted k s s' ∧ heap s' ⊆ mc' ∧
    retired (take k (lru_ s)) mc mc' ∧
    (k ≤ length (lru_ s))%nat ∧
    (∀ j, (j < k)%nat →
       capacity_ s
       < wrap64 (usage_ s - charges (heap s) (take j (lru_ s)) + charge0)) ∧
    (k = length (lru_ s) ∨ wrap64 (usage_ s' + charge0) ≤ capacity_ s).
Proof.
  induction fuel as [|fuel IH]; intros s mc charge0 deleted Hinv Hsub Hfuel;
    rewrite EvictFromLRU_loop_unfold; simpl;
    destruct ((capacity_ s <? wrap64 (usage_ s + charge0))
              && bool_decide (lru_ s ≠ [])) eqn:Hcond.
  - apply andb_true_iff in Hcond as [_ Hne%bool_decide_eq_true].
    destruct (lru_ s); [done|simpl in Hfuel; lia].
  - exists 0%nat, s, mc. rewrite take_0, app_nil_r.
    split_and!; [done|done|by apply evicted_refl|done|apply retired_nil
                |lia|intros; lia|].
    apply andb_false_iff in Hcond as [Hc%Z.ltb_ge|Hc%bool_decide_eq_false].
    + by right.
    + left. apply dec_stable in Hc. by rewrite Hc.
  - apply andb_true_iff in Hcond as [Hc%Z.ltb_lt Hne%bool_decide_eq_true].
    destruct (lru_ s) as [|old rest] eqn:Hlru; [done|]. simpl.
    pose proof Hinv as (Hstore & Hwf & ((Hnd & Htr) & _) & _).
    assert (old ∈ lru_ s) as (h & Hh & Hev)%Htr by (rewrite Hlru; by left).
    destruct (evict_entry_spec s mc old h Hinv Hsub Hh Hev)
      as (tb' & l1 & l2 & c & lu & hu & t1 & t2
          & Hsplit & Ht & Ht' & Hrun & Hinv1).
    assert (l1 = [] ∧ l2 = rest) as [-> ->].
    { pose proof Hnd as Hnd2. rewrite Hsplit in Hnd2.
      rewrite Hlru in Hsplit.
      destruct (NoDup_middle_not_elem _ _ _ Hnd2) as [Hn1 _].
      destruct l1 as [|x l1]; simpl in Hsplit.
      - by injection Hsplit as <-.
      - injection Hsplit as <- _. exfalso. apply Hn1. by left. }
    simpl in Hrun, Hinv1. rewrite Hrun. simpl.
    set (s1 := mk (<[old := retire h]> (heap s)) _ _ _ _ _ _ _ _ _ _ _)
      in Hinv1.
    destruct (IH s1 (<[old := retire h]> mc) charge0 (deleted ++ [old]))
      as (k & s' & mc' & Hloop & Hinv' & Hev' & Hsub' & Hret' & Hk & Hmin & Hstop).
    + done.
    + simpl. by apply insert_mono.
    + simpl. try rewrite Hlru in Hfuel. simpl in Hfuel. lia.
    + exists (S k), s', mc'. simpl in *.
      assert (Hnot' : old ∉ take k rest).
      { intros Hin. rewrite Hlru in Hnd. apply NoDup_cons in Hnd as [Hn _].
        apply Hn. by eapply elem_of_take_1. }
      split_and!.
      * rewrite <- app_assoc in Hloop. exact Hloop.
      * done.
      * apply (evicted_step s old rest h tb' c lu hu t1 t2);
          first [done|by rewrite Hlru|apply Hwf].
      * done.
      * apply (retired_step _ _ _ h); [by eapply lookup_weaken|done|done].
      * lia.
      * intros [|j] Hj; simpl.
        -- by rewrite Z.sub_0_r.
        -- specialize (Hmin j ltac:(lia)).
           rewrite charges_retire in Hmin by done.
           unfold charge_of at 1. rewrite Hh. simpl.
           replace (wrap64 (usage_ s - charge h)
                    - charges (heap s) (take j rest) + charge0)
             with (wrap64 (usage_ s - charge h)
                   + (charge0 - charges (heap s) (take j rest)))
             in Hmin by lia.
           rewrite wrap64_add_l in Hmin.
           replace (usage_ s - (charge h + charges (heap s) (take j rest))
                    + charge0)
             with (usage_ s - charge h
                   + (charge0 - charges (heap s) (take j rest))) by lia.
           done.
      * destruct Hstop as [->|Hstop]; [by left|by right].
  - exists 0%nat, s, mc. rewrite take_0, app_nil_r.
    split_and!; [done|done|by apply evicted_refl|done|apply retired_nil
                |lia|intros; lia|].
    apply andb_false_iff in Hcond as [Hc%Z.ltb_ge|Hc%bool_decide_eq_false].
    + by right.
    + left. apply dec_stable in Hc. by rewrite Hc.
Qed.

End evict_loop.

Section free.

Implicit Types (m mc : gmap positive LRUHandle) (l d ents : list positive).
Implicit Types (s : t) (e p q : positive).

Lemma EvictFromLRU_spec s mc charge0 deleted :
  shard_inv s → heap s ⊆ mc →
  ∃ k s' mc',
    EvictFromLRU charge0 deleted (set_heap mc s)
    = Some (deleted ++ take k (lru_ s), set_heap mc' s') ∧
    shard_inv s' ∧ evicted k s s' ∧ heap s' ⊆ mc' ∧
    retired (take k (lru_ s)) mc mc' ∧
    (k ≤ length (lru_ s))%nat ∧
    (∀ j, (j < k)%nat →
       capacity_ s
       < wrap64 (usage_ s - charges (heap s) (take j (lru_ s)) + charge0)) ∧
    (k = length (lru_ s) ∨ wrap64 (usage_ s' + charge0) ≤ capacity_ s).
Proof.
  intros Hinv Hsub. unfold EvictFromLRU. simpl.
  by apply EvictFromLRU_loop_spec.
Qed.

Lemma delete_all_lookup d : ∀ m q,
  delete_all d m !! q = if decide (q ∈ d) then None else m !! q.
Proof.
  induction d as [|p d IH]; intros m q.
  - rewrite decide_False; [done|]. apply not_elem_of_nil.
  - unfold delete_all in *. simpl. rewrite IH.
    destruct (decide (q ∈ d)) as [Hin|Hin].
    + by rewrite decide_True by by right.
    + destruct (decide (q = p)) as [->|Hne].
      * rewrite decide_True by by left. apply lookup_delete_eq.
      * rewrite decide_False by (by intros [?|?]%elem_of_cons).
        by apply lookup_delete_ne.
Qed.

Lemma freed_log_cons m q d :
  freed_log m (q :: d)
  = match m !! q with
    | Some h => (q, h) :: freed_log m d
    | None => freed_log m d
    end.
Proof. unfold freed_log. simpl. by destruct (m !! q). Qed.

Lemma freed_log_delete m p d :
  p ∉ d → freed_log (delete p m) d = freed_log m d.
Proof.
  intros Hnot. induction d as [|q d IH]; [done|].
  apply not_elem_of_cons in Hnot as [Hne Hnot].
  rewrite !freed_log_cons, lookup_delete_ne by done. by rewrite IH.
Qed.

(** What [Free_all] computes when the records are allocated. *)
Lemma Free_all_eq d : ∀ s,
  NoDup d → (∀ p, p ∈ d → is_Some (heap s !! p)) →
  Free_all d s
  = Some (set_heap (delete_all d (heap s))
            (set_deleter_calls (deleter_calls s ++ freed_log (heap s) d) s)).
Proof.
  induction d as [|p d IH]; intros s Hnd Hall.
  - unfold freed_log, delete_all. simpl. rewrite app_nil_r. by destruct s.
  - apply NoDup_cons in Hnd as [Hnot Hnd].
    destruct (Hall p) as [h Hh]; [by left|].
    rewrite freed_log_cons, Hh.
    change (delete_all (p :: d) (heap s))
      with (delete_all d (delete p (heap s))).
    change (Free_all (p :: d) s) with (Free p s ≫= Free_all d).
    unfold Free. rewrite Hh. simpl. rewrite IH; [|done|].
    + simpl. rewrite freed_log_delete by done.
      by rewrite <- app_assoc.
    + intros q Hq. simpl. rewrite lookup_delete_ne by (by intros ->).
      apply Hall. by right.
Qed.

Lemma unreferenced_inv m ents u p h :
  store_inv m ents u → m !! p = Some h → refs h = 0 →
  in_cache h = false ∧ evictable h = false ∧ live h = false ∧ p ∉ ents.
Proof.
  intros Hstore Hp Hrefs.
  destruct (store_inv_refs _ _ _ _ _ Hstore Hp) as (_ & _ & Hin).
  assert (in_cache h = false) as Hnot.
  { destruct (in_cache h); [|done]. specialize (Hin eq_refl). lia. }
  split_and!; [done| | |].
  - unfold evictable. by rewrite Hnot.
  - unfold live. by rewrite Hrefs.
  - rewrite (store_inv_in_cache _ _ _ _ _ Hstore Hp). congruence.
Qed.

(** Freeing a record that nobody references keeps the invariant. *)
Lemma shard_inv_free s p h :
  shard_inv s → heap s !! p = Some h → refs h = 0 →
  shard_inv (set_heap (delete p (heap s)) s).
Proof.
  intros Hinv Hp Hrefs.
  pose proof (shard_inv_usage s Hinv) as Hu.
  destruct Hinv as (Hstore & Hwf & Hlru & Hcap & Hratio & Hcapr).
  destruct (unreferenced_inv _ _ _ _ _ Hstore Hp Hrefs)
    as (Hin & Hev & Hlive & Hnot).
  apply shard_inv_intro; try done.
  - apply (store_inv_delete _ _ _ p h _ _ Hstore Hp).
    + intros q. split; [|tauto]. intros Hq. split; [|done]. by intros ->.
    + by rewrite weight_false, Z.sub_0_r.
  - by apply table_wf_delete.
  - by apply (lru_part_forget _ _ _ _ _ _ h).
Qed.

Lemma pending_free d p m :
  pending (p :: d) m → pending d (delete p m).
Proof.
  intros [Hnd Htr]. apply NoDup_cons in Hnd as [Hnot Hnd].
  split; [done|]. apply (tracks_delete _ m (p :: d)); [done|].
  intros q. rewrite elem_of_cons. split; [|tauto].
  intros Hq. split; [by intros ->|by right].
Qed.

Lemma Free_all_inv d : ∀ s dc,
  shard_inv s → pending d (heap s) →
  Inv (set_heap (delete_all d (heap s)) (set_deleter_calls dc s)).
Proof.
  induction d as [|p d IH]; intros s dc Hinv Hpend.
  - split; [exact Hinv|exact Hpend].
  - assert (p ∈ p :: d) as (h & Hh & Hrefs%Z.eqb_eq)%Hpend by by left.
    apply (IH (set_heap (delete p (heap s)) s) dc).
    + by apply (shard_inv_free s p h).
    + by apply pending_free.
Qed.

(** After eviction the evicted records await [Free] with the others. *)
Lemma pending_retired d l m m' ents u :
  store_inv m ents u →
  pending d m → NoDup l → (∀ p, p ∈ l → ∃ h, m !! p = Some h ∧ evictable h = true) →
  retired l m m' → pending (d ++ l) m'.
Proof.
  intros Hstore [Hnd Htr] Hndl Hl Hret. split.
  - apply NoDup_app. split_and!; [done| |done].
    intros p (h & Hh & Hrefs%Z.eqb_eq)%Htr (h' & Hh' & Hev)%Hl.
    rewrite Hh in Hh'. injection Hh' as <-.
    apply evictable_inv in Hev as [_ ?]. lia.
  - intros p. rewrite elem_of_app, (Hret p). split.
    + intros [Hp|Hp].
      * rewrite decide_False.
        -- by apply Htr.
        -- intros (h' & Hh' & Hev)%Hl.
           apply Htr in Hp as (h & Hh & Hrefs%Z.eqb_eq).
           rewrite Hh in Hh'. injection Hh' as <-.
           apply evictable_inv in Hev as [_ ?]. lia.
      * rewrite decide_True by done.
        destruct (Hl p Hp) as (h & -> & _). simpl. by exists (retire h).
    + case_decide as Hin; [by right|].
      intros Hp. left. by apply Htr.
Qed.

End free.

(** ** The operations that evict and reconfigure *)

Section admin.

Implicit Types (m mc : gmap positive LRUHandle) (l d ents : list positive).
Implicit Types (s : t) (e p q : positive).

Lemma retired_unique l m m1 m2 : retired l m m1 → retired l m m2 → m1 = m2.
Proof. intros H1 H2. apply map_eq. intros p. by rewrite (H1 p), (H2 p). Qed.

(** [EvictFromLRU] on a state that satisfies the invariant. *)
Lemma EvictFromLRU_plain s charge0 deleted :
  shard_inv s →
  ∃ k s',
    EvictFromLRU charge0 deleted s = Some (deleted ++ take k (lru_ s), s') ∧
    shard_inv s' ∧ evicted k s s' ∧
    (k ≤ length (lru_ s))%nat ∧
    (∀ j, (j < k)%nat →
       capacity_ s
       < wrap64 (usage_ s - charges (heap s) (take j (lru_ s)) + charge0)) ∧
    (k = length (lru_ s) ∨ wrap64 (usage_ s' + charge0) ≤ capacity_ s).
Proof.
  intros Hinv.
  destruct (EvictFromLRU_spec s (heap s) charge0 deleted Hinv)
    as (k & s' & mc' & Hrun & Hinv' & Hev & Hsub & Hret & Hk & Hmin & Hstop);
    [done|].
  exists k, s'. rewrite set_heap_id in Hrun.
  assert (mc' = heap s') as ->.
  { apply (retired_unique _ _ _ _ Hret). apply Hev. }
  rewrite set_heap_id in Hrun. done.
Qed.

Lemma evicted_pending k s s' :
  shard_inv s → pending [] (heap s) → evicted k s s' →
  pending (take k (lru_ s)) (heap s').
Proof.
  intros (Hstore & _ & ((Hnd & Htr) & _) & _) Hpend (_ & Hret & _).
  apply (pending_retired [] _ (heap s) _ _ _ Hstore Hpend); [| |done].
  - apply (sublist_NoDup _ (lru_ s)); [done|apply sublist_take].
  - intros p Hp%elem_of_take_1. by apply Htr.
Qed.

Lemma pending_allocated d m p : pending d m → p ∈ d → is_Some (m !! p).
Proof. intros [_ Htr] (h & Hh & _)%Htr. eauto. Qed.

(** Evicting and then freeing what was evicted leads from invariant to
    invariant. *)
Lemma evict_free_inv k s s' :
  Inv s → shard_inv s' → evicted k s s' →
  ∃ s'', Free_all (take k (lru_ s)) s' = Some s'' ∧ Inv s'' ∧
    s'' = set_heap (delete_all (take k (lru_ s)) (heap s'))
            (set_deleter_calls
               (deleter_calls s ++ freed_log (heap s') (take k (lru_ s))) s').
Proof.
  intros [Hinv Hpend] Hinv' Hev.
  pose proof (evicted_pending k s s' Hinv Hpend Hev) as Hpend'.
  eexists. split; [|split; [|done]].
  - rewrite Free_all_eq; [|apply Hpend'|].
    + destruct Hev as (_ & _ & _ & _ & -> & _). done.
    + intros p. by apply pending_allocated.
  - by apply Free_all_inv.
Qed.

Lemma SetCapacity_spec s capacity :
  Inv s → 0 ≤ capacity < 2 ^ 64 →
  ∃ s', SetCapacity capacity s = Some s' ∧ Inv s' ∧ capacity_ s' = capacity.
Proof.
  intros [Hinv Hpend] Hcap.
  set (s2 := set_high_pri_pool_capacity
               (inject_Z capacity * high_pri_pool_ratio_ s)
               (set_capacity capacity s)).
  assert (Hinv2 : shard_inv s2).
  { destruct Hinv as (Hstore & Hwf & Hlru & Hhc & Hratio & Hcapr).
    apply shard_inv_intro; try done.
    apply Qmult_le_0_compat; [|done].
    change 0%Q with (inject_Z 0). rewrite <- Zle_Qle. lia. }
  destruct (EvictFromLRU_plain s2 0 [] Hinv2)
    as (k & s' & Hrun & Hinv' & Hev & _).
  destruct (evict_free_inv k s2 s' (conj Hinv2 Hpend) Hinv' Hev)
    as (s'' & Hfree & Hinv'' & Heq).
  exists s''.
  change (SetCapacity capacity s)
    with (r ← EvictFromLRU 0 [] s2; Free_all r.1 r.2).
  rewrite Hrun. simpl.
  split_and!; [done|done|].
  rewrite Heq. simpl. by destruct Hev as (_ & _ & _ & _ & _ & -> & _).
Qed.

Lemma tracks_empty (P : LRUHandle → bool) : tracks P ∅ [].
Proof.
  intros p. split; [by intros ?%elem_of_nil|].
  intros (h & Hh & _). by rewrite lookup_empty in Hh.
Qed.

Lemma init_spec capacity strict ratio :
  0 ≤ capacity < 2 ^ 64 → (0 <= ratio)%Q →
  ∃ s, init capacity strict ratio = Some s ∧ Inv s ∧ capacity_ s = capacity.
Proof.
  intros Hcap Hratio. unfold init.
  destruct table_init_spec as (tb & -> & Hwf & Hents). simpl.
  apply SetCapacity_spec; [|done]. split.
  - apply shard_inv_intro; try done.
    + rewrite Hents. split_and!.
      * intros p h Hp. by rewrite lookup_empty in Hp.
      * apply tracks_empty.
      * by rewrite sum_charge_empty.
    + split_and!.
      * split; [constructor|apply tracks_empty].
      * exists [], []. split_and!; try done; by intros p h ?%elem_of_nil.
      * by rewrite sum_charge_empty.
      * by rewrite sum_charge_empty.
  - split; [constructor|apply tracks_empty].
Qed.

Lemma SetStrictCapacityLimit_spec s b :
  Inv s → ∃ s', SetStrictCapacityLimit b s = Some s' ∧ Inv s'.
Proof. intros Hinv. eexists. split; [done|]. exact Hinv. Qed.

(** The parts of the invariant that do not concern the list carry over to a
    store that differs in pool flags. *)
Lemma shard_inv_relinked s m' l c lu hu :
  store_inv (heap s) (entries (table_ s)) (usage_ s) →
  table_wf (heap s) (table_ s) →
  (0 <= high_pri_pool_capacity_ s)%Q → (0 <= high_pri_pool_ratio_ s)%Q →
  0 ≤ capacity_ s < 2 ^ 64 →
  flag_eq (heap s) m' → lru_part m' l c lu hu →
  shard_inv (relinked m' l c lu hu s).
Proof.
  intros Hstore Hwf Hhc Hratio Hcap Heq Hpart.
  apply shard_inv_intro; try done.
  - by apply (store_inv_flag_eq (heap s)).
  - by apply (flag_eq_table_wf (heap s)).
Qed.

Lemma pending_flag_eq d m m' : pending d m → flag_eq m m' → pending d m'.
Proof.
  intros [Hnd Htr] Heq. split; [done|].
  eapply flag_eq_tracks; [apply flag_blind_unreferenced|done|done].
Qed.

Lemma SetHighPriorityPoolRatio_spec s r :
  Inv s → (0 <= r)%Q →
  ∃ s', SetHighPriorityPoolRatio r s = Some s' ∧ Inv s'.
Proof.
  intros [Hinv Hpend] Hr.
  destruct Hinv as (Hstore & Hwf & (Hok & Hpool & Hlu & Hhu) & Hhc & Hratio
                    & Hcapr).
  set (s2 := set_high_pri_pool_capacity
               (inject_Z (capacity_ s) * r) (set_high_pri_pool_ratio r s)).
  assert (Hhc2 : (0 <= high_pri_pool_capacity_ s2)%Q).
  { simpl. apply Qmult_le_0_compat; [|done].
    change 0%Q with (inject_Z 0). rewrite <- Zle_Qle. lia. }
  destruct (MaintainPoolSize_spec s2 Hok Hpool Hhu Hhc2)
    as (m' & c & hu & Hrun & Heq & Hok' & Hpool' & Hhu' & _).
  eexists. split; [exact Hrun|]. split.
  - apply shard_inv_relinked; try done.
    split_and!; [done|done| |done].
    simpl. rewrite Hlu.
    by rewrite (flag_eq_sum evictable (heap s) m' flag_blind_evictable).
  - by apply (pending_flag_eq _ (heap s)).
Qed.

Lemma EraseUnRefEntries_loop_unfold fuel deleted s :
  EraseUnRefEntries_loop fuel deleted s =
  if bool_decide (lru_ s ≠ [])
  then match fuel with
       | O => None
       | S fuel' =>
           old ← head (lru_ s);
           s' ← evict_entry old s;
           EraseUnRefEntries_loop fuel' (deleted ++ [old]) s'
       end
  else Some (deleted, s).
Proof. by destruct fuel. Qed.

Lemma EraseUnRefEntries_loop_spec fuel : ∀ s deleted,
  shard_inv s → (length (lru_ s) ≤ fuel)%nat →
  ∃ s', EraseUnRefEntries_loop fuel deleted s = Some (deleted ++ lru_ s, s') ∧
    shard_inv s' ∧ evicted (length (lru_ s)) s s'.
Proof.
  induction fuel as [|fuel IH]; intros s deleted Hinv Hfuel;
    rewrite EraseUnRefEntries_loop_unfold;
    destruct (lru_ s) as [|old rest] eqn:Hlru; simpl in Hfuel; try lia.
  - exists s. rewrite app_nil_r. split_and!; [done|done|].
    exact (evicted_refl s Hinv).
  - exists s. rewrite app_nil_r. split_and!; [done|done|].
    exact (evicted_refl s Hinv).
  - rewrite bool_decide_eq_true_2 by done. simpl.
    pose proof Hinv as (Hstore & Hwf & ((Hnd & Htr) & _) & _).
    assert (old ∈ lru_ s) as (h & Hh & Hev)%Htr by (rewrite Hlru; by left).
    destruct (evict_entry_spec s (heap s) old h Hinv ltac:(done) Hh Hev)
      as (tb' & l1 & l2 & c & lu & hu & t1 & t2
          & Hsplit & Ht & Ht' & Hrun & Hinv1).
    assert (l1 = [] ∧ l2 = rest) as [-> ->].
    { pose proof Hnd as Hnd2. rewrite Hsplit in Hnd2.
      rewrite Hlru in Hsplit.
      destruct (NoDup_middle_not_elem _ _ _ Hnd2) as [Hn1 _].
      destruct l1 as [|x l1]; simpl in Hsplit.
      - by injection Hsplit as <-.
      - injection Hsplit as <- _. exfalso. apply Hn1. by left. }
    rewrite set_heap_id in Hrun. simpl in Hrun, Hinv1. rewrite Hrun. simpl.
    set (s1 := mk (<[old := retire h]> (heap s)) _ _ _ _ _ _ _ _ _ _ _)
      in *.
    destruct (IH s1 (deleted ++ [old]) Hinv1) as (s' & Hloop & Hinv' & Hev').
    { simpl. lia. }
    exists s'. split_and!.
    + rewrite <- app_assoc in Hloop. exact Hloop.
    + done.
    + apply (evicted_step s old rest h tb' c lu hu t1 t2);
        first [done|by rewrite Hlru|apply Hwf].
Qed.

Lemma EraseUnRefEntries_spec s :
  Inv s → ∃ s', EraseUnRefEntries s = Some s' ∧ Inv s' ∧ lru_ s' = [].
Proof.
  intros [Hinv Hpend].
  destruct (EraseUnRefEntries_loop_spec (length (lru_ s)) s [] Hinv)
    as (s' & Hrun & Hinv' & Hev); [done|].
  destruct (evict_free_inv _ s s' (conj Hinv Hpend) Hinv' Hev)
    as (s'' & Hfree & Hinv'' & Heq).
  rewrite firstn_all in Hfree.
  exists s''. unfold EraseUnRefEntries. rewrite Hrun. simpl.
  split_and!; [done|done|].
  rewrite Heq. simpl. destruct Hev as (-> & _). apply drop_all.
Qed.

End admin.

(** ** Taking and erasing references *)

Section pin.

Implicit Types (m mc : gmap positive LRUHandle) (l d ents : list positive).
Implicit Types (s : t) (e p q : positive).

Lemma shard_inv_update s e h h' tb' l c lu hu u' dc :
  shard_inv s → heap s !! e = Some h →
  0 ≤ refs h' < 2 ^ 32 → charge h' = charge h →
  hash h' = hash h → key_data h' = key_data h →
  (in_cache h' = true → 1 ≤ refs h') →
  table_wf (heap s) tb' →
  (∀ q, q ∈ entries tb' ↔
        (q ≠ e ∧ q ∈ entries (table_ s)) ∨ (q = e ∧ in_cache h' = true)) →
  lru_part (<[e := h']> (heap s)) l c lu hu →
  wrap64 (usage_ s + weight live h' - weight live h) = u' →
  shard_inv (mk (<[e := h']> (heap s)) dc tb' l c u' lu hu (capacity_ s)
               (strict_capacity_limit_ s) (high_pri_pool_ratio_ s)
               (high_pri_pool_capacity_ s)).
Proof.
  intros (Hstore & Hwf & Hlru & Hhc & Hratio & Hcapr) He Hr Hc Hh Hk Hi
    Hwf' Hents Hpart Hu.
  destruct (store_inv_refs _ _ _ _ _ Hstore He) as (_ & Hcr & _).
  apply shard_inv_intro; try done.
  - apply (store_inv_update _ _ _ e h _ _ _ Hstore He); try done.
    by rewrite Hc.
  - by apply (table_wf_update _ _ _ h).
Qed.

Lemma shard_inv_delete s e h tb' l c lu hu u' dc :
  shard_inv s → heap s !! e = Some h →
  table_wf (heap s) tb' →
  (∀ q, q ∈ entries tb' ↔ q ≠ e ∧ q ∈ entries (table_ s)) →
  lru_part (delete e (heap s)) l c lu hu →
  wrap64 (usage_ s - weight live h) = u' →
  shard_inv (mk (delete e (heap s)) dc tb' l c u' lu hu (capacity_ s)
               (strict_capacity_limit_ s) (high_pri_pool_ratio_ s)
               (high_pri_pool_capacity_ s)).
Proof.
  intros (Hstore & Hwf & Hlru & Hhc & Hratio & Hcapr) He Hwf' Hents Hpart Hu.
  apply shard_inv_intro; try done.
  - by apply (store_inv_delete _ _ _ e h _ _ Hstore He).
  - apply table_wf_delete; [done|]. rewrite Hents. tauto.
Qed.

Lemma pending_nil_update m e h' :
  pending [] m → unreferenced h' = false → pending [] (<[e := h']> m).
Proof.
  intros [Hnd Htr] Hun. split; [done|].
  apply (tracks_insert _ m [] [] e h' Htr).
  intros q. split; [by intros ?%elem_of_nil|].
  intros [[_ ?%elem_of_nil]|[_ ?]]; [done|congruence].
Qed.

Lemma pending_nil_delete m e : pending [] m → pending [] (delete e m).
Proof.
  intros [Hnd Htr]. split; [done|].
  apply (tracks_delete _ m [] [] e Htr).
  intros q. split; [by intros ?%elem_of_nil|]. by intros [_ ?%elem_of_nil].
Qed.

Lemma Inv_refs s e h :
  Inv s → heap s !! e = Some h →
  1 ≤ refs h < 2 ^ 32 ∧ 0 ≤ charge h < 2 ^ 64.
Proof.
  intros [(Hstore & _) [_ Htr]] He.
  destruct (store_inv_refs _ _ _ _ _ Hstore He) as (Hr & Hc & _).
  split; [|done]. destruct (decide (refs h = 0)) as [Hz|Hnz]; [|lia].
  exfalso. assert (e ∈ []) as Hin; [|by apply elem_of_nil in Hin].
  apply Htr. exists h. split; [done|]. unfold unreferenced. by rewrite Hz.
Qed.

Lemma unreferenced_false h : 1 ≤ refs h → unreferenced h = false.
Proof. intros Hr. unfold unreferenced. apply Z.eqb_neq. lia. Qed.

Lemma live_true h : 1 ≤ refs h → live h = true.
Proof. intros Hr. unfold live. apply Z.leb_le. lia. Qed.

Lemma evictable_false_refs h : refs h ≠ 1 → evictable h = false.
Proof.
  intros Hr. unfold evictable. apply andb_false_iff. right.
  by apply Z.eqb_neq.
Qed.

Lemma evictable_false_cache h : in_cache h = false → evictable h = false.
Proof. intros Hi. unfold evictable. by rewrite Hi. Qed.

(** A record gets one more reference: [Lookup] and [Ref] after the list is
    settled. *)
Lemma Inv_pinned s e h h' l c lu hu :
  Inv s → heap s !! e = Some h →
  lru_part (delete e (heap s)) l c lu hu →
  2 ≤ refs h' < 2 ^ 32 → charge h' = charge h →
  hash h' = hash h → key_data h' = key_data h → in_cache h' = in_cache h →
  Inv (relinked (<[e := h']> (heap s)) l c lu hu s).
Proof.
  intros [Hinv Hpend] He Hpart Hr Hc Hh Hk Hi.
  destruct (Inv_refs s e h (conj Hinv Hpend) He) as [Hrefs _].
  split.
  - apply (shard_inv_update s e h); try done; try lia.
    + apply Hinv.
    + apply ents_same. rewrite Hi.
      destruct Hinv as (Hstore & _).
      by apply (store_inv_in_cache _ _ _ _ _ Hstore).
    + apply lru_part_restore; [done|]. apply evictable_false_refs. lia.
    + rewrite !weight_true by (apply live_true; lia).
      rewrite Hc, Z.add_simpl_r. by apply shard_inv_usage.
  - apply pending_nil_update; [done|]. apply unreferenced_false. lia.
Qed.

(** The list part of the invariant without a record that the list does not
    hold, or holds and gives up. *)
Lemma lru_part_without s e h :
  shard_inv s → heap s !! e = Some h → evictable h = false →
  lru_part (delete e (heap s)) (lru_ s) (lru_low_pri_ s) (lru_usage_ s)
    (high_pri_pool_usage_ s).
Proof.
  intros (_ & _ & Hlru & _) He Hev. by apply (lru_part_forget _ _ _ _ _ _ h).
Qed.

Lemma Lookup_spec s key hash0 :
  Inv s → (∀ p h, heap s !! p = Some h → refs h < 2 ^ 32 - 1) →
  ∃ r s', Lookup key hash0 s = Some (r, s') ∧ Inv s' ∧
    LRUHandleTable.Lookup (heap s) key hash0 (table_ s) = Some r ∧
    table_ s' = table_ s ∧ deleter_calls s' = deleter_calls s ∧
    usage_ s' = usage_ s.
Proof.
  intros Hinv Hmax. pose proof Hinv as [Hsinv Hpend].
  pose proof Hsinv as (Hstore & Hwf & Hlru & _).
  destruct (table_Lookup_spec (heap s) (table_ s) key hash0 Hwf)
    as (r & Hlook & Hr).
  unfold Lookup. rewrite Hlook. simpl.
  destruct r as [e|]; [|by exists None, s].
  destruct (proj1 (Hr e) eq_refl) as (Hent & h & Hh & _).
  rewrite Hh. simpl.
  destruct (Inv_refs s e h Hinv Hh) as [Hrefs Hcharge].
  specialize (Hmax e h Hh).
  assert (Hwrap : wrap32 (refs h + 1) = refs h + 1)
    by (apply wrap32_small; lia).
  destruct (refs h =? 1) eqn:Hone.
  - apply Z.eqb_eq in Hone.
    assert (Hev : evictable h = true).
    { apply evictable_intro; [|done].
      by apply (store_inv_in_cache _ _ _ _ _ Hstore Hh). }
    destruct (LRU_Remove_spec s (heap s) e h h Hlru Hh Hev Hh eq_refl eq_refl)
      as (l1 & l2 & c & lu & hu & Hsplit & Hrun & Hpart).
    rewrite Hrun. simpl. unfold update. simpl. rewrite Hh. simpl.
    eexists _, _. split; [done|]. split; [|done].
    apply (Inv_pinned s e h _ _ _ _ _ Hinv Hh Hpart); try done.
    simpl. lia.
  - apply Z.eqb_neq in Hone. simpl.
    unfold update. rewrite Hh. simpl.
    eexists _, _. split; [done|]. split; [|done].
    apply (Inv_pinned s e h _ _ _ _ _ Hinv Hh); try done.
    + apply (lru_part_without s e h); [done|done|].
      by apply evictable_false_refs.
    + simpl. lia.
Qed.

Lemma Ref_spec s e h :
  Inv s → heap s !! e = Some h → refs h < 2 ^ 32 - 1 →
  ∃ s', Ref e s = Some (true, s') ∧ Inv s'.
Proof.
  intros Hinv Hh Hmax. pose proof Hinv as [Hsinv Hpend].
  pose proof Hsinv as (Hstore & Hwf & Hlru & _).
  unfold Ref. rewrite Hh. simpl.
  destruct (Inv_refs s e h Hinv Hh) as [Hrefs Hcharge].
  assert (Hwrap : wrap32 (refs h + 1) = refs h + 1)
    by (apply wrap32_small; lia).
  destruct (InCache h && (refs h =? 1)) eqn:Hev.
  - destruct (LRU_Remove_spec s (heap s) e h h Hlru Hh Hev Hh eq_refl eq_refl)
      as (l1 & l2 & c & lu & hu & Hsplit & Hrun & Hpart).
    rewrite Hrun. simpl. unfold update. simpl. rewrite Hh. simpl.
    eexists. split; [done|].
    apply (Inv_pinned s e h _ _ _ _ _ Hinv Hh Hpart); try done.
    simpl. lia.
  - simpl. unfold update. rewrite Hh. simpl.
    eexists. split; [done|].
    apply (Inv_pinned s e h _ _ _ _ _ Hinv Hh); try done.
    + by apply (lru_part_without s e h).
    + simpl. lia.
Qed.

End pin.

(** ** Release and Erase *)

Section release.

Implicit Types (m mc : gmap positive LRUHandle) (l d ents : list positive).
Implicit Types (s : t) (e p q : positive).

Lemma wrap32_pred r : 1 ≤ r < 2 ^ 32 → wrap32 (r - 1) = r - 1.
Proof. intros. apply wrap32_small. lia. Qed.

(** The last reference to a record that left the cache earlier. *)
Lemma Release_last s e h force :
  Inv s → heap s !! e = Some h → refs h = 1 → in_cache h = false →
  Release (Some e) force s
  = Some (true,
          mk (delete e (heap s)) (deleter_calls s ++ [(e, set_refs 0 h)])
             (table_ s) (lru_ s) (lru_low_pri_ s)
             (wrap64 (usage_ s - charge h)) (lru_usage_ s)
             (high_pri_pool_usage_ s) (capacity_ s)
             (strict_capacity_limit_ s) (high_pri_pool_ratio_ s)
             (high_pri_pool_capacity_ s)) ∧
  Inv (mk (delete e (heap s)) (deleter_calls s ++ [(e, set_refs 0 h)])
             (table_ s) (lru_ s) (lru_low_pri_ s)
             (wrap64 (usage_ s - charge h)) (lru_usage_ s)
             (high_pri_pool_usage_ s) (capacity_ s)
             (strict_capacity_limit_ s) (high_pri_pool_ratio_ s)
             (high_pri_pool_capacity_ s)).
Proof.
  intros Hinv Hh Hrefs Hin. pose proof Hinv as [Hsinv Hpend]. split.
  - unfold Release, Unref. rewrite Hh. simpl. rewrite Hrefs. simpl.
    unfold UsageSub. simpl. rewrite lookup_insert_eq. simpl.
    rewrite lookup_insert_eq. simpl.
    unfold Free. simpl. rewrite lookup_insert_eq. simpl.
    by rewrite delete_insert_eq.
  - split; [|by apply pending_nil_delete].
    apply (shard_inv_delete s e h); try done.
    + apply Hsinv.
    + intros q. split; [|tauto]. intros Hq. split; [|done]. intros ->.
      destruct Hsinv as (Hstore & _).
      apply (store_inv_in_cache _ _ _ _ _ Hstore Hh) in Hq. congruence.
    + apply (lru_part_without s e h); [done|done|].
      by apply evictable_false_cache.
    + rewrite weight_true; [done|]. apply live_true. lia.
Qed.

(** The last handle to a record of the cache is released while the cache is
    over its capacity, or with [force_erase]: the record is erased. *)
Lemma Release_erase s e h force :
  Inv s → heap s !! e = Some h → refs h = 2 → in_cache h = true →
  (capacity_ s <? usage_ s) || force = true →
  ∃ tb' t1 t2,
    entries (table_ s) = t1 ++ e :: t2 ∧ entries tb' = t1 ++ t2 ∧
    Release (Some e) force s
    = Some (true,
            mk (delete e (heap s))
               (deleter_calls s ++ [(e, retire h)])
               tb' (lru_ s) (lru_low_pri_ s)
               (wrap64 (usage_ s - charge h)) (lru_usage_ s)
               (high_pri_pool_usage_ s) (capacity_ s)
               (strict_capacity_limit_ s) (high_pri_pool_ratio_ s)
               (high_pri_pool_capacity_ s)) ∧
    Inv (mk (delete e (heap s))
               (deleter_calls s ++ [(e, retire h)])
               tb' (lru_ s) (lru_low_pri_ s)
               (wrap64 (usage_ s - charge h)) (lru_usage_ s)
               (high_pri_pool_usage_ s) (capacity_ s)
               (strict_capacity_limit_ s) (high_pri_pool_ratio_ s)
               (high_pri_pool_capacity_ s)).
Proof.
  intros Hinv Hh Hrefs Hin Hcond. pose proof Hinv as [Hsinv Hpend].
  pose proof Hsinv as (Hstore & Hwf & Hlru & _).
  set (h1 := set_refs 1 h).
  assert (Hwf1 : table_wf (<[e := h1]> (heap s)) (table_ s))
    by (by apply (table_wf_update _ _ _ h)).
  assert (Hent : e ∈ entries (table_ s))
    by (by apply (store_inv_in_cache _ _ _ _ _ Hstore Hh)).
  destruct (table_Remove_entry _ _ e h1 Hwf1 Hent (lookup_insert_eq _ _ _))
    as (tb' & t1 & t2 & Hrem & Hwf' & Ht & Ht').
  exists tb', t1, t2. split; [done|]. split; [done|]. split.
  - unfold Release, Unref. rewrite Hh. simpl. rewrite Hrefs. simpl.
    rewrite lookup_insert_eq. simpl. unfold InCache. rewrite Hin. simpl.
    rewrite Hcond.
    change (key_data h) with (key_data h1).
    change (hash h) with (hash h1).
    change (wrap32 (2 - 1)) with 1. fold h1.
    rewrite Hrem. simpl.
    unfold update. simpl. rewrite lookup_insert_eq. simpl.
    rewrite lookup_insert_eq. simpl.
    unfold UsageSub. simpl. rewrite lookup_insert_eq. simpl.
    unfold Free. simpl. rewrite lookup_insert_eq. simpl.
    change (wrap32 (1 - 1)) with 0.
    by rewrite delete_insert_eq, !insert_insert_eq, delete_insert_eq.
  - split; [|by apply pending_nil_delete].
    assert (Hnd : NoDup (t1 ++ e :: t2)) by (rewrite <- Ht; apply Hwf).
    apply (shard_inv_delete s e h); try done.
    + pose proof (table_wf_update (<[e := h1]> (heap s)) tb' e h1 h Hwf'
                    (lookup_insert_eq _ _ _) eq_refl eq_refl) as Hwf''.
      by rewrite insert_insert_eq, insert_id in Hwf'' by done.
    + intros q. rewrite Ht', Ht. by apply elem_of_remove_middle.
    + apply (lru_part_without s e h); [done|done|].
      apply evictable_false_refs. lia.
    + rewrite weight_true; [done|]. apply live_true. lia.
Qed.

(** The last handle to a record of the cache is released and the cache is
    within its capacity: the record goes to the LRU list. *)
Lemma Release_relink s e h :
  Inv s → heap s !! e = Some h → refs h = 2 → in_cache h = true →
  (capacity_ s <? usage_ s) = false →
  ∃ m' l' c' lu' hu' h',
    Release (Some e) false s
    = Some (false,
            relinked m' l' c' lu' hu'
              (set_heap (<[e := set_refs 1 h]> (heap s)) s)) ∧
    Inv (relinked m' l' c' lu' hu'
           (set_heap (<[e := set_refs 1 h]> (heap s)) s)) ∧
    flag_eq (<[e := set_refs 1 h]> (heap s)) m' ∧
    e ∈ l' ∧ m' !! e = Some h' ∧ refs h' = 1 ∧ in_cache h' = true.
Proof.
  intros Hinv Hh Hrefs Hin Hcond. pose proof Hinv as [Hsinv Hpend].
  pose proof Hsinv as (Hstore & Hwf & Hlru & Hhc & Hratio & Hcapr).
  set (h1 := set_refs 1 h).
  set (s2 := set_heap (<[e := h1]> (heap s)) s).
  assert (Hev1 : evictable h1 = true) by (by apply evictable_intro).
  destruct (LRU_Insert_spec s2 e h1) as (m' & l' & c' & lu' & hu' & Hrun & Heq & Hpart).
  { apply lookup_insert_eq. }
  { done. }
  { simpl. rewrite delete_insert_eq. apply (lru_part_without s e h); [done..|].
    apply evictable_false_refs. lia. }
  { done. }
  destruct (flag_eq_lookup _ _ e h1 Heq (lookup_insert_eq _ _ _))
    as (h' & Hh' & Hsame).
  exists m', l', c', lu', hu', h'. split_and!.
  - unfold Release, Unref. rewrite Hh. simpl. rewrite Hrefs. simpl.
    change (wrap32 (2 - 1)) with 1. fold h1.
    rewrite lookup_insert_eq. simpl. unfold InCache. rewrite Hin. simpl.
    rewrite Hcond. simpl. fold s2. rewrite Hrun. done.
  - split.
    + apply shard_inv_relinked; try done.
      * simpl. apply (store_inv_update _ _ _ e h _ _ _ Hstore Hh); try done.
        -- destruct (store_inv_refs _ _ _ _ _ Hstore Hh) as (_ & ? & _).
           done.
        -- apply ents_same.
           by apply (store_inv_in_cache _ _ _ _ _ Hstore Hh).
        -- rewrite !weight_true by (apply live_true; simpl; lia).
           simpl. rewrite Z.add_simpl_r. symmetry. by apply shard_inv_usage.
      * simpl. by apply (table_wf_update _ _ _ h).
    + apply (pending_flag_eq _ (<[e := h1]> (heap s))); [|done].
      apply pending_nil_update; [done|]. by apply unreferenced_false.
  - done.
  - destruct Hpart as ((_ & Htr) & _). apply Htr. exists h'.
    split; [done|].
    by rewrite (flag_blind_eq evictable h1 h' flag_blind_evictable Hsame).
  - done.
  - apply (f_equal refs) in Hsame. simpl in Hsame. by rewrite Hsame.
  - apply (f_equal in_cache) in Hsame. simpl in Hsame. by rewrite Hsame.
Qed.

(** A handle is released and another one remains, or the record left the
    cache earlier. *)
Lemma Release_unpin s e h force :
  Inv s → heap s !! e = Some h → 2 ≤ refs h →
  (refs h = 2 → in_cache h = false) →
  Release (Some e) force s
  = Some (false, set_heap (<[e := set_refs (refs h - 1) h]> (heap s)) s) ∧
  Inv (set_heap (<[e := set_refs (refs h - 1) h]> (heap s)) s).
Proof.
  intros Hinv Hh Hrefs Hcase. pose proof Hinv as [Hsinv Hpend].
  destruct (Inv_refs s e h Hinv Hh) as [Hr Hc].
  set (h1 := set_refs (refs h - 1) h).
  assert (Hnot1 : ((refs h - 1 =? 1) && in_cache h) = false).
  { destruct (decide (refs h = 2)) as [H2|H2].
    - rewrite (Hcase H2). apply andb_false_r.
    - apply andb_false_iff. left. apply Z.eqb_neq. lia. }
  split.
  - unfold Release, Unref. rewrite Hh. simpl.
    rewrite wrap32_pred by lia. fold h1.
    rewrite bool_decide_eq_false_2 by lia. simpl.
    rewrite lookup_insert_eq. simpl. unfold InCache. simpl.
    by rewrite Hnot1.
  - split; [|apply pending_nil_update; [done|]; apply unreferenced_false;
             simpl; lia].
    apply (shard_inv_update s e h); try done.
    + simpl. lia.
    + simpl. lia.
    + apply Hsinv.
    + apply ents_same. destruct Hsinv as (Hstore & _).
      by apply (store_inv_in_cache _ _ _ _ _ Hstore Hh).
    + apply lru_part_restore.
      * apply (lru_part_without s e h); [done..|].
        apply evictable_false_refs. lia.
      * unfold evictable. simpl. rewrite andb_comm. exact Hnot1.
    + rewrite !weight_true by (apply live_true; simpl; lia).
      simpl. rewrite Z.add_simpl_r. by apply shard_inv_usage.
Qed.

(** [Release] of a handle that the caller owns keeps the invariant. *)
Lemma Release_spec s handle force :
  Inv s →
  match handle with
  | Some e => ∃ h, heap s !! e = Some h ∧ (in_cache h = true → 2 ≤ refs h)
  | None => True
  end →
  ∃ r s', Release handle force s = Some (r, s') ∧ Inv s'.
Proof.
  intros Hinv Hown. destruct handle as [e|]; [|by exists false, s].
  destruct Hown as (h & Hh & Hown).
  destruct (Inv_refs s e h Hinv Hh) as [Hr Hc].
  destruct (decide (refs h = 1)) as [H1|H1].
  { destruct (in_cache h) eqn:Hin; [specialize (Hown eq_refl); lia|].
    destruct (Release_last s e h force Hinv Hh H1 Hin) as [Hrun Hinv'].
    eauto. }
  destruct (decide (refs h = 2 ∧ in_cache h = true)) as [[H2 Hin]|Hne].
  - destruct ((capacity_ s <? usage_ s) || force) eqn:Hcond.
    + destruct (Release_erase s e h force Hinv Hh H2 Hin Hcond)
        as (tb' & t1 & t2 & _ & _ & Hrun & Hinv').
      eauto.
    + apply orb_false_iff in Hcond as [Hcond ->].
      destruct (Release_relink s e h Hinv Hh H2 Hin Hcond)
        as (m' & l' & c' & lu' & hu' & h' & Hrun & Hinv' & _).
      eauto.
  - destruct (Release_unpin s e h force Hinv Hh) as [Hrun Hinv'];
      [lia| |by eauto].
    intros H2. destruct (in_cache h); [|done]. exfalso. by apply Hne.
Qed.

Lemma set_table_id s : set_table (table_ s) s = s.
Proof. by destruct s. Qed.

Lemma Erase_spec s key hash0 :
  Inv s → ∃ s', Erase key hash0 s = Some s' ∧ Inv s'.
Proof.
  intros Hinv. pose proof Hinv as [Hsinv Hpend].
  pose proof Hsinv as (Hstore & Hwf & Hlru & Hhc & Hratio & Hcapr).
  destruct (table_Remove_spec (heap s) (table_ s) key hash0 Hwf)
    as (r & tb' & Hrem & Hlook & Hcase).
  unfold Erase. rewrite Hrem. simpl.
  destruct r as [e|]; [|subst tb'; rewrite set_table_id; by exists s].
  destruct Hcase as (Hwf' & _ & _ & t1 & t2 & Ht & Ht').
  assert (Hnd : NoDup (t1 ++ e :: t2)) by (rewrite <- Ht; apply Hwf).
  assert (Hent : e ∈ entries (table_ s)).
  { rewrite Ht. apply elem_of_middle. by left. }
  destruct (table_wf_lookup _ _ _ Hwf Hent) as [h Hh].
  pose proof (proj1 (store_inv_in_cache _ _ _ _ _ Hstore Hh) Hent) as Hin.
  destruct (Inv_refs s e h Hinv Hh) as [Hr Hc].
  unfold Unref. simpl. rewrite Hh. simpl.
  rewrite wrap32_pred by lia. rewrite lookup_insert_eq. simpl.
  unfold InCache. simpl. rewrite Hin, andb_true_r.
  destruct (decide (refs h = 1)) as [H1|H1].
  - rewrite H1. simpl.
    pose (h1 := set_refs 0 h).
    pose (s2 := set_heap (<[e := h1]> (heap s)) (set_table tb' s)).
    assert (Hev : evictable h = true) by (by apply evictable_intro).
    destruct (LRU_Remove_spec s2 (heap s) e h1 h Hlru Hh Hev
                (lookup_insert_eq _ _ _) eq_refl eq_refl)
      as (l1 & l2 & c & lu & hu & Hsplit & Hrun & Hpart).
    change (1 - 1) with 0. fold h1 s2. rewrite Hrun. simpl.
    unfold UsageSub. simpl. rewrite lookup_insert_eq. simpl.
    unfold update. simpl. rewrite lookup_insert_eq. simpl.
    unfold Free. simpl. rewrite lookup_insert_eq. simpl.
    rewrite insert_insert_eq, delete_insert_eq.
    eexists. split; [done|].
    split; [|by apply pending_nil_delete].
    apply (shard_inv_delete s e h tb' (l1 ++ l2) c lu hu); try done.
    + intros q. rewrite Ht', Ht. by apply elem_of_remove_middle.
    + rewrite weight_true; [done|]. apply live_true. lia.
  - rewrite bool_decide_eq_false_2 by lia. simpl.
    unfold update. simpl. rewrite lookup_insert_eq. simpl.
    rewrite insert_insert_eq.
    eexists. split; [done|].
    split; [|apply pending_nil_update; [done|]; apply unreferenced_false;
             simpl; lia].
    apply (shard_inv_update s e h _ tb'); try done.
    + simpl. lia.
    + intros q. rewrite Ht', Ht. by apply ents_removed.
    + apply lru_part_restore; [|done].
      apply (lru_part_without s e h); [done..|].
      by apply evictable_false_refs.
    + rewrite !weight_true by (apply live_true; simpl; lia).
      simpl. rewrite Z.add_simpl_r. by apply shard_inv_usage.
Qed.

End release.

(** ** Insert *)

Section insert.

Implicit Types (m mc : gmap positive LRUHandle) (l d ents : list positive).
Implicit Types (s : t) (e p q : positive).

Lemma retired_fresh l m m' e : retired l m m' → m !! e = None → m' !! e = None.
Proof. intros Hret He. rewrite (Hret e), He. by case_decide. Qed.

Lemma retired_alloc l m m' mc' e h0 :
  retired l m m' → retired l (<[e := h0]> m) mc' → e ∉ l →
  mc' = <[e := h0]> m'.
Proof.
  intros Hret Hretc He. apply map_eq. intros p.
  rewrite (Hretc p). destruct (decide (p = e)) as [->|Hne].
  - by rewrite decide_False, !lookup_insert_eq.
  - by rewrite !lookup_insert_ne, (Hret p).
Qed.

(** The eviction that [Insert] runs with its new record allocated. *)
Lemma Insert_evict s e h0 charge0 :
  Inv s → heap s !! e = None →
  ∃ k s1,
    EvictFromLRU charge0 [] (set_heap (<[e := h0]> (heap s)) s)
    = Some (take k (lru_ s), set_heap (<[e := h0]> (heap s1)) s1) ∧
    shard_inv s1 ∧ evicted k s s1 ∧ heap s1 !! e = None ∧
    pending (take k (lru_ s)) (heap s1) ∧ (e ∉ take k (lru_ s)) ∧
    (k = length (lru_ s) ∨ wrap64 (usage_ s1 + charge0) ≤ capacity_ s).
Proof.
  intros [Hinv Hpend] He.
  destruct (EvictFromLRU_spec s (<[e := h0]> (heap s)) charge0 [] Hinv)
    as (k & s1 & mc1 & Hrun & Hinv1 & Hev & Hsub & Hret & Hk & _ & Hstop).
  { by apply insert_subseteq. }
  assert (Hnot : e ∉ take k (lru_ s)).
  { intros Hin%elem_of_take_1.
    destruct Hinv as (_ & _ & ((_ & Htr) & _) & _).
    apply Htr in Hin as (h & Hh & _). congruence. }
  pose proof Hev as (_ & Hret1 & _).
  rewrite (retired_alloc _ _ _ _ _ _ Hret1 Hret Hnot) in Hrun.
  exists k, s1. split_and!; try done.
  - by apply (retired_fresh _ _ _ _ Hret1).
  - by apply (evicted_pending k s s1).
Qed.

Lemma freed_log_app m d1 d2 :
  freed_log m (d1 ++ d2) = freed_log m d1 ++ freed_log m d2.
Proof.
  induction d1 as [|p d1 IH]; [done|].
  change ((p :: d1) ++ d2) with (p :: (d1 ++ d2)).
  rewrite !freed_log_cons, IH. by destruct (m !! p).
Qed.

Lemma freed_log_alloc m e h0 d :
  e ∉ d → freed_log (<[e := h0]> m) d = freed_log m d.
Proof.
  intros Hnot. induction d as [|q d IH]; [done|].
  apply not_elem_of_cons in Hnot as [Hne Hnot].
  rewrite !freed_log_cons, lookup_insert_ne by done. by rewrite IH.
Qed.

Lemma delete_all_alloc d m e h0 :
  m !! e = None → delete_all (d ++ [e]) (<[e := h0]> m) = delete_all d m.
Proof.
  intros He. apply map_eq. intros p. rewrite !delete_all_lookup.
  destruct (decide (p = e)) as [->|Hne].
  - rewrite decide_True by (apply elem_of_app; right; by left).
    by case_decide.
  - rewrite lookup_insert_ne by done.
    destruct (decide (p ∈ d)) as [Hin|Hin].
    + by rewrite decide_True by (apply elem_of_app; by left).
    + rewrite decide_False; [done|].
      intros [?|?%list_elem_of_singleton]%elem_of_app; done.
Qed.

Lemma delete_all_alloc_other d m e h0 :
  e ∉ d → delete_all d (<[e := h0]> m) = <[e := h0]> (delete_all d m).
Proof.
  intros He. apply map_eq. intros p. rewrite delete_all_lookup.
  destruct (decide (p = e)) as [->|Hne].
  - by rewrite decide_False, !lookup_insert_eq.
  - by rewrite !lookup_insert_ne, delete_all_lookup.
Qed.

(** The two ways in which [Insert] turns a record down: after the
    eviction, the records that are pinned and the new one exceed the
    capacity, and the caller wants no handle or the limit is strict. *)
Lemma Insert_reject s e key hash0 value0 charge0 deleter0 handle priority :
  Inv s → heap s !! e = None →
  ∃ k s1,
    let h0 := new_handle key hash0 value0 charge0 deleter0 handle priority in
    EvictFromLRU charge0 [] (set_heap (<[e := h0]> (heap s)) s)
    = Some (take k (lru_ s), set_heap (<[e := h0]> (heap s1)) s1) ∧
    shard_inv s1 ∧ evicted k s s1 ∧ heap s1 !! e = None ∧
    (e ∉ take k (lru_ s)) ∧
    ((capacity_ s1 <? wrap64 (wrap64 (usage_ s1 - lru_usage_ s1) + charge0))
       && (strict_capacity_limit_ s1 || negb handle) = true →
     Insert e key hash0 value0 charge0 deleter0 handle priority s
     = Some (if handle then Incomplete else OK, None,
             set_heap (delete_all (take k (lru_ s)) (heap s1))
               (set_deleter_calls
                  (deleter_calls s ++ freed_log (heap s1) (take k (lru_ s))
                   ++ if handle then [] else [(e, h0)]) s1)) ∧
     Inv (set_heap (delete_all (take k (lru_ s)) (heap s1))
               (set_deleter_calls
                  (deleter_calls s ++ freed_log (heap s1) (take k (lru_ s))
                   ++ if handle then [] else [(e, h0)]) s1))).
Proof.
  intros Hinv He.
  set (h0 := new_handle key hash0 value0 charge0 deleter0 handle priority).
  destruct (Insert_evict s e h0 charge0 Hinv He)
    as (k & s1 & Hrun & Hinv1 & Hev & He1 & Hpend1 & Hnot & _).
  exists k, s1. simpl. split_and!; try done.
  intros Hcond. split; [|by apply Free_all_inv].
  pose proof Hev as (_ & _ & _ & _ & Hdc & _).
  unfold Insert. rewrite He. fold h0. simpl. rewrite Hrun. simpl.
  rewrite Hcond.
  destruct handle; simpl.
  - rewrite delete_insert_id by done.
    rewrite Free_all_eq; [|apply Hpend1|].
    + simpl. by rewrite Hdc, app_nil_r.
    + intros p. simpl. by apply pending_allocated.
  - rewrite Free_all_eq.
    + simpl. rewrite delete_all_alloc by done.
      rewrite freed_log_app, freed_log_alloc by done.
      rewrite freed_log_cons, lookup_insert_eq. simpl.
      by rewrite Hdc, app_assoc.
    + apply NoDup_app. split_and!; [apply Hpend1| |apply NoDup_singleton].
      intros p Hp Hx%list_elem_of_singleton. by subst p.
    + intros p [Hp|Hx%list_elem_of_singleton]%elem_of_app; simpl.
      * rewrite lookup_insert_ne by (by intros ->).
        by apply (pending_allocated _ _ _ Hpend1).
      * subst p. by rewrite lookup_insert_eq.
Qed.

Lemma pending_alloc d m e h0 :
  pending d m → m !! e = None → 1 ≤ refs h0 → pending d (<[e := h0]> m).
Proof.
  intros [Hnd Htr] He Hr. split; [done|].
  apply (tracks_insert _ m d d e h0 Htr).
  intros q. rewrite unreferenced_false by done.
  split; [|by intros [[_ ?]|[_ ?]]].
  intros Hq. left. split; [|done]. intros ->.
  by apply (tracks_not_elem _ _ _ _ Htr He).
Qed.

(** The end of an admitting [Insert]: the new record, allocated at [e] and
    linked in the table, goes to the list unless the caller takes a handle;
    then the records that lost their last reference are freed. *)
Lemma Insert_finish m ents (u : Z) e h0 d (handle : bool) tb' l c (lu hu : Z)
    dc (cap : Z) strict (ratio hcap : Q) :
  store_inv m ents u → m !! e = None →
  lru_part m l c lu hu → pending d m →
  table_wf (<[e := h0]> m) tb' →
  (∀ q, q ∈ entries tb' ↔ q = e ∨ q ∈ ents) →
  in_cache h0 = true → refs h0 = (if handle then 2 else 1) →
  0 ≤ charge h0 < 2 ^ 64 →
  (0 <= hcap)%Q → (0 <= ratio)%Q → 0 ≤ cap < 2 ^ 64 →
  ∃ s4 s5,
    ((if negb handle
      then s4 ← LRU_Insert e
                  (mk (<[e := h0]> m) dc tb' l c (wrap64 (u + charge h0))
                      lu hu cap strict ratio hcap);
           Some (None, s4)
      else Some (Some e,
                 mk (<[e := h0]> m) dc tb' l c (wrap64 (u + charge h0))
                    lu hu cap strict ratio hcap))
     : option (option positive * t))
    = Some (if handle then Some e else None, s4) ∧
    Free_all d s4 = Some s5 ∧ Inv s5.
Proof.
  intros Hstore He Hpart Hpend Hwf' Hents Hin Hrefs Hcharge Hhc Hratio Hcap.
  set (s3 := mk (<[e := h0]> m) dc tb' l c (wrap64 (u + charge h0))
                lu hu cap strict ratio hcap).
  assert (Hent : e ∉ ents).
  { destruct Hstore as (_ & Htr & _). by apply (tracks_not_elem _ _ _ _ Htr). }
  assert (Hstore3 : store_inv (<[e := h0]> m) (entries tb')
                      (wrap64 (u + charge h0))).
  { apply (store_inv_alloc _ _ _ e h0 _ _ Hstore He); try done.
    - destruct handle; lia.
    - intros _. destruct handle; lia.
    - intros q. rewrite Hents, Hin. split.
      + intros [->|Hq]; [by right|]. left. split; [by intros ->|done].
      + intros [[_ ?]|[? _]]; [by right|by left].
    - rewrite weight_true; [done|]. apply live_true. destruct handle; lia. }
  assert (Hpend3 : pending d (<[e := h0]> m)).
  { apply pending_alloc; [done|done|]. destruct handle; lia. }
  assert (Hfree : ∀ s4, shard_inv s4 → pending d (heap s4) →
            ∃ s5, Free_all d s4 = Some s5 ∧ Inv s5).
  { intros s4 Hinv4 Hpend4. eexists. split.
    - apply Free_all_eq; [apply Hpend4|].
      intros p. by apply pending_allocated.
    - by apply Free_all_inv. }
  destruct handle; simpl.
  - destruct (Hfree s3) as (s5 & Hrun5 & Hinv5); [|done|by exists s3, s5].
    apply shard_inv_intro; try done.
    apply lru_part_restore.
    + by rewrite delete_id.
    + apply evictable_false_refs. lia.
  - destruct (LRU_Insert_spec s3 e h0)
      as (m' & l' & c' & lu' & hu' & Hrun & Heq & Hpart').
    { apply lookup_insert_eq. }
    { by apply evictable_intro. }
    { simpl. by rewrite delete_insert_id. }
    { done. }
    fold s3. rewrite Hrun. simpl.
    destruct (Hfree (relinked m' l' c' lu' hu' s3)) as (s5 & Hrun5 & Hinv5).
    + by apply shard_inv_relinked.
    + by apply (pending_flag_eq _ (<[e := h0]> m)).
    + by eexists _, s5.
Qed.

Lemma wrap64_add_sub_swap u a b :
  wrap64 (wrap64 (u + a) - b) = wrap64 (wrap64 (u - b) + a).
Proof. rewrite wrap64_sub_l, wrap64_add_l. f_equal. lia. Qed.

Lemma Insert_finish_inv m ents (u : Z) e h0 d (handle : bool) tb' l c
    (lu hu : Z) dc (cap : Z) strict (ratio hcap : Q) st out s' :
  store_inv m ents u → m !! e = None →
  lru_part m l c lu hu → pending d m →
  table_wf (<[e := h0]> m) tb' →
  (∀ q, q ∈ entries tb' ↔ q = e ∨ q ∈ ents) →
  in_cache h0 = true → refs h0 = (if handle then 2 else 1) →
  0 ≤ charge h0 < 2 ^ 64 →
  (0 <= hcap)%Q → (0 <= ratio)%Q → 0 ≤ cap < 2 ^ 64 →
  (r4 ← ((if negb handle
          then s4 ← LRU_Insert e
                      (mk (<[e := h0]> m) dc tb' l c (wrap64 (u + charge h0))
                          lu hu cap strict ratio hcap);
               Some (None, s4)
          else Some (Some e,
                     mk (<[e := h0]> m) dc tb' l c (wrap64 (u + charge h0))
                        lu hu cap strict ratio hcap))
         : option (option positive * t));
   s5 ← Free_all d r4.2;
   Some (OK, r4.1, s5)) = Some (st, out, s') →
  Inv s'.
Proof.
  intros Hstore He Hpart Hpend Hwf' Hents Hin Hrefs Hcharge Hhc Hratio Hcap.
  destruct (Insert_finish m ents u e h0 d handle tb' l c lu hu dc cap strict
              ratio hcap) as (s4 & s5 & -> & Hfree & Hinv5); try done.
  simpl. rewrite Hfree. simpl. by intros [= <- <- <-].
Qed.

Lemma Insert_inv s e key hash0 value0 charge0 deleter0 handle priority
    st out s' :
  Inv s → heap s !! e = None → 0 ≤ charge0 < 2 ^ 64 →
  Insert e key hash0 value0 charge0 deleter0 handle priority s
  = Some (st, out, s') →
  Inv s'.
Proof.
  intros Hinv He Hc Hrun.
  destruct (Insert_reject s e key hash0 value0 charge0 deleter0 handle
              priority Hinv He)
    as (k & s1 & Hev_run & Hinv1 & Hev & He1 & Hnot & Hrej).
  simpl in Hev_run, Hrej.
  set (h0 := new_handle key hash0 value0 charge0 deleter0 handle priority)
    in *.
  destruct ((capacity_ s1
             <? wrap64 (wrap64 (usage_ s1 - lru_usage_ s1) + charge0))
            && (strict_capacity_limit_ s1 || negb handle)) eqn:Hcond.
  { destruct (Hrej eq_refl) as [Heq Hinv']. rewrite Heq in Hrun.
    by injection Hrun as <- <- <-. }
  clear Hrej.
  unfold Insert in Hrun. rewrite He in Hrun. fold h0 in Hrun.
  simpl in Hrun. rewrite Hev_run in Hrun. simpl in Hrun.
  rewrite Hcond in Hrun.
  pose proof Hinv1 as (Hstore1 & Hwf1 & Hlru1 & Hhc1 & Hratio1 & Hcap1).
  destruct Hinv as [Hsinv Hpend].
  pose proof (evicted_pending k s s1 Hsinv Hpend Hev) as Hpend1.
  set (d := take k (lru_ s)) in *.
  assert (Hfresh : e ∉ entries (table_ s1)).
  { destruct Hstore1 as (_ & Htr & _). by apply (tracks_not_elem _ _ _ _ Htr). }
  assert (Hwf_a : table_wf (<[e := h0]> (heap s1)) (table_ s1))
    by (by apply table_wf_insert_other).
  destruct (LRUHandleTable.Insert (<[e := h0]> (heap s1)) e (table_ s1))
    as [[r tb']|] eqn:Htab; [|done].
  destruct (table_Insert_wf _ _ e h0 r tb' Hwf_a (lookup_insert_eq _ _ _)
              Hfresh Htab) as (Hlook & Hwf' & Hents).
  simpl in Hrun. unfold UsageAdd in Hrun. simpl in Hrun.
  rewrite lookup_insert_eq in Hrun. simpl in Hrun.
  assert (Hh0in : in_cache h0 = true) by done.
  assert (Hh0refs : refs h0 = if handle then 2 else 1) by done.
  destruct r as [old|].
  - destruct Hents as (t1 & t2 & Ht & Ht').
    assert (Hold_in : old ∈ entries (table_ s1)).
    { rewrite Ht. apply elem_of_app. right. apply elem_of_cons. by left. }
    assert (Hne : old ≠ e) by (by intros ->).
    pose proof Hstore1 as (_ & Htr1 & _).
    destruct (proj1 (Htr1 old) Hold_in) as (ho & Hho & Hho_in).
    destruct (store_inv_refs _ _ _ _ _ Hstore1 Hho) as (Hr & Hch & Hpos).
    specialize (Hpos Hho_in).
    assert (Hnd_t : NoDup (t1 ++ old :: t2)).
    { rewrite <- Ht. by destruct Hwf1 as (_ & _ & _ & _ & _ & ? & _). }
    destruct (NoDup_middle_not_elem _ _ _ Hnd_t) as [Hn1 Hn2].
    assert (Hents_mid : ∀ q, q ∈ t1 ++ t2 ↔
              (q ≠ old ∧ q ∈ entries (table_ s1)) ∨
              (q = old ∧ in_cache (SetInCache false ho) = true)).
    { intros q. rewrite Ht, !elem_of_app, elem_of_cons. simpl. split.
      - intros [Hq|Hq]; left; (split; [by intros ->|]); tauto.
      - intros [[Hq [?|[?|?]]]|[_ ?]]; try done; tauto. }
    assert (Hents' : ∀ q, q ∈ entries tb' ↔ q = e ∨ q ∈ t1 ++ t2).
    { intros q. rewrite Ht', !elem_of_app, elem_of_cons. tauto. }
    unfold update in Hrun. simpl in Hrun.
    rewrite lookup_insert_ne, Hho in Hrun by done. simpl in Hrun.
    unfold Unref in Hrun. simpl in Hrun.
    rewrite lookup_insert_eq in Hrun. simpl in Hrun.
    rewrite insert_insert_eq in Hrun.
    rewrite wrap32_pred in Hrun by lia.
    rewrite (insert_insert_ne _ old e) in Hrun by done.
    destruct (decide (refs ho = 1)) as [Hone|Hmany].
    + rewrite Hone in Hrun. change (1 - 1) with 0 in Hrun.
      rewrite bool_decide_eq_true_2 in Hrun by done. simpl in Hrun.
      unfold UsageSub in Hrun. simpl in Hrun.
      rewrite lookup_insert_ne, lookup_insert_eq in Hrun by done.
      simpl in Hrun. fold (retire ho) in Hrun.
      match type of Hrun with
      | context [LRU_Remove old ?sc] =>
          destruct (LRU_Remove_spec sc (heap s1) old (retire ho) ho)
            as (l1 & l2 & c & lu & hu & Hsplit & Hrem & Hpart)
      end; simpl; try done.
      { by apply evictable_intro. }
      { by rewrite lookup_insert_ne, lookup_insert_eq. }
      rewrite Hrem in Hrun. simpl in Hrun.
      rewrite wrap64_add_sub_swap in Hrun.
      eapply (Insert_finish_inv (<[old := retire ho]> (heap s1)) (t1 ++ t2)
                (wrap64 (usage_ s1 - charge ho))
                e h0 (d ++ [old]) handle tb' (l1 ++ l2) c lu hu
                (deleter_calls s1) (capacity_ s1)
                (strict_capacity_limit_ s1) (high_pri_pool_ratio_ s1)
                (high_pri_pool_capacity_ s1) st out s'); try done.
      * apply (store_inv_update _ _ _ _ ho (retire ho) _ _ Hstore1 Hho);
          simpl; try done.
        unfold weight, live. simpl. rewrite Hone. simpl.
        f_equal. lia.
      * by rewrite lookup_insert_ne.
      * apply lru_part_restore; [done|]. by apply evictable_false_cache.
      * apply (pending_retired d [old] (heap s1) _ _ _ Hstore1 Hpend1).
        -- apply NoDup_singleton.
        -- intros p ->%list_elem_of_singleton. exists ho.
           split; [done|]. by apply evictable_intro.
        -- intros p. destruct (decide (p ∈ [old])) as [Hp|Hp].
           ++ apply list_elem_of_singleton in Hp as ->.
              by rewrite lookup_insert_eq, Hho.
           ++ rewrite lookup_insert_ne; [done|].
              intros <-. apply Hp. by apply list_elem_of_singleton.
      * rewrite (insert_insert_ne _ e old) by done.
        by apply (table_wf_update _ _ _ ho); [|rewrite lookup_insert_ne|..].
    + rewrite bool_decide_eq_false_2 in Hrun by lia. simpl in Hrun.
      set (h1 := set_refs (refs ho - 1) (SetInCache false ho)) in *.
      eapply (Insert_finish_inv (<[old := h1]> (heap s1)) (t1 ++ t2)
                (usage_ s1)
                e h0 d handle tb' (lru_ s1) (lru_low_pri_ s1) (lru_usage_ s1)
                (high_pri_pool_usage_ s1) (deleter_calls s1) (capacity_ s1)
                (strict_capacity_limit_ s1) (high_pri_pool_ratio_ s1)
                (high_pri_pool_capacity_ s1) st out s'); try done.
      * apply (store_inv_update _ _ _ _ ho h1 _ _ Hstore1 Hho);
          simpl; try done; try lia.
        unfold weight, live. simpl.
        replace (1 <=? refs ho - 1) with true by (symmetry; apply Z.leb_le; lia).
        replace (1 <=? refs ho) with true by (symmetry; apply Z.leb_le; lia).
        rewrite Z.add_simpl_r.
        destruct Hstore1 as (_ & _ & ->). by rewrite wrap64_idemp.
      * by rewrite lookup_insert_ne.
      * apply lru_part_restore; [|done].
        apply (lru_part_forget _ _ _ _ _ _ ho); [done..|].
        apply evictable_false_refs. lia.
      * destruct Hpend1 as [Hnd_d Htr_d]. split; [done|].
        apply (tracks_update _ _ _ _ ho); [done..|].
        unfold unreferenced. simpl.
        transitivity false; [|symmetry]; apply Z.eqb_neq; lia.
      * rewrite (insert_insert_ne _ e old) by done.
        by apply (table_wf_update _ _ _ ho); [|rewrite lookup_insert_ne|..].
  - eapply (Insert_finish_inv (heap s1) (entries (table_ s1)) (usage_ s1)
              e h0 d handle tb' (lru_ s1) (lru_low_pri_ s1) (lru_usage_ s1)
              (high_pri_pool_usage_ s1) (deleter_calls s1) (capacity_ s1)
              (strict_capacity_limit_ s1) (high_pri_pool_ratio_ s1)
              (high_pri_pool_capacity_ s1) st out s'); try done.
    intros q. rewrite Hents. apply elem_of_cons.
Qed.

End insert.

(** * Every reachable state satisfies the invariant *)

Section reach.

Lemma run_op_Inv o s s' : Inv s → allowed o s → run_op o s = Some s' → Inv s'.
Proof.
  intros Hinv Hall Hrun. destruct o; simpl in Hall, Hrun.
  - destruct Hall as (He & _ & Hc).
    destruct (Insert e key hash0 value0 charge0 deleter0 handle priority s)
      as [[[st out] s2]|] eqn:Hins; [|done].
    simpl in Hrun. injection Hrun as <-. by eapply Insert_inv.
  - destruct (Lookup_spec s key hash0 Hinv Hall) as (r & s2 & Heq & Hinv2 & _).
    rewrite Heq in Hrun. simpl in Hrun. by injection Hrun as <-.
  - destruct Hall as (h & Hh & Hmax).
    destruct (Ref_spec s handle h Hinv Hh Hmax) as (s2 & Heq & Hinv2).
    rewrite Heq in Hrun. simpl in Hrun. by injection Hrun as <-.
  - destruct (Release_spec s handle force_erase Hinv) as (r & s2 & Heq & Hinv2).
    { by destruct handle. }
    rewrite Heq in Hrun. simpl in Hrun. by injection Hrun as <-.
  - destruct (Erase_spec s key hash0 Hinv) as (s2 & Heq & Hinv2).
    rewrite Heq in Hrun. by injection Hrun as <-.
  - destruct (EraseUnRefEntries_spec s Hinv) as (s2 & Heq & Hinv2 & _).
    rewrite Heq in Hrun. by injection Hrun as <-.
  - destruct (SetCapacity_spec s capacity Hinv Hall) as (s2 & Heq & Hinv2 & _).
    rewrite Heq in Hrun. by injection Hrun as <-.
  - destruct (SetStrictCapacityLimit_spec s strict_capacity_limit Hinv)
      as (s2 & Heq & Hinv2).
    rewrite Heq in Hrun. by injection Hrun as <-.
  - destruct (SetHighPriorityPoolRatio_spec s high_pri_pool_ratio Hinv Hall)
      as (s2 & Heq & Hinv2).
    rewrite Heq in Hrun. by injection Hrun as <-.
Qed.

Lemma reachable_Inv s : reachable s → Inv s.
Proof.
  induction 1 as [capacity strict ratio s Hcap Hratio Hinit|o s s' _ IH Hall Hrun].
  - destruct (init_spec capacity strict ratio Hcap Hratio)
      as (s2 & Heq & Hinv & _).
    rewrite Heq in Hinit. by injection Hinit as <-.
  - by eapply run_op_Inv.
Qed.

End reach.

Section runs.

Lemma allowedb_sound o s : allowedb o s = true → allowed o s.
Proof.
  destruct o as [e key hash0 value0 charge0 deleter0 handle priority
                | | p |[e|] force | | | c | | r]; simpl; try done.
  - destruct (heap s !! e); [done|]. simpl.
    intros (((?%Z.leb_le & ?%Z.ltb_lt)%andb_true_iff
             & ?%Z.leb_le)%andb_true_iff & ?%Z.ltb_lt)%andb_true_iff.
    done.
  - intros Hall%bool_decide_eq_true p h Hh. by apply (Hall p h).
  - destruct (heap s !! p) as [h|]; [|done].
    intros ?%Z.ltb_lt. by exists h.
  - destruct (heap s !! e) as [h|]; [|done].
    intros Himp. exists h. split; [done|]. intros Hin.
    rewrite Hin in Himp. by apply Z.leb_le.
  - by intros [?%Z.leb_le ?%Z.ltb_lt]%andb_true_iff.
  - intros Hr. by apply Qle_bool_iff.
Qed.

Lemma run_reachable ops : ∀ s s', reachable s → run ops s = Some s' → reachable s'.
Proof.
  induction ops as [|o ops IH]; intros s s' Hs; simpl.
  - by intros [= <-].
  - destruct (allowedb o s) eqn:Hall; [|done].
    destruct (run_op o s) as [s1|] eqn:Hrun; [|done]. simpl.
    apply IH. apply (reachable_step o s s1 Hs); [|done].
    by apply allowedb_sound.
Qed.

Lemma boot_reachable capacity strict ratio ops s :
  boot capacity strict ratio ops = Some s → reachable s.
Proof.
  unfold boot.
  destruct ((0 <=? capacity) && (capacity <? 2 ^ 64) && Qle_bool 0 ratio)
    eqn:Hok; [|done].
  apply andb_true_iff in Hok as [[?%Z.leb_le ?%Z.ltb_lt]%andb_true_iff Hr].
  apply Qle_bool_iff in Hr.
  destruct (init capacity strict ratio) as [s0|] eqn:Hinit; [|done]. simpl.
  apply run_reachable. by apply (reachable_init capacity strict ratio).
Qed.



Lemma crowded_reachable : reachable crowded_state.
Proof.
  apply (boot_reachable 50 true 0
           [OpInsert 1 "a" 1 0 40 0 true LOW; OpInsert 2 "c" 3 0 10 0 false LOW]).
  by vm_compute.
Qed.

Lemma pooled_reachable : reachable pooled_state.
Proof. apply (boot_reachable 100 false (1 # 2) pooled_ops). by vm_compute. Qed.

Lemma shrunk_reachable : reachable shrunk_state.
Proof.
  apply (boot_reachable 100 false (1 # 2) (pooled_ops ++ [OpSetCapacity 60])).
  by vm_compute.
Qed.

End runs.

(** * The claims *)

Section accounting.

Lemma sum_charge_split P Q R (m : gmap positive LRUHandle) :
  (∀ p h, m !! p = Some h → weight R h = weight P h + weight Q h) →
  sum_charge R m = sum_charge P m + sum_charge Q m.
Proof.
  induction m as [|p h m Hp IH] using map_ind; intros Hw.
  - by rewrite !sum_charge_empty.
  - rewrite !sum_charge_alloc by done.
    rewrite (Hw p h) by apply lookup_insert_eq.
    assert (Hrest : ∀ q hq, m !! q = Some hq →
              weight R hq = weight P hq + weight Q hq).
    { intros q hq Hq. apply (Hw q). rewrite lookup_insert_ne; [done|].
      intros ->. congruence. }
    rewrite (IH Hrest). lia.
Qed.




End accounting.

Section null_handle.

(** C8: [Release] of a null handle returns false and changes nothing: the
    state, with its table, list, counters and log of deleter calls, is the
    one before the call. *)
Theorem Release_null force s : Release None force s = Some (false, s).
Proof. done. Qed.

End null_handle.

Section pool.

(** C6 fails in the code: [SetCapacity] computes the new capacity of the
    high-priority pool and does not call [MaintainPoolSize]. After two
    high-priority entries of charge 25 in a shard of capacity 100 and ratio
    1/2, [SetCapacity(60)] leaves both in the pool: 50 against a bound of
    30. *)
Theorem SetCapacity_pool_overflow :
  reachable pooled_state ∧
  SetCapacity 60 pooled_state = Some shrunk_state ∧
  reachable shrunk_state ∧
  (high_pri_pool_ratio_ shrunk_state == 1 # 2)%Q ∧
  Qfloor (inject_Z (capacity_ shrunk_state) * high_pri_pool_ratio_ shrunk_state)
  = 30 ∧
  sum_charge in_high_pri_pool (heap shrunk_state) = 50 ∧
  high_pri_pool_usage_ shrunk_state = 50 ∧
  lru_ shrunk_state = [1%positive; 2%positive] ∧
  lru_low_pri_ shrunk_state = None.
Proof.
  split_and!; try (by vm_compute).
  - apply pooled_reachable.
  - apply shrunk_reachable.
Qed.

(** [LRU_Remove] takes the charge of a pooled record off
    [high_pri_pool_usage_] and leaves its flag set: a record that a [Lookup]
    pins keeps [in_high_pri_pool] while it is off the list, so the charge of
    the flagged records can exceed the bound that the counter keeps. *)
Lemma pinned_entry_keeps_pool_flag :
  reachable pinned_pool_state ∧
  Qfloor (inject_Z (capacity_ pinned_pool_state)
          * high_pri_pool_ratio_ pinned_pool_state) = 50 ∧
  sum_charge in_high_pri_pool (heap pinned_pool_state) = 100 ∧
  high_pri_pool_usage_ pinned_pool_state = 50 ∧
  lru_ pinned_pool_state = [2%positive].
Proof.
  split_and!; try (by vm_compute).
  apply (boot_reachable 100 false (1 # 2)
           [OpInsert 1 "k1" 1 0 50 0 false HIGH; OpLookup "k1" 1;
            OpInsert 2 "k2" 2 0 50 0 false HIGH]).
  by vm_compute.
Qed.

End pool.

Section release.



End release.

Section eviction.



End eviction.

Section rejection.




Lemma Inv_unlinked s e :
  Inv s → heap s !! e = None → (e ∉ entries (table_ s)) ∧ (e ∉ lru_ s).
Proof.
  intros [((_ & Htr & _) & _ & ((_ & Hl) & _) & _) _] He. split.
  - by apply (tracks_not_elem _ _ _ _ Htr).
  - by apply (tracks_not_elem _ _ _ _ Hl).
Qed.








(** C10: [Insert] evicts before it decides. In a shard of capacity 50 with a
    pinned entry of charge 40 and an unpinned one of charge 10, an [Insert]
    of charge 30 is turned down, with a handle (Incomplete) and without (OK,
    dropped), and yet the unpinned entry is evicted and freed: the table, the
    list and [usage_] are not those before the call. *)
Theorem Insert_reject_evicts :
  reachable crowded_state ∧
  ∃ s' s'',
    Insert 3 "b" 17 0 30 0 true LOW crowded_state
    = Some (Incomplete, None, s') ∧
    Insert 3 "b" 17 0 30 0 false LOW crowded_state = Some (OK, None, s'') ∧
    entries (table_ crowded_state) = [1%positive; 2%positive] ∧
    entries (table_ s') = [1%positive] ∧
    entries (table_ s'') = [1%positive] ∧
    lru_ crowded_state = [2%positive] ∧ lru_ s' = [] ∧ lru_ s'' = [] ∧
    usage_ crowded_state = 50 ∧ usage_ s' = 40 ∧ usage_ s'' = 40 ∧
    is_Some (heap crowded_state !! 2%positive) ∧
    heap s' !! 2%positive = None ∧ heap s'' !! 2%positive = None ∧
    deleter_calls crowded_state = [] ∧
    (deleter_calls s').*1 = [2%positive] ∧
    (deleter_calls s'').*1 = [2%positive; 3%positive].
Proof.
  split; [apply crowded_reachable|].
  exists (default blank
            ((λ r, r.2) <$> Insert 3 "b" 17 0 30 0 true LOW crowded_state)),
         (default blank
            ((λ r, r.2) <$> Insert 3 "b" 17 0 30 0 false LOW crowded_state)).
  split_and!; try (by vm_compute).
  by eexists; vm_compute.
Qed.

End rejection.

Section table.

Lemma third_table_wf : table_wf third_store (table_ crowded_state).
Proof.
  pose proof (reachable_Inv _ crowded_reachable) as Hinv.
  apply table_wf_insert_other; [apply Hinv|].
  apply (Inv_unlinked _ _ Hinv). by vm_compute.
Qed.

Lemma third_fresh : 3%positive ∉ entries (table_ crowded_state).
Proof.
  apply (Inv_unlinked _ _ (reachable_Inv _ crowded_reachable)).
  by vm_compute.
Qed.

(** C7, as the code has it. [Insert] of a record that is not linked yet, in
    a table of less than 2^31 buckets. If the table holds a record with the
    hash and key of [e], [e] takes its place in the chain and the old record
    is returned. Otherwise null is returned, [elems_] grows by one, and [e]
    is linked where the walk of [FindPointer] ended, which is the end of the
    chain of its bucket, behind the records that were there; if [elems_]
    now exceeds [length_] the table is rebuilt with twice the length and the
    same records. *)
Theorem table_Insert_tail m tb e h :
  table_wf m tb → m !! e = Some h → e ∉ entries tb →
  LRUHandleTable.length_ tb < 2 ^ 31 →
  ∃ chain r tb',
    let b := LRUHandleTable.bucket (hash h) (LRUHandleTable.length_ tb) in
    LRUHandleTable.list_ tb !! b = Some chain ∧
    LRUHandleTable.Insert m e tb = Some (r, tb') ∧
    table_wf m tb' ∧
    match r with
    | Some old =>
        (∃ ho, m !! old = Some ho ∧ matches (key_data h) (hash h) ho) ∧
        ∃ n, chain !! n = Some old ∧
          tb' = LRUHandleTable.mk
                  (<[b := <[n := e]> chain]> (LRUHandleTable.list_ tb))
                  (LRUHandleTable.length_ tb) (LRUHandleTable.elems_ tb)
    | None =>
        (∀ p hp, p ∈ entries tb → m !! p = Some hp →
           ¬ matches (key_data h) (hash h) hp) ∧
        LRUHandleTable.elems_ tb' = LRUHandleTable.elems_ tb + 1 ∧
        if LRUHandleTable.length_ tb <? LRUHandleTable.elems_ tb + 1
        then LRUHandleTable.length_ tb' = 2 * LRUHandleTable.length_ tb ∧
             entries tb' ≡ₚ e :: entries tb
        else tb' = LRUHandleTable.mk
                     (<[b := chain ++ [e]]> (LRUHandleTable.list_ tb))
                     (LRUHandleTable.length_ tb)
                     (LRUHandleTable.elems_ tb + 1)
    end.
Proof.
  intros Hwf He Hfresh Hsmall.
  destruct (table_Insert_total m tb e h Hwf He Hfresh Hsmall)
    as (r & tb' & Hins & Hgrow).
  destruct (table_Insert_wf m tb e h r tb' Hwf He Hfresh Hins)
    as (Hlook & Hwf' & Hents).
  destruct (table_Insert_spec m tb e h Hwf He)
    as (chain & n & Hchain & Hn & Hlook2 & Hins2).
  destruct (table_Lookup_spec m tb (key_data h) (hash h) Hwf)
    as (r0 & Hlook0 & Hmatch).
  rewrite Hlook in Hlook2, Hlook0.
  injection Hlook2 as Hr. injection Hlook0 as <-.
  rewrite Hins, <- Hr in Hins2.
  exists chain, r, tb'. cbv zeta in *. split_and!; try done.
  destruct r as [old|].
  - split.
    + destruct (proj1 (Hmatch old) eq_refl) as [_ Hm]. exact Hm.
    + exists n. split; [done|]. by injection Hins2 as ->.
  - destruct (Hgrow eq_refl) as [Helems Hlen]. split_and!; [|done|].
    + intros p hp Hp Hhp Hm.
      assert (None = Some p) as [=]. apply Hmatch. split; [done|].
      by exists hp.
    + destruct (LRUHandleTable.length_ tb <? LRUHandleTable.elems_ tb + 1).
      * done.
      * by injection Hins2 as ->.
Qed.

Lemma table_Insert_tail_witness :
  ∃ tb', LRUHandleTable.Insert third_store 3 (table_ crowded_state)
         = Some (None, tb') ∧
         tb' = LRUHandleTable.mk
                 (<[1%nat := [1%positive] ++ [3%positive]]>
                    (LRUHandleTable.list_ (table_ crowded_state)))
                 16 3.
Proof.
  destruct (table_Insert_tail third_store (table_ crowded_state) 3
              (third_record true))
    as (chain & r & tb' & Hchain & Hins & _ & Hcase).
  - exact third_table_wf.
  - vm_compute. reflexivity.
  - exact third_fresh.
  - vm_compute. reflexivity.
  - cbv zeta in Hchain, Hcase.
    assert (Hc : chain = [1%positive]).
    { vm_compute in Hchain. by injection Hchain as <-. }
    assert (Hr : r = None).
    { vm_compute in Hins. by injection Hins as <- _. }
    subst chain r. destruct Hcase as (_ & _ & Htb).
    exists tb'. split; [exact Hins|].
    rewrite Htb. vm_compute. reflexivity.
Defined.

(** C7, as the spec has it, fails: a record whose key is not in the table is
    linked at the end of its chain, not at the head. Bucket 1 holds the
    record at address 1; the record at address 3, with another key and a
    hash of the same bucket, is linked behind it. *)
Lemma table_Insert_not_at_head :
  table_wf third_store (table_ crowded_state) ∧
  third_store !! 3%positive = Some (third_record true) ∧
  LRUHandleTable.bucket 17 16 = 1%nat ∧
  LRUHandleTable.list_ (table_ crowded_state) !! 1%nat = Some [1%positive] ∧
  ∃ tb', LRUHandleTable.Insert third_store 3 (table_ crowded_state)
         = Some (None, tb') ∧
         LRUHandleTable.length_ tb' = 16 ∧
         LRUHandleTable.list_ tb' !! 1%nat = Some [1%positive; 3%positive].
Proof.
  split; [exact third_table_wf|].
  split_and!; try (by vm_compute).
  exists (default (LRUHandleTable.mk [] 0 0)
            ((λ r, r.2) <$>
             LRUHandleTable.Insert third_store 3 (table_ crowded_state))).
  split_and!; by vm_compute.
Qed.

End table.

(** * Further properties of the hash table *)

Section table_extras.

Implicit Types (m : gmap positive LRUHandle) (tb : LRUHandleTable.t).

Lemma Resize_length_returns elems fuel : ∀ j,
  4 ≤ j ≤ 31 → (Z.to_nat (31 - j) ≤ fuel)%nat → 3 * elems ≤ 2 ^ 32 →
  ∃ nl, LRUHandleTable.Resize_length fuel (2 ^ j) elems = Some nl.
Proof.
  induction fuel as [|fuel IH]; intros j Hj Hfuel Hsmall;
    rewrite Resize_length_unfold;
    destruct (2 * 2 ^ j <? 3 * elems) eqn:Hc; try by eauto.
  - apply Z.ltb_lt in Hc. assert (j = 31) as -> by lia.
    change (2 * 2 ^ 31) with (2 ^ 32) in Hc. lia.
  - apply Z.ltb_lt in Hc.
    assert (j < 31).
    { destruct (decide (j = 31)) as [->|]; [|lia].
      change (2 * 2 ^ 31) with (2 ^ 32) in Hc. lia. }
    assert (Hpow : 2 ^ j * 2 = 2 ^ (j + 1)).
    { rewrite Z.pow_add_r by lia. lia. }
    rewrite Hpow.
    assert (Hlt : 2 ^ (j + 1) < 2 ^ 32) by (apply Z.pow_lt_mono_r; lia).
    rewrite wrap32_small by (split; [apply Z.pow_nonneg; lia|done]).
    apply IH; [lia|lia|done].
Qed.

(** X1: the loop of [Resize] that picks the new length, for at most
    2^32 / 3 elements: it ends, with the least power of two from 16 on that is
    at least one and a half times the number of elements. *)
Theorem Resize_picks_least_power elems :
  3 * elems ≤ 2 ^ 32 →
  ∃ k, 4 ≤ k ≤ 31 ∧
    LRUHandleTable.Resize_length 32 16 elems = Some (2 ^ k) ∧
    3 * elems ≤ 2 * 2 ^ k ∧
    (k = 4 ∨ 2 * 2 ^ (k - 1) < 3 * elems).
Proof.
  intros Hsmall.
  destruct (Resize_length_returns elems 32 4) as [nl Hnl]; [lia|lia|done|].
  change 16 with (2 ^ 4).
  destruct (Resize_length_pow2 32 4 elems nl ltac:(lia) Hnl)
    as (k & Hk & -> & Hload & Hfirst).
  exists k. split_and!; [lia|lia|done|done|].
  destruct Hfirst as [->|Hlt]; [by left|].
  destruct (decide (k = 4)) as [->|Hne]; [by left|]. right.
  replace (2 ^ k) with (2 ^ (k - 1) * 2) in Hlt; [lia|].
  rewrite Z.mul_comm, <- (Z.pow_succ_r 2 (k - 1)) by lia. f_equal. lia.
Qed.

Lemma Resize_picks_least_power_witness :
  LRUHandleTable.Resize_length 32 16 17 = Some 32.
Proof.
  destruct (Resize_picks_least_power 17) as (k & Hk & Heq & Hload & Hfirst).
  - vm_compute. discriminate.
  - rewrite Heq. f_equal.
    assert (k = 5) as ->; [|done].
    destruct (decide (k = 4)) as [->|Hne];
      [change (2 ^ 4) with 16 in Hload; lia|].
    destruct Hfirst as [?|Hfirst]; [done|].
    destruct (decide (k = 5)) as [|Hne5]; [done|exfalso].
    assert (2 ^ 5 ≤ 2 ^ (k - 1)) by (apply Z.pow_le_mono_r; lia).
    change (2 ^ 5) with 32 in *. lia.
Defined.

Lemma Resize_length_stuck elems fuel : ∀ j,
  4 ≤ j ≤ 31 → 2 ^ 32 < 3 * elems →
  LRUHandleTable.Resize_length fuel (2 ^ j) elems = None.
Proof.
  induction fuel as [|fuel IH]; intros j Hj Hbig;
    rewrite Resize_length_unfold.
  - assert (2 * 2 ^ j ≤ 2 ^ 32).
    { change (2 ^ 32) with (2 * 2 ^ 31).
      assert (2 ^ j ≤ 2 ^ 31) by (apply Z.pow_le_mono_r; lia). lia. }
    replace (2 * 2 ^ j <? 3 * elems) with true
      by (symmetry; apply Z.ltb_lt; lia).
    done.
  - assert (2 * 2 ^ j ≤ 2 ^ 32).
    { change (2 ^ 32) with (2 * 2 ^ 31).
      assert (2 ^ j ≤ 2 ^ 31) by (apply Z.pow_le_mono_r; lia). lia. }
    replace (2 * 2 ^ j <? 3 * elems) with true
      by (symmetry; apply Z.ltb_lt; lia).
    destruct (decide (j = 31)) as [->|Hne].
    + replace (wrap32 (2 ^ 31 * 2)) with 0 by (by vm_compute).
      apply Resize_length_zero. lia.
    + assert (Hpow : 2 ^ j * 2 = 2 ^ (j + 1)).
      { rewrite Z.pow_add_r by lia. lia. }
      rewrite Hpow.
      assert (Hlt : 2 ^ (j + 1) < 2 ^ 32) by (apply Z.pow_lt_mono_r; lia).
      rewrite wrap32_small by (split; [apply Z.pow_nonneg; lia|done]).
      apply IH; [lia|done].
Qed.

(** X2: with more than 2^32 / 3 elements the loop of [Resize] does not end:
    [new_length] doubles up to 2^31, wraps to 0 and stays there. Whatever the
    fuel, the model has no result, and neither has [Resize]. *)
Theorem Resize_does_not_end m tb :
  2 ^ 32 < 3 * LRUHandleTable.elems_ tb →
  (∀ fuel,
     LRUHandleTable.Resize_length fuel 16 (LRUHandleTable.elems_ tb) = None) ∧
  LRUHandleTable.Resize m tb = None.
Proof.
  intros Hbig.
  assert (Hfuel : ∀ fuel,
            LRUHandleTable.Resize_length fuel 16 (LRUHandleTable.elems_ tb)
            = None).
  { intros fuel. change 16 with (2 ^ 4).
    apply Resize_length_stuck; [lia|done]. }
  split; [done|]. unfold LRUHandleTable.Resize. by rewrite Hfuel.
Qed.

Lemma Resize_does_not_end_witness :
  LRUHandleTable.Resize ∅ (LRUHandleTable.mk [] 16 (2 ^ 31 + 1)) = None.
Proof.
  refine (proj2 (Resize_does_not_end ∅
                   (LRUHandleTable.mk [] 16 (2 ^ 31 + 1)) _)).
  vm_compute. reflexivity.
Defined.

(** X3: after [Insert] of a record that is not linked yet, [Lookup] of its
    hash and key returns it, and [Lookup] of any other hash or key returns
    what it returned before, whether or not the table was resized. *)
Theorem table_Insert_then_Lookup m tb e h r tb' :
  table_wf m tb → m !! e = Some h → e ∉ entries tb →
  LRUHandleTable.Insert m e tb = Some (r, tb') →
  LRUHandleTable.Lookup m (key_data h) (hash h) tb' = Some (Some e) ∧
  ∀ key hash0,
    ¬ (hash0 = hash h ∧ key = key_data h) →
    LRUHandleTable.Lookup m key hash0 tb' = LRUHandleTable.Lookup m key hash0 tb.
Proof.
  intros Hwf He Hfresh Hins.
  destruct (table_Insert_wf m tb e h r tb' Hwf He Hfresh Hins)
    as (Hlook & Hwf' & Hents).
  destruct (table_Lookup_spec m tb (key_data h) (hash h) Hwf)
    as (r0 & Hlook0 & Hold).
  rewrite Hlook in Hlook0. injection Hlook0 as <-.
  assert (He' : e ∈ entries tb').
  { destruct r as [old|].
    - destruct Hents as (l1 & l2 & _ & ->). apply elem_of_middle. by left.
    - rewrite Hents. by left. }
  split; [by apply table_Lookup_entry|].
  intros key hash0 Hother.
  destruct (table_Lookup_spec m tb key hash0 Hwf) as (r1 & -> & Hr1).
  destruct (table_Lookup_spec m tb' key hash0 Hwf') as (r2 & -> & Hr2).
  f_equal.
  assert (Hsame : ∀ p, r2 = Some p ↔ r1 = Some p).
  { intros p. rewrite (Hr1 p), (Hr2 p). split.
    - intros (Hp & hp & Hhp & Hm). split; [|by eauto].
      destruct r as [old|].
      + destruct Hents as (l1 & l2 & -> & Hent').
        rewrite Hent' in Hp.
        apply elem_of_middle in Hp as [->|Hp].
        * exfalso. rewrite He in Hhp. injection Hhp as <-.
          destruct Hm as [<- <-]. by apply Hother.
        * apply elem_of_middle. by right.
      + rewrite Hents in Hp. apply elem_of_cons in Hp as [->|Hp]; [|done].
        exfalso. rewrite He in Hhp. injection Hhp as <-.
        destruct Hm as [<- <-]. by apply Hother.
    - intros (Hp & hp & Hhp & Hm). split; [|by eauto].
      destruct r as [old|].
      + destruct Hents as (l1 & l2 & Hent & ->).
        rewrite Hent in Hp.
        apply elem_of_middle in Hp as [->|Hp].
        * exfalso.
          destruct (proj1 (Hold old) eq_refl) as (_ & ho & Hho & [Hh Hk]).
          rewrite Hhp in Hho. injection Hho as <-.
          destruct Hm as [<- <-]. by apply Hother.
        * apply elem_of_middle. by right.
      + rewrite Hents. by right. }
  destruct r2 as [p|].
  - symmetry. by apply Hsame.
  - destruct r1 as [p|]; [|done]. by apply Hsame.
Qed.

Lemma table_Insert_then_Lookup_witness :
  ∃ tb', LRUHandleTable.Insert third_store 3 (table_ crowded_state)
         = Some (None, tb') ∧
         LRUHandleTable.Lookup third_store "b" 17 tb' = Some (Some 3%positive).
Proof.
  pose (tb' := default (LRUHandleTable.mk [] 0 0)
                 ((λ r, r.2) <$>
                  LRUHandleTable.Insert third_store 3 (table_ crowded_state))).
  assert (Hins : LRUHandleTable.Insert third_store 3 (table_ crowded_state)
                 = Some (None, tb')) by (vm_compute; reflexivity).
  exists tb'. split; [exact Hins|].
  refine (proj1 (table_Insert_then_Lookup third_store (table_ crowded_state)
                   3 (third_record true) None tb' _ _ _ Hins)).
  - apply table_wf_insert_other.
    + apply (reachable_Inv _ crowded_reachable).
    + apply (Inv_unlinked _ _ (reachable_Inv _ crowded_reachable)).
      vm_compute. reflexivity.
  - vm_compute. reflexivity.
  - apply (Inv_unlinked _ _ (reachable_Inv _ crowded_reachable)).
    vm_compute. reflexivity.
Defined.

(** X4: [Remove] returns what [Lookup] finds and unlinks it: when it finds
    nothing the table is not changed; otherwise [elems_] goes down by one,
    the length stays, [Lookup] of the same hash and key now finds nothing,
    and [Lookup] of any other hash or key is not affected. *)
Theorem table_Remove_then_Lookup m tb key hash0 :
  table_wf m tb →
  ∃ r tb',
    LRUHandleTable.Remove m key hash0 tb = Some (r, tb') ∧
    LRUHandleTable.Lookup m key hash0 tb = Some r ∧
    LRUHandleTable.Lookup m key hash0 tb' = Some None ∧
    (∀ key' hash',
       ¬ (hash' = hash0 ∧ key' = key) →
       LRUHandleTable.Lookup m key' hash' tb'
       = LRUHandleTable.Lookup m key' hash' tb) ∧
    LRUHandleTable.length_ tb' = LRUHandleTable.length_ tb ∧
    match r with
    | None => tb' = tb
    | Some p => LRUHandleTable.elems_ tb' = LRUHandleTable.elems_ tb - 1
    end.
Proof.
  intros Hwf.
  destruct (table_Remove_spec m tb key hash0 Hwf)
    as (r & tb' & Hrem & Hlook & Hcase).
  exists r, tb'. split; [done|]. split; [done|].
  destruct r as [p|]; [|by subst tb'].
  destruct Hcase as (Hwf' & Hlen & Helems & l1 & l2 & Hent & Hent').
  destruct (table_Lookup_spec m tb key hash0 Hwf) as (r0 & Hlook0 & Hold).
  rewrite Hlook in Hlook0. injection Hlook0 as <-.
  destruct (proj1 (Hold p) eq_refl) as (_ & hp & Hhp & Hmp).
  pose proof Hwf as (_ & _ & _ & _ & _ & Hnd & Huniq).
  rewrite Hent in Hnd.
  destruct (NoDup_middle_not_elem _ _ _ Hnd) as [Hn1 Hn2].
  split_and!; [| |done|done].
  - destruct (table_Lookup_spec m tb' key hash0 Hwf') as (r2 & -> & Hr2).
    f_equal. destruct r2 as [q|]; [exfalso|done].
    destruct (proj1 (Hr2 q) eq_refl) as (Hq & hq & Hhq & Hmq).
    rewrite Hent' in Hq.
    assert (q = p) as ->.
    { apply (Huniq q p hq hp); try done.
      - rewrite Hent. apply elem_of_middle. by right.
      - rewrite Hent. apply elem_of_middle. by left.
      - destruct Hmq, Hmp. congruence.
      - destruct Hmq, Hmp. congruence. }
    apply elem_of_app in Hq. tauto.
  - intros key' hash' Hother.
    destruct (table_Lookup_spec m tb key' hash' Hwf) as (r1 & -> & Hr1).
    destruct (table_Lookup_spec m tb' key' hash' Hwf') as (r2 & -> & Hr2).
    f_equal.
    assert (Hsame : ∀ q, r2 = Some q ↔ r1 = Some q).
    { intros q. rewrite (Hr1 q), (Hr2 q), Hent, Hent'. split.
      - intros (Hq & Hm). split; [|done]. apply elem_of_middle. by right.
      - intros (Hq & hq & Hhq & Hm). split; [|by eauto].
        apply elem_of_middle in Hq as [->|Hq]; [|done].
        exfalso. rewrite Hhp in Hhq. injection Hhq as <-.
        destruct Hm as [<- <-], Hmp as [<- <-]. by apply Hother. }
    destruct r2 as [q|].
    + symmetry. by apply Hsame.
    + destruct r1 as [q|]; [|done]. by apply Hsame.
Qed.

Lemma table_Remove_then_Lookup_witness :
  ∃ tb',
    LRUHandleTable.Remove (heap crowded_state) "c" 3 (table_ crowded_state)
    = Some (Some 2%positive, tb') ∧
    LRUHandleTable.Lookup (heap crowded_state) "c" 3 tb' = Some None.
Proof.
  destruct (table_Remove_then_Lookup (heap crowded_state)
              (table_ crowded_state) "c" 3)
    as (r & tb' & Hrem & Hlook & Hgone & _).
  - apply (reachable_Inv _ crowded_reachable).
  - assert (r = Some 2%positive) as ->.
    { vm_compute in Hlook. by injection Hlook as <-. }
    by exists tb'.
Defined.

End table_extras.

(** * Further properties of the shard: what every reachable state satisfies *)

Section state_extras.

(** X5: between two operations the table holds exactly the records with
    [in_cache] set, each once and in the bucket of its hash; [elems_] is their
    number; the length is a power of two from 16 to 2^31 and at least
    [elems_]. *)
Theorem table_holds_the_cached_records s :
  reachable s →
  (∀ p, p ∈ entries (table_ s) ↔
        ∃ h, heap s !! p = Some h ∧ in_cache h = true) ∧
  NoDup (entries (table_ s)) ∧
  (∀ b chain p h,
     LRUHandleTable.list_ (table_ s) !! b = Some chain → p ∈ chain →
     heap s !! p = Some h →
     LRUHandleTable.bucket (hash h) (LRUHandleTable.length_ (table_ s)) = b) ∧
  LRUHandleTable.elems_ (table_ s) = Z.of_nat (length (entries (table_ s))) ∧
  LRUHandleTable.elems_ (table_ s) ≤ LRUHandleTable.length_ (table_ s) ∧
  length (LRUHandleTable.list_ (table_ s))
  = Z.to_nat (LRUHandleTable.length_ (table_ s)) ∧
  ∃ k, LRUHandleTable.length_ (table_ s) = 2 ^ k ∧ 4 ≤ k ≤ 31.
Proof.
  intros [((_ & Htr & _) & Hwf & _) _]%reachable_Inv.
  destruct Hwf as (Hlen & Hpow & Helems & Hle & Hin & Hnd & _).
  split_and!; try done.
  intros b chain p h Hb Hp Hh.
  destruct (Hin b chain p Hb Hp) as (h' & Hh' & Hbucket). congruence.
Qed.

Lemma table_holds_the_cached_records_witness :
  NoDup (entries (table_ crowded_state)) ∧
  ∃ k, LRUHandleTable.length_ (table_ crowded_state) = 2 ^ k ∧ 4 ≤ k ≤ 31.
Proof.
  refine ((λ H, conj (proj1 (proj2 H))
                     (proj2 (proj2 (proj2 (proj2 (proj2 (proj2 H)))))))
            (table_holds_the_cached_records crowded_state _)).
  apply (boot_reachable 50 true 0
           [OpInsert 1 "a" 1 0 40 0 true LOW;
            OpInsert 2 "c" 3 0 10 0 false LOW]).
  vm_compute. reflexivity.
Defined.

(** X6: no two records in the cache have the same hash and key. *)
Theorem cached_keys_are_unique s p q hp hq :
  reachable s →
  heap s !! p = Some hp → heap s !! q = Some hq →
  in_cache hp = true → in_cache hq = true →
  hash hp = hash hq → key_data hp = key_data hq →
  p = q.
Proof.
  intros [((_ & Htr & _) & Hwf & _) _]%reachable_Inv Hp Hq Hip Hiq Hh Hk.
  destruct Hwf as (_ & _ & _ & _ & _ & _ & Huniq).
  apply (Huniq p q hp hq); try done; apply Htr; eauto.
Qed.

Lemma cached_keys_are_unique_witness : 2%positive = 2%positive.
Proof.
  apply (cached_keys_are_unique crowded_state 2 2
           (mkLRUHandle 0 0 10 "c" 1 true false false false 3)
           (mkLRUHandle 0 0 10 "c" 1 true false false false 3)).
  - apply (boot_reachable 50 true 0
             [OpInsert 1 "a" 1 0 40 0 true LOW;
              OpInsert 2 "c" 3 0 10 0 false LOW]).
    vm_compute. reflexivity.
  - vm_compute. reflexivity.
  - vm_compute. reflexivity.
  - reflexivity.
  - reflexivity.
  - reflexivity.
  - reflexivity.
Defined.

Lemma count_lru_size l : ∀ a,
  foldl (λ lru_size (_ : positive), wrap64 (lru_size + 1)) (wrap64 a) l
  = wrap64 (a + Z.of_nat (length l)).
Proof.
  induction l as [|p l IH]; intros a; simpl.
  - by rewrite Z.add_0_r.
  - rewrite wrap64_add_l, IH. f_equal. lia.
Qed.

Lemma tracked_size P m (l : list positive) :
  NoDup l → tracks P m l →
  length l = size (filter (λ ph : positive * LRUHandle, P ph.2 = true) m).
Proof.
  intros Hnd Htr.
  rewrite <- (size_dom (D := gset positive)).
  rewrite <- (size_list_to_set (C := gset positive) l) by done.
  f_equal. apply set_eq. intros p.
  rewrite elem_of_list_to_set, elem_of_dom, (Htr p).
  split.
  - intros (h & Hh & HP). exists h. by apply map_lookup_filter_Some.
  - intros [h (Hh & HP)%map_lookup_filter_Some]. by exists h.
Qed.

(** X7: between two operations the LRU list holds exactly the records that
    are in the cache with [refs == 1], each once; so the asserts of
    [EvictFromLRU] on the record it pops hold, and [TEST_GetLRUSize] is the
    number of those records (in [size_t]). *)
Theorem lru_list_holds_the_unpinned_records s :
  reachable s →
  NoDup (lru_ s) ∧
  (∀ p, p ∈ lru_ s ↔
        ∃ h, heap s !! p = Some h ∧ in_cache h = true ∧ refs h = 1) ∧
  (∀ p, p ∈ lru_ s → p ∈ entries (table_ s)) ∧
  TEST_GetLRUSize s
  = wrap64 (Z.of_nat
              (size (filter (λ ph : positive * LRUHandle,
                               evictable ph.2 = true) (heap s)))).
Proof.
  intros [((_ & Hents & _) & _ & ((Hnd & Htr) & _) & _) _]%reachable_Inv.
  assert (Hiff : ∀ p, p ∈ lru_ s ↔
            ∃ h, heap s !! p = Some h ∧ in_cache h = true ∧ refs h = 1).
  { intros p. rewrite (Htr p). split.
    - intros (h & Hh & [? ?]%evictable_inv). by exists h.
    - intros (h & Hh & ? & ?). exists h. split; [done|].
      by apply evictable_intro. }
  split_and!; try done.
  - intros p (h & Hh & Hin & _)%Hiff. apply Hents. by exists h.
  - unfold TEST_GetLRUSize.
    change 0 with (wrap64 0) at 1. rewrite count_lru_size. simpl.
    by rewrite (tracked_size evictable (heap s)).
Qed.

Lemma lru_list_holds_the_unpinned_records_witness :
  NoDup (lru_ crowded_state) ∧ TEST_GetLRUSize crowded_state = 1.
Proof.
  refine ((λ H, conj (proj1 H) _)
            (lru_list_holds_the_unpinned_records crowded_state _)).
  - vm_compute. reflexivity.
  - apply (boot_reachable 50 true 0
             [OpInsert 1 "a" 1 0 40 0 true LOW;
              OpInsert 2 "c" 3 0 10 0 false LOW]).
    vm_compute. reflexivity.
Defined.

(** X8: between two operations the LRU list is the low-priority pool
    followed by the high-priority pool: [lru_low_pri_] is the last record of
    the first part (the sentinel when that part is empty), the records of the
    first part have [in_high_pri_pool] clear and those of the second have it
    set, and [high_pri_pool_usage_] is the sum of [charge] over the listed
    records that have it set. *)
Theorem lru_list_is_low_pool_then_high_pool s :
  reachable s →
  (∃ low high,
     lru_ s = low ++ high ∧ lru_low_pri_ s = last low ∧
     (∀ p h, p ∈ low → heap s !! p = Some h → in_high_pri_pool h = false) ∧
     (∀ p h, p ∈ high → heap s !! p = Some h → in_high_pri_pool h = true)) ∧
  high_pri_pool_usage_ s
  = wrap64 (sum_charge (λ h, in_high_pri_pool h
                             && (in_cache h && (refs h =? 1))) (heap s)).
Proof.
  intros [(_ & _ & (_ & Hpool & _ & Hhu) & _) _]%reachable_Inv.
  split; [exact Hpool|exact Hhu].
Qed.

Lemma lru_list_is_low_pool_then_high_pool_witness :
  ∃ low high,
    lru_ pooled_state = low ++ high ∧ lru_low_pri_ pooled_state = last low ∧
    (∀ p h, p ∈ low → heap pooled_state !! p = Some h →
            in_high_pri_pool h = false) ∧
    (∀ p h, p ∈ high → heap pooled_state !! p = Some h →
            in_high_pri_pool h = true).
Proof.
  refine (proj1 (lru_list_is_low_pool_then_high_pool pooled_state _)).
  apply (boot_reachable 100 false (1 # 2) pooled_ops).
  vm_compute. reflexivity.
Defined.

(** X9: [GetPinnedUsage] is, in [size_t] arithmetic, the sum of [charge] over
    the records that some handle references: all records that are not freed
    except those in the cache with [refs == 1]. *)
Theorem GetPinnedUsage_is_the_pinned_charge s :
  reachable s →
  GetPinnedUsage s
  = wrap64 (sum_charge (λ h, negb (in_cache h && (refs h =? 1))) (heap s)).
Proof.
  intros Hinv%reachable_Inv.
  pose proof Hinv as [((_ & _ & Hu) & _ & (_ & _ & Hlu & _) & _) _].
  unfold GetPinnedUsage. rewrite Hu, Hlu.
  rewrite wrap64_sub_l.
  rewrite (sum_charge_split evictable
             (λ h, negb (in_cache h && (refs h =? 1))) live).
  - unfold wrap64. rewrite Zminus_mod_idemp_r. f_equal. lia.
  - intros p h Hh. destruct (Inv_refs s p h Hinv Hh) as [[Hr _] _].
    unfold weight, live, evictable.
    replace (1 <=? refs h) with true by (symmetry; apply Z.leb_le; lia).
    destruct (in_cache h && (refs h =? 1)); simpl; lia.
Qed.

Lemma GetPinnedUsage_is_the_pinned_charge_witness :
  GetPinnedUsage crowded_state = 40.
Proof.
  rewrite (GetPinnedUsage_is_the_pinned_charge crowded_state).
  - vm_compute. reflexivity.
  - apply (boot_reachable 50 true 0
             [OpInsert 1 "a" 1 0 40 0 true LOW;
              OpInsert 2 "c" 3 0 10 0 false LOW]).
    vm_compute. reflexivity.
Defined.

End state_extras.

(** * Further properties of the shard: the operations *)

Section lookup_extras.

Lemma filter_ne_not_elem (e : positive) (l : list positive) :
  e ∉ l → filter (λ q, q ≠ e) l = l.
Proof.
  induction l as [|x l IH]; [done|].
  intros [Hne Hl]%not_elem_of_cons.
  rewrite filter_cons_True by (by intros ->). by rewrite IH.
Qed.

Lemma filter_ne_middle (e : positive) (l1 l2 : list positive) :
  NoDup (l1 ++ e :: l2) → filter (λ q, q ≠ e) (l1 ++ e :: l2) = l1 ++ l2.
Proof.
  intros [Hn1 Hn2]%NoDup_middle_not_elem.
  rewrite filter_app, filter_cons_False by (by intros ?).
  by rewrite !filter_ne_not_elem.
Qed.




End lookup_extras.

Section erase_extras.

(** X11: [Erase]. When no record in the cache has the hash and key, nothing
    changes. Otherwise that record leaves the table, and is not on the LRU
    list afterwards; if the cache held the only reference it is freed, with
    its deleter called and its charge taken off [usage_]; if handles
    reference it, it stays allocated with [in_cache] cleared and one
    reference less, no deleter is called and [usage_] keeps its charge. No
    other record changes, and a [Lookup] of the hash and key now finds
    nothing. *)
Theorem Erase_unlinks s key hash0 :
  reachable s →
  ∃ r s',
    LRUHandleTable.Lookup (heap s) key hash0 (table_ s) = Some r ∧
    Erase key hash0 s = Some s' ∧
    LRUHandleTable.Lookup (heap s') key hash0 (table_ s') = Some None ∧
    match r with
    | None => s' = s
    | Some e =>
        ∃ h, heap s !! e = Some h ∧
          (e ∉ entries (table_ s')) ∧ (e ∉ lru_ s') ∧
          (∀ q, q ≠ e → heap s' !! q = heap s !! q) ∧
          if refs h =? 1
          then heap s' !! e = None ∧
               usage_ s' = wrap64 (usage_ s - charge h) ∧
               deleter_calls s' = deleter_calls s ++ [(e, retire h)]
          else heap s' !! e
               = Some (SetInCache false (set_refs (refs h - 1) h)) ∧
               usage_ s' = usage_ s ∧
               deleter_calls s' = deleter_calls s
    end.
Proof.
  intros Hinv%reachable_Inv. pose proof Hinv as [Hsinv Hpend].
  pose proof Hsinv as (Hstore & Hwf & Hlru & Hhc & Hratio & Hcapr).
  destruct (Erase_spec s key hash0 Hinv) as (s' & Herase & Hinv').
  destruct (table_Remove_spec (heap s) (table_ s) key hash0 Hwf)
    as (r & tb' & Hrem & Hlook & Hcase).
  exists r, s'. split; [done|]. split; [done|].
  revert Herase. unfold Erase. rewrite Hrem. simpl.
  destruct r as [e|].
  2: { subst tb'. rewrite set_table_id. intros [= <-]. done. }
  destruct Hcase as (Hwf' & _ & _ & t1 & t2 & Ht & Ht').
  assert (Hnd : NoDup (t1 ++ e :: t2)) by (rewrite <- Ht; apply Hwf).
  destruct (NoDup_middle_not_elem _ _ _ Hnd) as [Hn1 Hn2].
  assert (Hent : e ∈ entries (table_ s)).
  { rewrite Ht. apply elem_of_middle. by left. }
  destruct (table_Lookup_spec (heap s) (table_ s) key hash0 Hwf)
    as (r0 & Hlook0 & Hr).
  rewrite Hlook in Hlook0. injection Hlook0 as <-.
  destruct (proj1 (Hr e) eq_refl) as (_ & h & Hh & Hm).
  pose proof (proj1 (store_inv_in_cache _ _ _ _ _ Hstore Hh) Hent) as Hin.
  destruct (Inv_refs s e h Hinv Hh) as [Hrf Hc].
  unfold Unref. simpl. rewrite Hh. simpl.
  rewrite wrap32_pred by lia. rewrite lookup_insert_eq. simpl.
  unfold InCache. simpl. rewrite Hin, andb_true_r.
  assert (Hpost : table_ s' = tb' →
            (∀ q, q ≠ e → heap s' !! q = heap s !! q) →
            LRUHandleTable.Lookup (heap s') key hash0 (table_ s') = Some None
            ∧ (e ∉ entries (table_ s'))).
  { intros Htb Hframe.
    assert (Hne : e ∉ entries (table_ s')).
    { rewrite Htb, Ht'. rewrite elem_of_app. tauto. }
    split; [|done].
    pose proof Hinv' as [(_ & Hwf2 & _) _].
    destruct (table_Lookup_spec (heap s') (table_ s') key hash0 Hwf2)
      as (r2 & -> & Hr2).
    f_equal. destruct r2 as [q|]; [exfalso|done].
    destruct (proj1 (Hr2 q) eq_refl) as (Hq & hq & Hhq & Hmq).
    assert (Hqe : q ≠ e) by (by intros ->).
    rewrite Hframe in Hhq by done.
    assert (Some e = Some q) as [= Heq]; [|by apply Hqe].
    apply Hr. split; [|by eauto].
    rewrite Htb, Ht' in Hq. rewrite Ht. apply elem_of_middle. by right. }
  assert (Hlist : heap s' !! e = None ∨
                  (∃ h', heap s' !! e = Some h' ∧ in_cache h' = false) →
                  e ∉ lru_ s').
  { pose proof Hinv' as [(_ & _ & ((_ & Htr) & _) & _) _].
    intros Hcase (h2 & Hh2 & [Hi2 _]%evictable_inv)%Htr.
    destruct Hcase as [Hnone|(h' & Hh' & Hi')]; congruence. }
  destruct (decide (refs h = 1)) as [H1|H1].
  - rewrite H1. simpl.
    pose (h1 := set_refs 0 h).
    pose (s2 := set_heap (<[e := h1]> (heap s)) (set_table tb' s)).
    assert (Hev : evictable h = true) by (by apply evictable_intro).
    destruct (LRU_Remove_spec s2 (heap s) e h1 h Hlru Hh Hev
                (lookup_insert_eq _ _ _) eq_refl eq_refl)
      as (l1 & l2 & c & lu & hu & Hsplit & Hrun & Hpart).
    change (1 - 1) with 0. fold h1 s2. rewrite Hrun. simpl.
    unfold UsageSub. simpl. rewrite lookup_insert_eq. simpl.
    unfold update. simpl. rewrite lookup_insert_eq. simpl.
    unfold Free. simpl. rewrite lookup_insert_eq. simpl.
    rewrite insert_insert_eq, delete_insert_eq.
    intros [= <-]. simpl in *.
    assert (Hframe : ∀ q, q ≠ e → delete e (heap s) !! q = heap s !! q)
      by (intros q Hq; by rewrite lookup_delete_ne).
    destruct (Hpost eq_refl Hframe) as [Hmiss Hne].
    split; [done|]. exists h. split_and!; try done.
    + apply Hlist. left. apply lookup_delete_eq.
    + rewrite (proj2 (Z.eqb_eq _ _) H1).
      split_and!; [apply lookup_delete_eq|done|done].
  - rewrite bool_decide_eq_false_2 by lia. simpl.
    unfold update. simpl. rewrite lookup_insert_eq. simpl.
    rewrite insert_insert_eq.
    intros [= <-]. simpl in *.
    assert (Hframe : ∀ q, q ≠ e →
              <[e := SetInCache false (set_refs (refs h - 1) h)]> (heap s)
              !! q = heap s !! q)
      by (intros q Hq; by rewrite lookup_insert_ne).
    destruct (Hpost eq_refl Hframe) as [Hmiss Hne].
    split; [done|]. exists h. split_and!; try done.
    + apply Hlist. right. eexists. split; [apply lookup_insert_eq|done].
    + rewrite (proj2 (Z.eqb_neq _ _) H1).
      split_and!; [apply lookup_insert_eq|done|done].
Qed.

Lemma Erase_unlinks_witness :
  ∃ s', Erase "a" 1 crowded_state = Some s' ∧
        LRUHandleTable.Lookup (heap s') "a" 1 (table_ s') = Some None ∧
        usage_ s' = 50 ∧ deleter_calls s' = [].
Proof.
  destruct (Erase_unlinks crowded_state "a" 1)
    as (r & s' & Hlook & Heq & Hmiss & Hcase).
  - apply (boot_reachable 50 true 0
             [OpInsert 1 "a" 1 0 40 0 true LOW;
              OpInsert 2 "c" 3 0 10 0 false LOW]).
    vm_compute. reflexivity.
  - assert (r = Some 1%positive) as ->.
    { vm_compute in Hlook. by injection Hlook as <-. }
    destruct Hcase as (h & Hh & _ & _ & _ & Hcase).
    assert (h = mkLRUHandle 0 0 40 "a" 2 true false false false 1) as ->.
    { vm_compute in Hh. by injection Hh as <-. }
    simpl in Hcase. destruct Hcase as (_ & Hu & Hdc).
    exists s'. split; [exact Heq|]. split; [exact Hmiss|].
    split; [rewrite Hu|rewrite Hdc]; vm_compute; reflexivity.
Defined.

End erase_extras.

Section evict_extras.

Lemma freed_log_ext m m' d :
  (∀ p, p ∈ d → m !! p = m' !! p) → freed_log m d = freed_log m' d.
Proof.
  induction d as [|q d IH]; intros Hext; [done|].
  rewrite !freed_log_cons, (Hext q) by (by left).
  rewrite IH; [done|]. intros p Hp. apply Hext. by right.
Qed.

Lemma freed_log_addresses m d :
  (∀ p, p ∈ d → is_Some (m !! p)) → (freed_log m d).*1 = d.
Proof.
  induction d as [|q d IH]; intros Hall; [done|].
  rewrite freed_log_cons. destruct (Hall q) as [h ->]; [by left|].
  simpl. f_equal. apply IH. intros p Hp. apply Hall. by right.
Qed.

(** The state after the first [k] records of the list were evicted and
    freed. *)
Lemma evict_free_post k s s' s'' :
  Inv s → shard_inv s' → evicted k s s' →
  s'' = set_heap (delete_all (take k (lru_ s)) (heap s'))
          (set_deleter_calls
             (deleter_calls s ++ freed_log (heap s') (take k (lru_ s))) s') →
  lru_ s'' = drop k (lru_ s) ∧
  (∀ p, heap s'' !! p
        = if decide (p ∈ take k (lru_ s)) then None else heap s !! p) ∧
  (∀ q, q ∈ entries (table_ s'') ↔
        q ∈ entries (table_ s) ∧ q ∉ take k (lru_ s)) ∧
  deleter_calls s''
  = deleter_calls s ++ freed_log (retire <$> heap s) (take k (lru_ s)) ∧
  (deleter_calls s'').*1 = (deleter_calls s).*1 ++ take k (lru_ s) ∧
  usage_ s'' = wrap64 (usage_ s - charges (heap s) (take k (lru_ s))) ∧
  capacity_ s'' = capacity_ s ∧
  strict_capacity_limit_ s'' = strict_capacity_limit_ s ∧
  high_pri_pool_ratio_ s'' = high_pri_pool_ratio_ s ∧
  high_pri_pool_capacity_ s'' = high_pri_pool_capacity_ s.
Proof.
  intros [Hinv Hpend] Hinv' Hev ->.
  pose proof Hev as (Hl & Hret & Hents & Hu & Hdc & Hc & Hs & Hr & Hh).
  pose proof Hinv as (_ & _ & ((_ & Htr) & _) & _).
  assert (Hlog : freed_log (heap s') (take k (lru_ s))
                 = freed_log (retire <$> heap s) (take k (lru_ s))).
  { apply freed_log_ext. intros p Hp.
    by rewrite (Hret p), decide_True, lookup_fmap. }
  simpl. split_and!; try done.
  - intros p. rewrite delete_all_lookup.
    destruct (decide (p ∈ take k (lru_ s))) as [Hp|Hp]; [done|].
    by rewrite (Hret p), decide_False.
  - by rewrite Hlog.
  - rewrite fmap_app, Hlog. f_equal. apply freed_log_addresses.
    intros p (h & Hh' & _)%elem_of_take_1%Htr.
    rewrite lookup_fmap, Hh'. by eexists.
Qed.

End evict_extras.

Section admin_extras.

Lemma empty_list_usage s : Inv s → lru_ s = [] → lru_usage_ s = 0.
Proof.
  intros [(_ & _ & ((_ & Htr) & _ & -> & _) & _) _] Hl.
  destruct (decide (sum_charge evictable (heap s) = 0)) as [->|Hne]; [done|].
  destruct (sum_charge_witness _ _ Hne) as (p & h & Hh & Hev).
  assert (p ∈ lru_ s) as Hp by (apply Htr; eauto).
  rewrite Hl in Hp. by apply elem_of_nil in Hp.
Qed.

(** X12: [EraseUnRefEntries] frees every record of the LRU list, in list
    order and each with one deleter call on the record with [in_cache]
    cleared and [refs] zero; the records leave the table and their charges
    leave [usage_]. The records that handles reference are not touched, the
    list is empty afterwards and the whole usage is pinned. *)
Theorem EraseUnRefEntries_frees_the_unpinned s :
  reachable s →
  ∃ s',
    EraseUnRefEntries s = Some s' ∧
    lru_ s' = [] ∧
    (∀ p, heap s' !! p = if decide (p ∈ lru_ s) then None else heap s !! p) ∧
    (∀ q, q ∈ entries (table_ s') ↔ q ∈ entries (table_ s) ∧ q ∉ lru_ s) ∧
    deleter_calls s'
    = deleter_calls s ++ freed_log (retire <$> heap s) (lru_ s) ∧
    (deleter_calls s').*1 = (deleter_calls s).*1 ++ lru_ s ∧
    usage_ s' = wrap64 (usage_ s - charges (heap s) (lru_ s)) ∧
    GetPinnedUsage s' = GetUsage s'.
Proof.
  intros Hinv%reachable_Inv. pose proof Hinv as [Hsinv Hpend].
  destruct (EraseUnRefEntries_loop_spec (length (lru_ s)) s [] Hsinv)
    as (s1 & Hrun & Hinv1 & Hev); [done|].
  destruct (evict_free_inv _ s s1 Hinv Hinv1 Hev)
    as (s' & Hfree & Hinv' & Heq).
  destruct (evict_free_post _ s s1 s' Hinv Hinv1 Hev Heq)
    as (Hl & Hheap & Hents & Hdc & Hdc1 & Hu & _).
  rewrite firstn_all in *. rewrite drop_all in Hl.
  exists s'. unfold EraseUnRefEntries. rewrite Hrun. simpl.
  split_and!; try done.
  unfold GetPinnedUsage, GetUsage.
  rewrite (empty_list_usage s' Hinv' Hl), Z.sub_0_r.
  apply shard_inv_usage, Hinv'.
Qed.

Lemma EraseUnRefEntries_frees_the_unpinned_witness :
  ∃ s', EraseUnRefEntries crowded_state = Some s' ∧ lru_ s' = [] ∧
        (deleter_calls s').*1 = [2%positive] ∧ usage_ s' = 40.
Proof.
  destruct (EraseUnRefEntries_frees_the_unpinned crowded_state)
    as (s' & Heq & Hl & _ & _ & _ & Hdc & Hu & _).
  - apply (boot_reachable 50 true 0
             [OpInsert 1 "a" 1 0 40 0 true LOW;
              OpInsert 2 "c" 3 0 10 0 false LOW]).
    vm_compute. reflexivity.
  - exists s'. split; [exact Heq|]. split; [exact Hl|].
    split; [rewrite Hdc|rewrite Hu]; vm_compute; reflexivity.
Defined.





End admin_extras.

(** * Further properties of the shard: [Insert] that takes the record in *)

Section insert_post.

(** What [Free_all] leaves. *)
Lemma Free_all_post d s4 :
  shard_inv s4 → pending d (heap s4) →
  ∃ s5, Free_all d s4 = Some s5 ∧ Inv s5 ∧
    table_ s5 = table_ s4 ∧ lru_ s5 = lru_ s4 ∧ usage_ s5 = usage_ s4 ∧
    lru_usage_ s5 = lru_usage_ s4 ∧
    capacity_ s5 = capacity_ s4 ∧
    strict_capacity_limit_ s5 = strict_capacity_limit_ s4 ∧
    (deleter_calls s5).*1 = (deleter_calls s4).*1 ++ d ∧
    ∀ q, heap s5 !! q = if decide (q ∈ d) then None else heap s4 !! q.
Proof.
  intros Hinv Hpend. eexists. split.
  { apply Free_all_eq; [apply Hpend|].
    intros p. by apply pending_allocated. }
  split; [by apply Free_all_inv|]. simpl. split_and!; try done.
  - rewrite fmap_app. f_equal. apply freed_log_addresses.
    intros p. by apply pending_allocated.
  - intros q. apply delete_all_lookup.
Qed.

(** The end of an admitting [Insert], with what it leaves. *)
Lemma Insert_finish_post m ents (u : Z) e h0 d (handle : bool) tb' l c
    (lu hu : Z) dc (cap : Z) strict (ratio hcap : Q) :
  store_inv m ents u → m !! e = None →
  lru_part m l c lu hu → pending d m →
  table_wf (<[e := h0]> m) tb' →
  (∀ q, q ∈ entries tb' ↔ q = e ∨ q ∈ ents) →
  in_cache h0 = true → refs h0 = (if handle then 2 else 1) →
  0 ≤ charge h0 < 2 ^ 64 →
  (0 <= hcap)%Q → (0 <= ratio)%Q → 0 ≤ cap < 2 ^ 64 →
  ∃ s5 h1,
    (r4 ← ((if negb handle
            then s4 ← LRU_Insert e
                        (mk (<[e := h0]> m) dc tb' l c
                            (wrap64 (u + charge h0)) lu hu cap strict ratio
                            hcap);
                 Some (None, s4)
            else Some (Some e,
                       mk (<[e := h0]> m) dc tb' l c (wrap64 (u + charge h0))
                          lu hu cap strict ratio hcap))
           : option (option positive * t));
     s5 ← Free_all d r4.2;
     Some (OK, r4.1, s5))
    = Some (OK, if handle then Some e else None, s5) ∧
    Inv s5 ∧
    table_ s5 = tb' ∧ usage_ s5 = wrap64 (u + charge h0) ∧
    capacity_ s5 = cap ∧ strict_capacity_limit_ s5 = strict ∧
    (deleter_calls s5).*1 = dc.*1 ++ d ∧
    heap s5 !! e = Some h1 ∧
    SetInHighPriPool false h1 = SetInHighPriPool false h0 ∧
    (∀ q, SetInHighPriPool false <$> heap s5 !! q
          = if decide (q ∈ d) then None
            else SetInHighPriPool false <$> (<[e := h0]> m) !! q) ∧
    (e ∈ lru_ s5 ↔ handle = false).
Proof.
  intros Hstore He Hpart Hpend Hwf' Hents Hin Hrefs Hcharge Hhc Hratio Hcap.
  set (s3 := mk (<[e := h0]> m) dc tb' l c (wrap64 (u + charge h0))
                lu hu cap strict ratio hcap).
  assert (Hent : e ∉ ents).
  { destruct Hstore as (_ & Htr & _). by apply (tracks_not_elem _ _ _ _ Htr). }
  assert (Hed : e ∉ d).
  { destruct Hpend as [_ Htr]. by apply (tracks_not_elem _ _ _ _ Htr). }
  assert (Hel : e ∉ l).
  { destruct Hpart as ((_ & Htr) & _).
    by apply (tracks_not_elem _ _ _ _ Htr). }
  assert (Hstore3 : store_inv (<[e := h0]> m) (entries tb')
                      (wrap64 (u + charge h0))).
  { apply (store_inv_alloc _ _ _ e h0 _ _ Hstore He); try done.
    - destruct handle; lia.
    - intros _. destruct handle; lia.
    - intros q. rewrite Hents, Hin. split.
      + intros [->|Hq]; [by right|]. left. split; [by intros ->|done].
      + intros [[_ ?]|[? _]]; [by right|by left].
    - rewrite weight_true; [done|]. apply live_true. destruct handle; lia. }
  assert (Hpend3 : pending d (<[e := h0]> m)).
  { apply pending_alloc; [done|done|]. destruct handle; lia. }
  destruct handle; simpl.
  - assert (Hinv3 : shard_inv s3).
    { apply shard_inv_intro; try done.
      apply lru_part_restore.
      + by rewrite delete_id.
      + apply evictable_false_refs. lia. }
    destruct (Free_all_post d s3 Hinv3 Hpend3)
      as (s5 & Hfree & Hinv5 & Htb & Hl & Hu & _ & Hc & Hs & Hdc & Hheap).
    fold s3. rewrite Hfree. simpl.
    exists s5, h0. split_and!; try done.
    + rewrite Hheap, decide_False by done. apply lookup_insert_eq.
    + intros q. rewrite Hheap. by destruct (decide (q ∈ d)).
    + rewrite Hl. simpl. split; [done|discriminate].
  - destruct (LRU_Insert_spec s3 e h0)
      as (m' & l' & c' & lu' & hu' & Hrun & Heq & Hpart').
    { apply lookup_insert_eq. }
    { by apply evictable_intro. }
    { simpl. by rewrite delete_insert_id. }
    { done. }
    fold s3. rewrite Hrun. simpl.
    destruct (Free_all_post d (relinked m' l' c' lu' hu' s3))
      as (s5 & Hfree & Hinv5 & Htb & Hl & Hu & _ & Hc & Hs & Hdc & Hheap).
    { by apply shard_inv_relinked. }
    { by apply (pending_flag_eq _ (<[e := h0]> m)). }
    rewrite Hfree. simpl. simpl in Hheap.
    destruct (flag_eq_lookup _ _ e h0 Heq (lookup_insert_eq _ _ _))
      as (h1 & Hh1 & Hsame).
    exists s5, h1. split_and!; try done.
    + by rewrite Hheap, decide_False.
    + intros q. rewrite Hheap. destruct (decide (q ∈ d)); [done|].
      apply Heq.
    + rewrite Hl. simpl. split; [done|]. intros _.
      destruct Hpart' as ((_ & Htr) & _). apply Htr. exists h1.
      split; [done|].
      rewrite (flag_blind_eq evictable h0 h1 flag_blind_evictable Hsame).
      by apply evictable_intro.
Qed.

Lemma fmap_flag_None (o : option LRUHandle) :
  SetInHighPriPool false <$> o = None → o = None.
Proof. by destruct o. Qed.

Lemma fmap_flag_Some (o : option LRUHandle) h :
  SetInHighPriPool false <$> o = Some (SetInHighPriPool false h) →
  ∃ h', o = Some h' ∧ in_cache h' = in_cache h ∧ refs h' = refs h ∧
        charge h' = charge h ∧ value h' = value h ∧
        key_data h' = key_data h ∧ hash h' = hash h.
Proof.
  destruct o as [h'|]; [|done]. simpl. intros Heq.
  apply (inj Some) in Heq.
  exists h'. split; [done|].
  split_and!.
  - exact (f_equal in_cache Heq).
  - exact (f_equal refs Heq).
  - exact (f_equal charge Heq).
  - exact (f_equal value Heq).
  - exact (f_equal key_data Heq).
  - exact (f_equal hash Heq).
Qed.

(** An [Insert] that takes the record in: what the code computes after
    [EvictFromLRU] returned [d] and [s1]. [old] is the record that the table
    held under the key. *)
Lemma Insert_admitted s e key hash0 value0 charge0 deleter0 handle priority
    d s1 :
  Inv s → heap s !! e = None → 0 ≤ charge0 < 2 ^ 64 →
  EvictFromLRU charge0 []
    (set_heap (<[e := new_handle key hash0 value0 charge0 deleter0 handle
                        priority]> (heap s)) s)
  = Some (d, s1) →
  (capacity_ s1 <? wrap64 (wrap64 (usage_ s1 - lru_usage_ s1) + charge0))
  && (strict_capacity_limit_ s1 || negb handle) = false →
  is_Some (LRUHandleTable.Insert (heap s1) e (table_ s1)) →
  ∃ old s' h1,
    LRUHandleTable.Lookup (heap s1) key hash0 (table_ s1) = Some old ∧
    Insert e key hash0 value0 charge0 deleter0 handle priority s
    = Some (OK, if handle then Some e else None, s') ∧
    Inv s' ∧
    heap s' !! e = Some h1 ∧
    SetInHighPriPool false h1
    = SetInHighPriPool false
        (new_handle key hash0 value0 charge0 deleter0 handle priority) ∧
    (∀ q, q ∈ entries (table_ s') ↔
          q = e ∨ (q ∈ entries (table_ s1) ∧ Some q ≠ old)) ∧
    (e ∈ lru_ s' ↔ handle = false) ∧
    capacity_ s' = capacity_ s1 ∧
    match old with
    | None =>
        usage_ s' = wrap64 (usage_ s1 + charge0) ∧
        (deleter_calls s').*1 = (deleter_calls s).*1 ++ d
    | Some o =>
        ∃ ho, heap s1 !! o = Some ho ∧
          if refs ho =? 1
          then heap s' !! o = None ∧
               usage_ s' = wrap64 (usage_ s1 + charge0 - charge ho) ∧
               (deleter_calls s').*1 = (deleter_calls s).*1 ++ d ++ [o]
          else (∃ ho', heap s' !! o = Some ho' ∧ in_cache ho' = false ∧
                       refs ho' = refs ho - 1 ∧ charge ho' = charge ho) ∧
               usage_ s' = wrap64 (usage_ s1 + charge0) ∧
               (deleter_calls s').*1 = (deleter_calls s).*1 ++ d
    end.
Proof.
  intros Hinv He Hc Hev Hcond Hsmall.
  destruct (Insert_reject s e key hash0 value0 charge0 deleter0 handle
              priority Hinv He)
    as (k & s2 & Hev2 & Hinv2 & Hevd & He2 & Hnot & _).
  simpl in Hev2.
  set (h0 := new_handle key hash0 value0 charge0 deleter0 handle priority)
    in *.
  rewrite Hev in Hev2. injection Hev2 as -> ->.
  simpl in Hcond, Hsmall. simpl.
  unfold Insert. rewrite He. fold h0. simpl. rewrite Hev. simpl.
  rewrite Hcond.
  pose proof Hinv2 as (Hstore2 & Hwf2 & Hlru2 & Hhc2 & Hratio2 & Hcap2).
  destruct Hinv as [Hsinv Hpend].
  pose proof (evicted_pending k s s2 Hsinv Hpend Hevd) as Hpend2.
  assert (Hdcs : deleter_calls s2 = deleter_calls s).
  { by destruct Hevd as (_ & _ & _ & _ & ? & _). }
  set (d := take k (lru_ s)) in *.
  assert (Hfresh : e ∉ entries (table_ s2)).
  { destruct Hstore2 as (_ & Htr & _). by apply (tracks_not_elem _ _ _ _ Htr). }
  assert (Hwf_a : table_wf (<[e := h0]> (heap s2)) (table_ s2))
    by (by apply table_wf_insert_other).
  destruct Hsmall as [[r tb'] Htab].
  destruct (table_Insert_wf _ _ e h0 r tb' Hwf_a (lookup_insert_eq _ _ _)
              Hfresh Htab) as (Hlook & Hwf' & Hents).
  rewrite Htab. simpl. unfold UsageAdd. simpl.
  rewrite lookup_insert_eq. simpl.
  assert (Hh0in : in_cache h0 = true) by done.
  assert (Hh0refs : refs h0 = if handle then 2 else 1) by done.
  exists r.
  destruct r as [old|].
  - destruct Hents as (t1 & t2 & Ht & Ht').
    assert (Hold_in : old ∈ entries (table_ s2)).
    { rewrite Ht. apply elem_of_app. right. apply elem_of_cons. by left. }
    assert (Hne : old ≠ e) by (by intros ->).
    pose proof Hstore2 as (_ & Htr2 & _).
    destruct (proj1 (Htr2 old) Hold_in) as (ho & Hho & Hho_in).
    destruct (store_inv_refs _ _ _ _ _ Hstore2 Hho) as (Hr & Hch & Hpos).
    specialize (Hpos Hho_in).
    assert (Hnd_t : NoDup (t1 ++ old :: t2)).
    { rewrite <- Ht. by destruct Hwf2 as (_ & _ & _ & _ & _ & ? & _). }
    destruct (NoDup_middle_not_elem _ _ _ Hnd_t) as [Hn1 Hn2].
    assert (Hents_mid : ∀ q, q ∈ t1 ++ t2 ↔
              (q ≠ old ∧ q ∈ entries (table_ s2)) ∨
              (q = old ∧ in_cache (SetInCache false ho) = true)).
    { intros q. rewrite Ht, !elem_of_app, elem_of_cons. simpl. split.
      - intros [Hq|Hq]; left; (split; [by intros ->|]); tauto.
      - intros [[Hq [?|[?|?]]]|[_ ?]]; try done; tauto. }
    assert (Hents' : ∀ q, q ∈ entries tb' ↔ q = e ∨ q ∈ t1 ++ t2).
    { intros q. rewrite Ht', !elem_of_app, elem_of_cons. tauto. }
    assert (Hents_old : ∀ q, q ∈ entries tb' ↔
              q = e ∨ (q ∈ entries (table_ s2) ∧ Some q ≠ Some old)).
    { intros q. rewrite Hents', Ht, !elem_of_app, elem_of_cons. split.
      - intros [->|[Hq|Hq]]; [by left| |]; right;
          (split; [tauto|]); intros [= ->]; tauto.
      - intros [->|[[Hq|[->|Hq]] Hq']]; [by left|tauto|done|tauto]. }
    assert (Hold_d : old ∉ d).
    { destruct Hpend2 as [_ Htrd].
      intros (h2 & Hh2 & Hun%Z.eqb_eq)%Htrd. rewrite Hho in Hh2.
      injection Hh2 as <-. lia. }
    unfold update. simpl.
    rewrite lookup_insert_ne, Hho by done. simpl.
    unfold Unref. simpl.
    rewrite lookup_insert_eq. simpl.
    rewrite insert_insert_eq.
    rewrite wrap32_pred by lia.
    rewrite (insert_insert_ne _ old e) by done.
    destruct (decide (refs ho = 1)) as [Hone|Hmany].
    + rewrite Hone. change (1 - 1) with 0.
      rewrite bool_decide_eq_true_2 by done. simpl.
      unfold UsageSub. simpl.
      rewrite lookup_insert_ne, lookup_insert_eq by done.
      simpl. fold (retire ho).
      match goal with
      | |- context [LRU_Remove old ?sc] =>
          destruct (LRU_Remove_spec sc (heap s2) old (retire ho) ho)
            as (l1 & l2 & c & lu & hu & Hsplit & Hrem & Hpart)
      end; simpl; try done.
      { by apply evictable_intro. }
      { by rewrite lookup_insert_ne, lookup_insert_eq. }
      rewrite Hrem. simpl.
      rewrite wrap64_add_sub_swap.
      destruct (Insert_finish_post (<[old := retire ho]> (heap s2))
                  (t1 ++ t2) (wrap64 (usage_ s2 - charge ho))
                  e h0 (d ++ [old]) handle tb' (l1 ++ l2) c lu hu
                  (deleter_calls s2) (capacity_ s2)
                  (strict_capacity_limit_ s2) (high_pri_pool_ratio_ s2)
                  (high_pri_pool_capacity_ s2))
        as (s5 & h1 & Hfull & Hinv5 & Htb5 & Hu5 & Hc5 & _ & Hdc5 & Hh1
            & Hsame & Hframe & Hlist); try done.
      * apply (store_inv_update _ _ _ _ ho (retire ho) _ _ Hstore2 Hho);
          simpl; try done.
        unfold weight, live. simpl. rewrite Hone. simpl.
        f_equal. lia.
      * by rewrite lookup_insert_ne.
      * apply lru_part_restore; [done|]. by apply evictable_false_cache.
      * apply (pending_retired d [old] (heap s2) _ _ _ Hstore2 Hpend2).
        -- apply NoDup_singleton.
        -- intros p ->%list_elem_of_singleton. exists ho.
           split; [done|]. by apply evictable_intro.
        -- intros p. destruct (decide (p ∈ [old])) as [Hp|Hp].
           ++ apply list_elem_of_singleton in Hp as ->.
              by rewrite lookup_insert_eq, Hho.
           ++ rewrite lookup_insert_ne; [done|].
              intros <-. apply Hp. by apply list_elem_of_singleton.
      * rewrite (insert_insert_ne _ e old) by done.
        by apply (table_wf_update _ _ _ ho); [|rewrite lookup_insert_ne|..].
      * exists s5, h1. split; [done|]. split; [exact Hfull|].
        split_and!; try done.
        -- intros q. by rewrite Htb5.
        -- exists ho. split; [done|].
           rewrite (proj2 (Z.eqb_eq _ _) Hone). split_and!.
           ++ apply fmap_flag_None. rewrite (Hframe old).
              rewrite decide_True; [done|].
              apply elem_of_app. right. by apply list_elem_of_singleton.
           ++ rewrite Hu5, wrap64_add_l. f_equal. simpl. lia.
           ++ rewrite Hdc5, Hdcs. by rewrite app_assoc.
    + rewrite bool_decide_eq_false_2 by lia. simpl.
      set (hm := set_refs (refs ho - 1) (SetInCache false ho)) in *.
      destruct (Insert_finish_post (<[old := hm]> (heap s2)) (t1 ++ t2)
                  (usage_ s2)
                  e h0 d handle tb' (lru_ s2) (lru_low_pri_ s2)
                  (lru_usage_ s2)
                  (high_pri_pool_usage_ s2) (deleter_calls s2) (capacity_ s2)
                  (strict_capacity_limit_ s2) (high_pri_pool_ratio_ s2)
                  (high_pri_pool_capacity_ s2))
        as (s5 & h1 & Hfull & Hinv5 & Htb5 & Hu5 & Hc5 & _ & Hdc5 & Hh1
            & Hsame & Hframe & Hlist); try done.
      * apply (store_inv_update _ _ _ _ ho hm _ _ Hstore2 Hho);
          simpl; try done; try lia.
        unfold weight, live. simpl.
        replace (1 <=? refs ho - 1) with true
          by (symmetry; apply Z.leb_le; lia).
        replace (1 <=? refs ho) with true by (symmetry; apply Z.leb_le; lia).
        rewrite Z.add_simpl_r.
        destruct Hstore2 as (_ & _ & ->). by rewrite wrap64_idemp.
      * by rewrite lookup_insert_ne.
      * apply lru_part_restore; [|done].
        apply (lru_part_forget _ _ _ _ _ _ ho); [done..|].
        apply evictable_false_refs. lia.
      * destruct Hpend2 as [Hnd_d Htr_d]. split; [done|].
        apply (tracks_update _ _ _ _ ho); [done..|].
        unfold unreferenced. simpl.
        transitivity false; [|symmetry]; apply Z.eqb_neq; lia.
      * rewrite (insert_insert_ne _ e old) by done.
        by apply (table_wf_update _ _ _ ho); [|rewrite lookup_insert_ne|..].
      * exists s5, h1. split; [done|]. split; [exact Hfull|].
        split_and!; try done.
        -- intros q. by rewrite Htb5.
        -- exists ho. split; [done|].
           rewrite (proj2 (Z.eqb_neq _ _) Hmany). split_and!.
           ++ destruct (fmap_flag_Some (heap s5 !! old) hm)
                as (ho' & Hho' & Hi' & Hr' & Hc' & _).
              { rewrite (Hframe old), decide_False by done.
                by rewrite lookup_insert_ne, lookup_insert_eq. }
              by exists ho'.
           ++ by rewrite Hu5.
           ++ by rewrite Hdc5, Hdcs.
  - destruct (Insert_finish_post (heap s2) (entries (table_ s2)) (usage_ s2)
                e h0 d handle tb' (lru_ s2) (lru_low_pri_ s2) (lru_usage_ s2)
                (high_pri_pool_usage_ s2) (deleter_calls s2) (capacity_ s2)
                (strict_capacity_limit_ s2) (high_pri_pool_ratio_ s2)
                (high_pri_pool_capacity_ s2))
      as (s5 & h1 & Hfull & Hinv5 & Htb5 & Hu5 & Hc5 & _ & Hdc5 & Hh1
          & Hsame & Hframe & Hlist); try done.
    { intros q. rewrite Hents. apply elem_of_cons. }
    exists s5, h1. split; [done|]. split; [exact Hfull|].
    split_and!; try done.
    + intros q. rewrite Htb5, Hents, elem_of_cons. split.
      * intros [->|Hq]; [by left|]. right. by split.
      * intros [->|[Hq _]]; [by left|by right].
    + by rewrite Hdc5, Hdcs.
Qed.

End insert_post.

(** * What the operations leave alone *)

Section frames.

Implicit Types (s : t) (e : positive).

Lemma same_config_refl s : same_config s s.
Proof. by unfold same_config. Qed.

Lemma same_config_trans s1 s2 s3 :
  same_config s1 s2 → same_config s2 s3 → same_config s1 s3.
Proof. unfold same_config. intros (?&?&?&?&?) (?&?&?&?&?). split_and!; congruence. Qed.

Lemma update_config f e s s' : update f e s = Some s' → same_config s s'.
Proof. unfold update. intros H. by simplify_option_eq. Qed.

Lemma Unref_config e s r : Unref e s = Some r → same_config s r.2.
Proof. unfold Unref. intros H. by simplify_option_eq. Qed.

Lemma UsageSub_config e s s' : UsageSub e s = Some s' → same_config s s'.
Proof. unfold UsageSub. intros H. by simplify_option_eq. Qed.

Lemma UsageAdd_config e s s' : UsageAdd e s = Some s' → same_config s s'.
Proof. unfold UsageAdd. intros H. by simplify_option_eq. Qed.

Lemma LRUUsageAdd_config e s s' : LRUUsageAdd e s = Some s' → same_config s s'.
Proof. unfold LRUUsageAdd. intros H. by simplify_option_eq. Qed.

Lemma HighPriPoolUsageAdd_config e s s' :
  HighPriPoolUsageAdd e s = Some s' → same_config s s'.
Proof. unfold HighPriPoolUsageAdd. intros H. by simplify_option_eq. Qed.

Lemma HighPriPoolUsageSub_config e s s' :
  HighPriPoolUsageSub e s = Some s' → same_config s s'.
Proof. unfold HighPriPoolUsageSub. intros H. by simplify_option_eq. Qed.

Lemma Free_config e s s' : Free e s = Some s' → same_config s s'.
Proof. unfold Free. intros H. by simplify_option_eq. Qed.

Lemma Free_all_config l : ∀ s s', Free_all l s = Some s' → same_config s s'.
Proof.
  induction l as [|e l IH]; intros s s'; simpl.
  - intros [= <-]. apply same_config_refl.
  - destruct (Free e s) as [s1|] eqn:Hfree; [|done]. simpl. intros Hrest.
    eapply same_config_trans; [by eapply Free_config|by apply IH].
Qed.

Lemma LRU_Remove_config e s s' : LRU_Remove e s = Some s' → same_config s s'.
Proof.
  unfold LRU_Remove, LRUUsageSub, HighPriPoolUsageSub. intros H.
  simplify_option_eq; repeat case_decide; repeat case_match; by simplify_eq.
Qed.

Lemma MaintainPoolSize_loop_config fuel : ∀ s s',
  MaintainPoolSize_loop fuel s = Some s' → same_config s s'.
Proof.
  induction fuel as [|fuel IH]; intros s s';
    rewrite MaintainPoolSize_loop_unfold;
    destruct (Qgtb _ _); try done;
    try (intros [= <-]; apply same_config_refl).
  destruct (after (lru_low_pri_ s) (lru_ s)) as [n|]; [|done]. simpl.
  destruct (lru_ s !! n) as [c|]; [|done]. simpl.
  destruct (update _ c _) as [s2|] eqn:Hup; [|done]. simpl.
  destruct (HighPriPoolUsageSub c s2) as [s3|] eqn:Hsub; [|done]. simpl.
  intros Hrest.
  apply update_config in Hup. apply HighPriPoolUsageSub_config in Hsub.
  apply IH in Hrest.
  eapply same_config_trans; [|exact Hrest].
  eapply same_config_trans; [|exact Hsub].
  exact Hup.
Qed.

Lemma LRU_Insert_config e s s' : LRU_Insert e s = Some s' → same_config s s'.
Proof.
  unfold LRU_Insert.
  destruct (heap s !! e) as [h|]; [|done]. simpl.
  destruct (bool_decide (e ∈ lru_ s)); [done|].
  destruct (Qgtb _ _ && _).
  - destruct (update _ e _) as [s2|] eqn:Hup; [|done]. simpl.
    destruct (HighPriPoolUsageAdd e s2) as [s3|] eqn:Hadd; [|done]. simpl.
    destruct (MaintainPoolSize s3) as [s4|] eqn:Hm; [|done]. simpl.
    intros Hlast.
    apply update_config in Hup. apply HighPriPoolUsageAdd_config in Hadd.
    apply MaintainPoolSize_loop_config in Hm.
    apply LRUUsageAdd_config in Hlast.
    eapply same_config_trans; [|exact Hlast].
    eapply same_config_trans; [|exact Hm].
    eapply same_config_trans; [|exact Hadd].
    exact Hup.
  - destruct (after _ _) as [n|]; [|done]. simpl.
    destruct (update _ e _) as [s2|] eqn:Hup; [|done]. simpl.
    intros Hlast.
    apply update_config in Hup. apply LRUUsageAdd_config in Hlast.
    eapply same_config_trans; [|exact Hlast]. exact Hup.
Qed.

Lemma table_Remove_length m key hash0 tb r :
  LRUHandleTable.Remove m key hash0 tb = Some r →
  LRUHandleTable.length_ r.2 = LRUHandleTable.length_ tb.
Proof.
  unfold LRUHandleTable.Remove. intros H.
  simplify_option_eq; repeat case_match; by simplify_eq.
Qed.

Lemma evict_entry_config old s s' :
  evict_entry old s = Some s' → same_config s s'.
Proof.
  unfold evict_entry.
  destruct (LRU_Remove old s) as [s1|] eqn:Hrem; [|done]. simpl.
  destruct (heap s1 !! old) as [h|]; [|done]. simpl.
  destruct (LRUHandleTable.Remove _ _ _ _) as [r|] eqn:Htab; [|done]. simpl.
  destruct (update _ old _) as [s3|] eqn:Hup; [|done]. simpl.
  destruct (Unref old s3) as [r'|] eqn:Hunref; [|done]. simpl.
  intros Hsub.
  apply LRU_Remove_config in Hrem. apply table_Remove_length in Htab.
  apply update_config in Hup. apply Unref_config in Hunref.
  apply UsageSub_config in Hsub.
  eapply same_config_trans; [|exact Hsub].
  eapply same_config_trans; [|exact Hunref].
  eapply same_config_trans; [|exact Hup].
  destruct Hrem as (Hl & Hc & Hs & Hr & Hh).
  unfold same_config. simpl. rewrite Htab, Hl. done.
Qed.

Lemma EvictFromLRU_loop_config fuel : ∀ charge0 deleted s r,
  EvictFromLRU_loop fuel charge0 deleted s = Some r → same_config s r.2.
Proof.
  induction fuel as [|fuel IH]; intros charge0 deleted s r;
    rewrite EvictFromLRU_loop_unfold;
    destruct (_ && _); try done;
    try (intros [= <-]; apply same_config_refl).
  destruct (head (lru_ s)) as [old|]; [|done]. simpl.
  destruct (evict_entry old s) as [s1|] eqn:Hev; [|done]. simpl.
  intros Hrest. apply evict_entry_config in Hev. apply IH in Hrest.
  by eapply same_config_trans.
Qed.

Lemma EraseUnRefEntries_loop_config fuel : ∀ deleted s r,
  EraseUnRefEntries_loop fuel deleted s = Some r → same_config s r.2.
Proof.
  induction fuel as [|fuel IH]; intros deleted s r;
    rewrite EraseUnRefEntries_loop_unfold;
    destruct (bool_decide _); try done;
    try (intros [= <-]; apply same_config_refl).
  destruct (head (lru_ s)) as [old|]; [|done]. simpl.
  destruct (evict_entry old s) as [s1|] eqn:Hev; [|done]. simpl.
  intros Hrest. apply evict_entry_config in Hev. apply IH in Hrest.
  by eapply same_config_trans.
Qed.

Lemma same_config_limits s s' : same_config s s' → same_limits s s'.
Proof. by intros (_ & ?). Qed.

Lemma Lookup_config key hash0 s r :
  Lookup key hash0 s = Some r → same_config s r.2.
Proof.
  unfold Lookup.
  destruct (LRUHandleTable.Lookup _ _ _ _) as [[e|]|]; simpl; try done.
  2: { intros [= <-]. apply same_config_refl. }
  destruct (heap s !! e) as [h|]; [|done]. simpl.
  destruct (if refs h =? 1 then LRU_Remove e s else Some s) as [s1|] eqn:H1;
    [|done]. simpl.
  destruct (update _ e s1) as [s2|] eqn:Hup; [|done]. simpl.
  intros [= <-]. simpl.
  apply update_config in Hup.
  eapply same_config_trans; [|exact Hup].
  destruct (refs h =? 1).
  - by apply LRU_Remove_config in H1.
  - injection H1 as <-. apply same_config_refl.
Qed.

Lemma Ref_config e s r : Ref e s = Some r → same_config s r.2.
Proof.
  unfold Ref.
  destruct (heap s !! e) as [h|]; [|done]. simpl.
  destruct (if InCache h && (refs h =? 1) then LRU_Remove e s else Some s)
    as [s1|] eqn:H1; [|done]. simpl.
  destruct (update _ e s1) as [s2|] eqn:Hup; [|done]. simpl.
  intros [= <-]. simpl.
  apply update_config in Hup.
  eapply same_config_trans; [|exact Hup].
  destruct (InCache h && (refs h =? 1)).
  - by apply LRU_Remove_config in H1.
  - injection H1 as <-. apply same_config_refl.
Qed.

Lemma Release_config handle force s r :
  Release handle force s = Some r → same_config s r.2.
Proof.
  unfold Release. destruct handle as [e|].
  2: { intros [= <-]. apply same_config_refl. }
  destruct (Unref e s) as [r1|] eqn:Hun; [|done]. simpl.
  destruct (if r1.1 then UsageSub e r1.2 else Some r1.2) as [s2|] eqn:H2;
    [|done]. simpl.
  assert (Hc2 : same_config s s2).
  { apply Unref_config in Hun.
    eapply same_config_trans; [exact Hun|].
    destruct r1.1.
    - by apply UsageSub_config in H2.
    - injection H2 as <-. apply same_config_refl. }
  destruct (heap s2 !! e) as [h|]; [|done]. simpl.
  match goal with
  | |- context [(?x ≫= _) = Some r] => destruct x as [r3|] eqn:H3; [|done]
  end.
  simpl.
  assert (Hc3 : same_config s2 r3.2).
  { destruct ((refs h =? 1) && InCache h).
    - destruct ((capacity_ s2 <? usage_ s2) || force).
      + destruct (LRUHandleTable.Remove _ _ _ _) as [rt|] eqn:Htab; [|done].
        simpl in H3.
        destruct (update _ e _) as [s3|] eqn:Hup; [|done]. simpl in H3.
        destruct (Unref e s3) as [r'|] eqn:Hun2; [|done]. simpl in H3.
        destruct (UsageSub e r'.2) as [s5|] eqn:Hsub; [|done]. simpl in H3.
        injection H3 as <-. simpl.
        apply table_Remove_length in Htab. apply update_config in Hup.
        apply Unref_config in Hun2. apply UsageSub_config in Hsub.
        eapply same_config_trans; [|exact Hsub].
        eapply same_config_trans; [|exact Hun2].
        eapply same_config_trans; [|exact Hup].
        unfold same_config. simpl. by rewrite Htab.
      + destruct (LRU_Insert e s2) as [s3|] eqn:Hins; [|done]. simpl in H3.
        injection H3 as <-. simpl. by apply (LRU_Insert_config e).
    - injection H3 as <-. apply same_config_refl. }
  destruct (if r3.1 then Free e r3.2 else Some r3.2) as [s4|] eqn:H4;
    [|done]. simpl.
  intros [= <-]. simpl.
  eapply same_config_trans; [exact Hc2|].
  eapply same_config_trans; [exact Hc3|].
  destruct r3.1.
  - by apply Free_config in H4.
  - injection H4 as <-. apply same_config_refl.
Qed.

Lemma Erase_config key hash0 s s' :
  Erase key hash0 s = Some s' → same_config s s'.
Proof.
  unfold Erase.
  destruct (LRUHandleTable.Remove _ _ _ _) as [rt|] eqn:Htab; [|done]. simpl.
  apply table_Remove_length in Htab.
  assert (Hc1 : same_config s (set_table rt.2 s)).
  { unfold same_config. simpl. by rewrite Htab. }
  destruct rt.1 as [e|].
  2: { intros [= <-]. exact Hc1. }
  destruct (Unref e _) as [r2|] eqn:Hun; [|done]. simpl.
  apply Unref_config in Hun.
  destruct (heap r2.2 !! e) as [h|]; [|done]. simpl.
  destruct (if r2.1 && InCache h then LRU_Remove e r2.2 else Some r2.2)
    as [s3|] eqn:H3; [|done]. simpl.
  assert (Hc3 : same_config r2.2 s3).
  { destruct (r2.1 && InCache h).
    - by apply LRU_Remove_config in H3.
    - injection H3 as <-. apply same_config_refl. }
  destruct (if r2.1 then UsageSub e s3 else Some s3) as [s4|] eqn:H4;
    [|done]. simpl.
  assert (Hc4 : same_config s3 s4).
  { destruct r2.1.
    - by apply UsageSub_config in H4.
    - injection H4 as <-. apply same_config_refl. }
  destruct (update _ e s4) as [s5|] eqn:Hup; [|done]. simpl.
  apply update_config in Hup.
  intros H6.
  assert (Hc6 : same_config s5 s').
  { destruct r2.1.
    - by apply Free_config in H6.
    - injection H6 as <-. apply same_config_refl. }
  eapply same_config_trans; [exact Hc1|].
  eapply same_config_trans; [exact Hun|].
  eapply same_config_trans; [exact Hc3|].
  eapply same_config_trans; [exact Hc4|].
  eapply same_config_trans; [exact Hup|exact Hc6].
Qed.

Lemma EraseUnRefEntries_config s s' :
  EraseUnRefEntries s = Some s' → same_config s s'.
Proof.
  unfold EraseUnRefEntries.
  destruct (EraseUnRefEntries_loop _ _ _) as [r|] eqn:Hloop; [|done]. simpl.
  intros Hfree. apply EraseUnRefEntries_loop_config in Hloop.
  apply Free_all_config in Hfree. by eapply same_config_trans.
Qed.

Lemma SetCapacity_config capacity s s' :
  SetCapacity capacity s = Some s' →
  LRUHandleTable.length_ (table_ s') = LRUHandleTable.length_ (table_ s) ∧
  capacity_ s' = capacity ∧
  strict_capacity_limit_ s' = strict_capacity_limit_ s ∧
  high_pri_pool_ratio_ s' = high_pri_pool_ratio_ s ∧
  high_pri_pool_capacity_ s'
  = (inject_Z capacity * high_pri_pool_ratio_ s)%Q.
Proof.
  unfold SetCapacity.
  destruct (EvictFromLRU _ _ _) as [r|] eqn:Hev; [|done]. simpl.
  intros Hfree. apply EvictFromLRU_loop_config in Hev.
  apply Free_all_config in Hfree.
  destruct (same_config_trans _ _ _ Hev Hfree) as (? & ? & ? & ? & ?).
  done.
Qed.

Lemma SetHighPriorityPoolRatio_config ratio s s' :
  SetHighPriorityPoolRatio ratio s = Some s' →
  LRUHandleTable.length_ (table_ s') = LRUHandleTable.length_ (table_ s) ∧
  capacity_ s' = capacity_ s ∧
  strict_capacity_limit_ s' = strict_capacity_limit_ s ∧
  high_pri_pool_ratio_ s' = ratio ∧
  high_pri_pool_capacity_ s' = (inject_Z (capacity_ s) * ratio)%Q.
Proof.
  unfold SetHighPriorityPoolRatio. intros Hm.
  apply MaintainPoolSize_loop_config in Hm.
  destruct Hm as (? & ? & ? & ? & ?). done.
Qed.

(** [Insert] keeps the limits; the table is the one that
    [LRUHandleTable::Insert] returned, or has the length it had. *)
Lemma Insert_config e key hash0 value0 charge0 deleter0 handle priority s r :
  Insert e key hash0 value0 charge0 deleter0 handle priority s = Some r →
  same_limits s r.2 ∧
  (LRUHandleTable.length_ (table_ r.2) = LRUHandleTable.length_ (table_ s) ∨
   ∃ d s1 rt,
     EvictFromLRU charge0 []
       (set_heap (<[e := new_handle key hash0 value0 charge0 deleter0 handle
                           priority]> (heap s)) s)
     = Some (d, s1) ∧
     LRUHandleTable.Insert (heap s1) e (table_ s1) = Some rt ∧
     LRUHandleTable.length_ (table_ r.2) = LRUHandleTable.length_ rt.2).
Proof.
  unfold Insert. destruct (heap s !! e); [done|].
  set (h0 := new_handle key hash0 value0 charge0 deleter0 handle priority).
  simpl.
  destruct (EvictFromLRU _ _ _) as [[d s1]|] eqn:Hev; [|done]. simpl.
  pose proof (EvictFromLRU_loop_config _ _ _ _ _ Hev) as Hc1.
  simpl in Hc1.
  destruct (_ && _).
  - intros Hr.
    assert (same_config s r.2) as Hc;
      [revert Hr|split; [by apply same_config_limits|left; apply Hc]].
    destruct handle; simpl.
    + destruct (Free_all d (set_heap (delete e (heap s1)) s1))
        as [s3|] eqn:Hfree; [|done]. simpl.
      intros [= <-]. simpl. apply Free_all_config in Hfree.
      eapply same_config_trans; [exact Hc1|]. exact Hfree.
    + destruct (Free_all (d ++ [e]) s1) as [s3|] eqn:Hfree; [|done]. simpl.
      intros [= <-]. simpl. apply Free_all_config in Hfree.
      by eapply same_config_trans.
  - destruct (LRUHandleTable.Insert _ _ _) as [rt|] eqn:Htab; [|done]. simpl.
    destruct (UsageAdd e _) as [s2|] eqn:Hadd; [|done]. simpl.
    apply UsageAdd_config in Hadd.
    match goal with
    | |- context [(?x ≫= _) = Some r] => destruct x as [r3|] eqn:H3; [|done]
    end.
    simpl.
    assert (Hc3 : same_config s2 r3.2).
    { destruct rt.1 as [old|].
      - destruct (update _ old s2) as [s3|] eqn:Hup; [|done]. simpl in H3.
        destruct (Unref old s3) as [ru|] eqn:Hun; [|done]. simpl in H3.
        apply update_config in Hup. apply Unref_config in Hun.
        destruct ru.1.
        + destruct (UsageSub old ru.2) as [s4|] eqn:Hsub; [|done].
          simpl in H3.
          destruct (LRU_Remove old s4) as [s5|] eqn:Hrem; [|done].
          simpl in H3. injection H3 as <-. simpl.
          apply UsageSub_config in Hsub. apply LRU_Remove_config in Hrem.
          eapply same_config_trans; [exact Hup|].
          eapply same_config_trans; [exact Hun|].
          by eapply same_config_trans.
        + injection H3 as <-. simpl. by eapply same_config_trans.
      - injection H3 as <-. apply same_config_refl. }
    match goal with
    | |- context [(?x ≫= _) = Some r] => destruct x as [r4|] eqn:H4; [|done]
    end.
    simpl.
    assert (Hc4 : same_config r3.2 r4.2).
    { destruct (negb handle).
      - destruct (LRU_Insert e r3.2) as [s4|] eqn:Hins; [|done].
        simpl in H4. injection H4 as <-. simpl. by apply (LRU_Insert_config e).
      - injection H4 as <-. apply same_config_refl. }
    destruct (Free_all r3.1 r4.2) as [s5|] eqn:Hfree; [|done]. simpl.
    intros [= <-]. simpl. apply Free_all_config in Hfree.
    pose proof (same_config_trans _ _ _ Hadd
                  (same_config_trans _ _ _ Hc3
                     (same_config_trans _ _ _ Hc4 Hfree))) as Hall.
    split.
    + destruct Hall as (_ & ? & ? & ? & ?).
      destruct Hc1 as (_ & ? & ? & ? & ?).
      unfold same_limits. simpl in *. split_and!; congruence.
    + right. exists d, s1, rt. split; [done|]. split; [done|].
      by destruct Hall as (? & _).
Qed.

End frames.

(** * [Insert]: the outcomes, and what [Lookup] finds afterwards *)

Section insert_outcomes.

Lemma Lookup_returns_linked s key hash0 e h :
  Inv s → e ∈ entries (table_ s) → heap s !! e = Some h →
  key_data h = key → hash h = hash0 →
  ∃ s', Lookup key hash0 s = Some (Some e, s').
Proof.
  intros Hinv Hent Hh <- <-.
  pose proof Hinv as [(Hstore & Hwf & Hlru & _) _].
  unfold Lookup. rewrite (table_Lookup_entry _ _ e h Hwf Hent Hh). simpl.
  rewrite Hh. simpl.
  destruct (refs h =? 1) eqn:Hone.
  - apply Z.eqb_eq in Hone.
    assert (Hev : evictable h = true).
    { apply evictable_intro; [|done].
      by apply (store_inv_in_cache _ _ _ _ _ Hstore Hh). }
    destruct (LRU_Remove_spec s (heap s) e h h Hlru Hh Hev Hh eq_refl eq_refl)
      as (l1 & l2 & c & lu & hu & Hsplit & Hrun & Hpart).
    rewrite Hrun. simpl. unfold update. simpl. rewrite Hh. simpl. by eexists.
  - simpl. unfold update. rewrite Hh. simpl. by eexists.
Qed.

(** X15: the three outcomes of [Insert] in a reachable state, for a record
    that [new] puts at a free address. It returns Incomplete and a null
    handle (only with a handle requested and a strict limit), or OK with the
    record dropped (only without a handle), in both cases with the record
    deallocated; or it returns OK with the record in the cache, and then: the
    handle, if requested, is the new record; the record holds the value,
    charge, hash and key given, with two references if a handle is out and
    one, and a place on the LRU list, if not; it is the record that the table
    and [Lookup] find under the key. *)
Theorem Insert_outcomes s e key hash0 value0 charge0 deleter0 handle priority
    st out s' :
  reachable s → heap s !! e = None → 0 ≤ charge0 < 2 ^ 64 →
  Insert e key hash0 value0 charge0 deleter0 handle priority s
  = Some (st, out, s') →
  (st = Incomplete ∧ out = None ∧ handle = true ∧
   strict_capacity_limit_ s = true ∧ heap s' !! e = None) ∨
  (st = OK ∧ out = None ∧ handle = false ∧ heap s' !! e = None ∧
   (e ∉ entries (table_ s'))) ∨
  (st = OK ∧ out = (if handle then Some e else None) ∧
   LRUCacheBase.Value (heap s') e = Some value0 ∧
   LRUCacheBase.GetCharge (heap s') e = Some charge0 ∧
   LRUCacheBase.GetHash (heap s') e = Some hash0 ∧
   (∃ h, heap s' !! e = Some h ∧ key_data h = key ∧ in_cache h = true ∧
         refs h = if handle then 2 else 1) ∧
   (e ∈ lru_ s' ↔ handle = false) ∧
   LRUHandleTable.Lookup (heap s') key hash0 (table_ s') = Some (Some e) ∧
   ∃ s'', Lookup key hash0 s' = Some (Some e, s'')).
Proof.
  intros Hinv%reachable_Inv He Hc Hrun.
  destruct (Insert_reject s e key hash0 value0 charge0 deleter0 handle
              priority Hinv He)
    as (k & s2 & Hev & Hinv2 & Hevd & He2 & Hnot & Hrej).
  simpl in Hev, Hrej.
  set (h0 := new_handle key hash0 value0 charge0 deleter0 handle priority)
    in *.
  destruct ((capacity_ s2
             <? wrap64 (wrap64 (usage_ s2 - lru_usage_ s2) + charge0))
            && (strict_capacity_limit_ s2 || negb handle)) eqn:Hcond.
  - destruct (Hrej eq_refl) as [Heq Hinv'].
    rewrite Heq in Hrun. injection Hrun as <- <- <-.
    assert (Hgone : delete_all (take k (lru_ s)) (heap s2) !! e = None).
    { rewrite delete_all_lookup. by destruct (decide _). }
    destruct handle.
    + left. split_and!; try done.
      apply andb_true_iff in Hcond as [_ Hs]. simpl in Hs.
      rewrite orb_false_r in Hs.
      by destruct Hevd as (_ & _ & _ & _ & _ & _ & <- & _).
    + right. left. split_and!; try done.
      by apply (Inv_unlinked _ _ Hinv').
  - right. right.
    assert (Htab : is_Some (LRUHandleTable.Insert (<[e := h0]> (heap s2)) e
                              (table_ s2))).
    { revert Hrun. unfold Insert. rewrite He. fold h0. simpl.
      rewrite Hev. simpl. rewrite Hcond.
      destruct (LRUHandleTable.Insert _ _ _) as [r|]; [by eexists|done]. }
    destruct (Insert_admitted s e key hash0 value0 charge0 deleter0 handle
                priority (take k (lru_ s))
                (set_heap (<[e := h0]> (heap s2)) s2) Hinv He Hc Hev Hcond
                Htab)
      as (old & s5 & h1 & _ & Heq & Hinv5 & Hh1 & Hsame & Hents & Hlist & _).
    rewrite Heq in Hrun. injection Hrun as <- <- <-.
    destruct (fmap_flag_Some (Some h1) h0) as (h' & [= <-] & Hi & Hr & Hch
                                                & Hv & Hk & Hh).
    { simpl. by rewrite Hsame. }
    assert (He5 : e ∈ entries (table_ s5)) by (apply Hents; by left).
    unfold LRUCacheBase.Value, LRUCacheBase.GetCharge, LRUCacheBase.GetHash.
    rewrite Hh1. simpl. rewrite Hv, Hch, Hh.
    split_and!; try done.
    + exists h1. by rewrite Hk, Hi, Hr.
    + pose proof Hinv5 as [(_ & Hwf5 & _) _].
      pose proof (table_Lookup_entry _ _ e h1 Hwf5 He5 Hh1) as Hfound.
      rewrite Hk, Hh in Hfound. exact Hfound.
    + by apply (Lookup_returns_linked s5 key hash0 e h1).
Qed.

Lemma Insert_outcomes_witness :
  ∃ s' s'',
    Insert 3 "b" 17 0 5 0 true LOW displaced_state = Some (OK, Some 3%positive, s')
    ∧ LRUCacheBase.Value (heap s') 3 = Some 0
    ∧ Lookup "b" 17 s' = Some (Some 3%positive, s'').
Proof.
  pose (s' := default blank
                ((λ r, r.2) <$>
                 Insert 3 "b" 17 0 5 0 true LOW displaced_state)).
  assert (Hrun : Insert 3 "b" 17 0 5 0 true LOW displaced_state
                 = Some (OK, Some 3%positive, s'))
    by (vm_compute; reflexivity).
  destruct (Insert_outcomes displaced_state 3 "b" 17 0 5 0 true LOW
              OK (Some 3%positive) s')
    as [(Hst & _)|[(_ & Hout & _)|(_ & _ & Hv & _ & _ & _ & _ & _ & s'' & Hl)]].
  - apply (boot_reachable 100 false 0
             [OpInsert 1 "a" 7 0 10 0 true LOW;
              OpInsert 2 "a" 7 0 20 0 false LOW]).
    vm_compute. reflexivity.
  - vm_compute. reflexivity.
  - vm_compute. split; [discriminate|reflexivity].
  - exact Hrun.
  - discriminate Hst.
  - discriminate Hout.
  - exists s', s''. split; [exact Hrun|]. split; [exact Hv|exact Hl].
Defined.

End insert_outcomes.

Section progress.

Lemma Insert_returns s e key hash0 value0 charge0 deleter0 handle priority :
  Inv s → heap s !! e = None → 0 ≤ charge0 < 2 ^ 64 →
  LRUHandleTable.length_ (table_ s) < 2 ^ 31 →
  ∃ r, Insert e key hash0 value0 charge0 deleter0 handle priority s = Some r.
Proof.
  intros Hinv He Hc Hsmall.
  destruct (Insert_reject s e key hash0 value0 charge0 deleter0 handle
              priority Hinv He)
    as (k & s2 & Hev & Hinv2 & Hevd & He2 & Hnot & Hrej).
  simpl in Hev, Hrej.
  set (h0 := new_handle key hash0 value0 charge0 deleter0 handle priority)
    in *.
  destruct ((capacity_ s2
             <? wrap64 (wrap64 (usage_ s2 - lru_usage_ s2) + charge0))
            && (strict_capacity_limit_ s2 || negb handle)) eqn:Hcond.
  - destruct (Hrej eq_refl) as [Heq _]. by eexists.
  - assert (Hlen : LRUHandleTable.length_ (table_ s2)
                   = LRUHandleTable.length_ (table_ s)).
    { pose proof (EvictFromLRU_loop_config _ _ _ _ _ Hev) as (Hl & _).
      exact Hl. }
    assert (Hfresh : e ∉ entries (table_ s2)).
    { pose proof Hinv2 as ((_ & Htr & _) & _).
      by apply (tracks_not_elem _ _ _ _ Htr). }
    assert (Hwf_a : table_wf (<[e := h0]> (heap s2)) (table_ s2)).
    { apply table_wf_insert_other; [apply Hinv2|done]. }
    destruct (table_Insert_total _ _ e h0 Hwf_a (lookup_insert_eq _ _ _)
                Hfresh) as (r & tb' & Htab & _); [lia|].
    destruct (Insert_admitted s e key hash0 value0 charge0 deleter0 handle
                priority (take k (lru_ s))
                (set_heap (<[e := h0]> (heap s2)) s2) Hinv He Hc Hev Hcond)
      as (old & s5 & h1 & _ & Heq & _).
    { by eexists. }
    by eexists.
Qed.

(** X16: in a reachable state every operation that the caller is entitled to
    completes: it reads no record that is not allocated, unlinks none that is
    not linked, links none that is linked, and its loops end. For [Insert]
    this holds while the table has fewer than 2^31 buckets. *)
Theorem operations_complete o s :
  reachable s → allowed o s →
  match o with
  | OpInsert _ _ _ _ _ _ _ _ => LRUHandleTable.length_ (table_ s) < 2 ^ 31
  | _ => True
  end →
  ∃ s', run_op o s = Some s' ∧ reachable s'.
Proof.
  intros Hreach Hall Hsmall.
  pose proof (reachable_Inv s Hreach) as Hinv.
  assert (Hrun : ∃ s', run_op o s = Some s').
  { destruct o; simpl in Hall |- *.
    - destruct Hall as (He & _ & Hc).
      destruct (Insert_returns s e key hash0 value0 charge0 deleter0 handle
                  priority Hinv He Hc Hsmall) as [r ->].
      by eexists.
    - destruct (Lookup_spec s key hash0 Hinv Hall) as (r & s2 & -> & _).
      by eexists.
    - destruct Hall as (h & Hh & Hmax).
      destruct (Ref_spec s handle h Hinv Hh Hmax) as (s2 & -> & _).
      by eexists.
    - destruct (Release_spec s handle force_erase Hinv) as (r & s2 & -> & _).
      { by destruct handle. }
      by eexists.
    - destruct (Erase_spec s key hash0 Hinv) as (s2 & -> & _). by eexists.
    - destruct (EraseUnRefEntries_spec s Hinv) as (s2 & -> & _). by eexists.
    - destruct (SetCapacity_spec s capacity Hinv Hall) as (s2 & -> & _).
      by eexists.
    - by eexists.
    - destruct (SetHighPriorityPoolRatio_spec s high_pri_pool_ratio Hinv Hall)
        as (s2 & -> & _).
      by eexists. }
  destruct Hrun as [s' Hrun]. exists s'. split; [done|].
  by apply (reachable_step o s s').
Qed.

Lemma operations_complete_witness :
  ∃ s', run_op (OpInsert 3 "b" 17 0 5 0 true LOW) displaced_state = Some s'
        ∧ reachable s'.
Proof.
  apply (operations_complete (OpInsert 3 "b" 17 0 5 0 true LOW)
           displaced_state).
  - apply (boot_reachable 100 false 0
             [OpInsert 1 "a" 7 0 10 0 true LOW;
              OpInsert 2 "a" 7 0 20 0 false LOW]).
    vm_compute. reflexivity.
  - apply allowedb_sound. vm_compute. reflexivity.
  - vm_compute. reflexivity.
Defined.

End progress.

(** * The sharded cache *)

Section cache_extras.

(** X17: the capacity that the constructor of the sharded cache gives each
    shard. When [capacity + (num_shards - 1)] fits [size_t] it is the
    capacity divided by the number of shards and rounded up, so the shards
    together hold at least the capacity asked for and less than one unit per
    shard more. When the sum wraps, which takes a capacity within
    [num_shards] of 2^64, every shard gets capacity 0. *)
Theorem per_shard_rounds_up capacity num_shards :
  0 ≤ capacity < 2 ^ 64 → 0 < num_shards ≤ 2 ^ 30 →
  if capacity + (num_shards - 1) <? 2 ^ 64
  then capacity ≤ num_shards * LRUCacheBase.per_shard capacity num_shards
       ∧ num_shards * LRUCacheBase.per_shard capacity num_shards
         < capacity + num_shards
  else LRUCacheBase.per_shard capacity num_shards = 0.
Proof.
  intros Hc Hn. unfold LRUCacheBase.per_shard.
  destruct (capacity + (num_shards - 1) <? 2 ^ 64) eqn:Hfit.
  - apply Z.ltb_lt in Hfit. rewrite wrap64_small by lia.
    pose proof (Z.mul_div_le (capacity + (num_shards - 1)) num_shards
                  ltac:(lia)).
    pose proof (Z.mul_succ_div_gt (capacity + (num_shards - 1)) num_shards
                  ltac:(lia)).
    lia.
  - apply Z.ltb_ge in Hfit.
    assert (Hw : wrap64 (capacity + (num_shards - 1))
                 = capacity + (num_shards - 1) - 2 ^ 64).
    { unfold wrap64. symmetry.
      apply (Z.mod_unique_pos _ _ 1); lia. }
    rewrite Hw. apply Z.div_small. lia.
Qed.

Lemma per_shard_rounds_up_witness :
  10 ≤ 4 * LRUCacheBase.per_shard 10 4
  ∧ 4 * LRUCacheBase.per_shard 10 4 < 10 + 4.
Proof.
  apply (per_shard_rounds_up 10 4).
  - vm_compute. split; [discriminate|reflexivity].
  - vm_compute. split; [reflexivity|discriminate].
Defined.






End cache_extras.

(** * The limits of the shard and the size of its table *)

Section limits_extras.

Implicit Types (s : t) (e : positive) (o : op).

(** What one operation does to the limits. *)
Lemma run_op_limits o s s' :
  run_op o s = Some s' →
  match o with
  | OpSetCapacity c =>
      capacity_ s' = c ∧
      strict_capacity_limit_ s' = strict_capacity_limit_ s ∧
      high_pri_pool_ratio_ s' = high_pri_pool_ratio_ s ∧
      high_pri_pool_capacity_ s' = (inject_Z c * high_pri_pool_ratio_ s)%Q
  | OpSetStrictCapacityLimit b =>
      capacity_ s' = capacity_ s ∧
      strict_capacity_limit_ s' = b ∧
      high_pri_pool_ratio_ s' = high_pri_pool_ratio_ s ∧
      high_pri_pool_capacity_ s' = high_pri_pool_capacity_ s
  | OpSetHighPriorityPoolRatio r =>
      capacity_ s' = capacity_ s ∧
      strict_capacity_limit_ s' = strict_capacity_limit_ s ∧
      high_pri_pool_ratio_ s' = r ∧
      high_pri_pool_capacity_ s' = (inject_Z (capacity_ s) * r)%Q
  | _ => same_limits s s'
  end.
Proof.
  intros Hrun. destruct o; simpl in Hrun.
  - destruct (Insert _ _ _ _ _ _ _ _ _) as [r|] eqn:Hins; [|done].
    simpl in Hrun. injection Hrun as <-.
    by destruct (Insert_config _ _ _ _ _ _ _ _ _ _ Hins).
  - destruct (Lookup _ _ _) as [r|] eqn:Heq; [|done].
    simpl in Hrun. injection Hrun as <-.
    by apply same_config_limits, (Lookup_config key hash0).
  - destruct (Ref _ _) as [r|] eqn:Heq; [|done].
    simpl in Hrun. injection Hrun as <-.
    by apply same_config_limits, (Ref_config handle).
  - destruct (Release _ _ _) as [r|] eqn:Heq; [|done].
    simpl in Hrun. injection Hrun as <-.
    by apply same_config_limits, (Release_config handle force_erase).
  - by apply same_config_limits, (Erase_config key hash0).
  - by apply same_config_limits, EraseUnRefEntries_config.
  - by destruct (SetCapacity_config _ _ _ Hrun) as (_ & ? & ? & ? & ?).
  - unfold SetStrictCapacityLimit in Hrun. by injection Hrun as <-.
  - by destruct (SetHighPriorityPoolRatio_config _ _ _ Hrun)
      as (_ & ? & ? & ? & ?).
Qed.

(** X19: no run of Insert, Lookup, Ref, Release, Erase and EraseUnRefEntries
    changes the capacity, the strict limit, the ratio of the high-priority
    pool or the capacity of that pool: whatever is evicted, freed or
    rehashed on the way, only the three setters change a limit. *)
Theorem limits_change_only_by_setters ops : ∀ s s',
  Forall (λ o, sets_limit o = false) ops →
  run ops s = Some s' →
  same_limits s s'.
Proof.
  induction ops as [|o ops IH]; intros s s' Hops; simpl.
  - by intros [= <-].
  - apply Forall_cons in Hops as [Ho Hops].
    destruct (allowedb o s); [|done].
    destruct (run_op o s) as [s1|] eqn:Hrun; [|done]. simpl.
    intros Hrest. apply (IH _ _ Hops) in Hrest.
    apply run_op_limits in Hrun.
    assert (Hone : same_limits s s1) by (by destruct o).
    destruct Hone as (? & ? & ? & ?), Hrest as (? & ? & ? & ?).
    unfold same_limits. split_and!; congruence.
Qed.

Lemma limits_change_only_by_setters_witness :
  ∃ s', run [OpLookup "a" 1; OpErase "c" 3; OpEraseUnRefEntries] crowded_state
        = Some s' ∧
        same_limits crowded_state s'.
Proof.
  destruct (run [OpLookup "a" 1; OpErase "c" 3; OpEraseUnRefEntries]
              crowded_state) as [s'|] eqn:Hrun.
  - exists s'. split; [reflexivity|].
    apply (limits_change_only_by_setters
             [OpLookup "a" 1; OpErase "c" 3; OpEraseUnRefEntries]
             crowded_state s'); [|exact Hrun].
    repeat constructor.
  - vm_compute in Hrun. discriminate Hrun.
Defined.



(** The table that [LRUHandleTable::Insert] leaves has the length it had, or
    twice that length when the table was full and the key is new. *)
Lemma table_Insert_length m tb e h r tb' :
  table_wf m tb → m !! e = Some h →
  LRUHandleTable.Insert m e tb = Some (r, tb') →
  LRUHandleTable.length_ tb' = LRUHandleTable.length_ tb ∨
  (r = None ∧ LRUHandleTable.elems_ tb = LRUHandleTable.length_ tb ∧
   LRUHandleTable.length_ tb' = 2 * LRUHandleTable.length_ tb).
Proof.
  intros Hwf He Hins.
  destruct (table_Insert_spec m tb e h Hwf He)
    as (chain & n & Hchain & Hn & Hlook & Heq).
  rewrite Hins in Heq.
  pose proof Hwf as (_ & (k & Hk & Hkr) & _ & Hle & _).
  destruct (chain !! n) as [old|].
  { injection Heq as -> ->. by left. }
  cbv zeta in Heq.
  destruct (LRUHandleTable.length_ tb <? LRUHandleTable.elems_ tb + 1)
    eqn:Hfull.
  2: { injection Heq as -> ->. by left. }
  apply Z.ltb_lt in Hfull.
  match type of Heq with
  | _ = (?x ≫= _) => destruct x as [tb3|] eqn:Hres; [|done]
  end.
  simpl in Heq. injection Heq as -> ->.
  right. split; [done|]. split; [lia|].
  unfold LRUHandleTable.Resize in Hres.
  apply bind_Some in Hres as (nl & Hnl & Hres).
  apply bind_Some in Hres as (new_list & _ & Hres).
  injection Hres as <-.
  cbn [LRUHandleTable.elems_ LRUHandleTable.length_] in *.
  replace (LRUHandleTable.elems_ tb + 1) with (2 ^ k + 1) in Hnl by lia.
  destruct (decide (k ≤ 30)) as [Hsmall|Hbig].
  - rewrite Resize_length_double in Hnl by lia. injection Hnl as <-. lia.
  - assert (k = 31) as -> by lia.
    change 16 with (2 ^ 4) in Hnl.
    rewrite (Resize_length_stuck (2 ^ 31 + 1) 32 4) in Hnl; [done|lia|].
    vm_compute. reflexivity.
Qed.

(** X21: the table never shrinks and grows by doubling only: an operation
    that returns leaves the number of buckets as it was, whatever it
    erases or evicts, or it is an Insert and the number has doubled. *)
Theorem table_grows_by_doubling o s s' :
  reachable s → allowed o s → run_op o s = Some s' →
  LRUHandleTable.length_ (table_ s') = LRUHandleTable.length_ (table_ s) ∨
  (LRUHandleTable.length_ (table_ s')
   = 2 * LRUHandleTable.length_ (table_ s) ∧
   ∃ e key hash0 value0 charge0 deleter0 handle priority,
     o = OpInsert e key hash0 value0 charge0 deleter0 handle priority).
Proof.
  intros Hs%reachable_Inv Hall Hrun. destruct o; simpl in Hrun.
  - destruct (Insert _ _ _ _ _ _ _ _ _) as [r|] eqn:Hins; [|done].
    simpl in Hrun. injection Hrun as <-.
    destruct Hall as (He & _ & Hc).
    destruct (Insert_config _ _ _ _ _ _ _ _ _ _ Hins)
      as [_ [Hsame|(d & s1 & [r' tb'] & Hev & Htab & Hlen)]]; [by left|].
    destruct (Insert_evict s e
                (new_handle key hash0 value0 charge0 deleter0 handle priority)
                charge0 Hs He)
      as (k & s2 & Hev2 & Hinv2 & _ & He2 & _).
    pose proof (EvictFromLRU_loop_config _ _ _ _ _ Hev) as (Hl1 & _).
    rewrite Hev2 in Hev. injection Hev as <- <-.
    simpl in Htab, Hl1, Hlen.
    assert (Hwf : table_wf
              (<[e := new_handle key hash0 value0 charge0 deleter0 handle
                        priority]> (heap s2)) (table_ s2)).
    { destruct Hinv2 as (_ & Hwf & _).
      apply (table_wf_weaken (heap s2)); [done|].
      by apply insert_subseteq. }
    destruct (table_Insert_length _ _ _ _ _ _ Hwf (lookup_insert_eq _ _ _)
                Htab) as [Hl|(_ & _ & Hl)].
    + left. by rewrite Hlen, Hl.
    + right. split; [by rewrite Hlen, Hl, Hl1|]. by eexists _, _, _, _, _, _, _, _.
  - destruct (Lookup _ _ _) as [r|] eqn:Heq; [|done].
    simpl in Hrun. injection Hrun as <-.
    left. by apply (Lookup_config key hash0).
  - destruct (Ref _ _) as [r|] eqn:Heq; [|done].
    simpl in Hrun. injection Hrun as <-.
    left. by apply (Ref_config handle).
  - destruct (Release _ _ _) as [r|] eqn:Heq; [|done].
    simpl in Hrun. injection Hrun as <-.
    left. by apply (Release_config handle force_erase).
  - left. by apply (Erase_config key hash0).
  - left. by apply EraseUnRefEntries_config.
  - left. by apply (SetCapacity_config capacity).
  - left. unfold SetStrictCapacityLimit in Hrun. by injection Hrun as <-.
  - left. by apply (SetHighPriorityPoolRatio_config high_pri_pool_ratio).
Qed.

Lemma table_grows_by_doubling_witness :
  ∃ s', run_op (OpInsert 17 "k" 17 0 1 0 false LOW) full_table_state = Some s' ∧
        (LRUHandleTable.length_ (table_ s')
         = LRUHandleTable.length_ (table_ full_table_state) ∨
         (LRUHandleTable.length_ (table_ s')
          = 2 * LRUHandleTable.length_ (table_ full_table_state) ∧
          ∃ e key hash0 value0 charge0 deleter0 handle priority,
            OpInsert 17 "k" 17 0 1 0 false LOW
            = OpInsert e key hash0 value0 charge0 deleter0 handle priority)) ∧
        LRUHandleTable.length_ (table_ full_table_state) = 16 ∧
        LRUHandleTable.length_ (table_ s') = 32.
Proof.
  destruct (run_op (OpInsert 17 "k" 17 0 1 0 false LOW) full_table_state)
    as [s'|] eqn:Hrun.
  - exists s'. split; [reflexivity|]. split.
    + apply (table_grows_by_doubling (OpInsert 17 "k" 17 0 1 0 false LOW)
               full_table_state s').
      * apply (boot_reachable 100 false 0 full_table_ops).
        vm_compute. reflexivity.
      * apply allowedb_sound. vm_compute. reflexivity.
      * exact Hrun.
    + split; [vm_compute; reflexivity|].
      vm_compute in Hrun. injection Hrun as <-. reflexivity.
  - vm_compute in Hrun. discriminate Hrun.
Defined.

End limits_extras.

(** * The order of the LRU list *)

Section recency_extras.

Implicit Types (s : t) (e p q : positive).

Lemma MaintainPoolSize_loop_lru fuel : ∀ s s',
  MaintainPoolSize_loop fuel s = Some s' → lru_ s' = lru_ s.
Proof.
  induction fuel as [|fuel IH]; intros s s';
    rewrite MaintainPoolSize_loop_unfold;
    destruct (Qgtb _ _); try done;
    try (by intros [= <-]).
  destruct (after (lru_low_pri_ s) (lru_ s)) as [n|]; [|done]. simpl.
  destruct (lru_ s !! n) as [c|]; [|done]. simpl.
  destruct (update _ c _) as [s2|] eqn:Hup; [|done]. simpl.
  destruct (HighPriPoolUsageSub c s2) as [s3|] eqn:Hsub; [|done]. simpl.
  intros Hrest. apply IH in Hrest. rewrite Hrest.
  apply bind_Some in Hup as (? & _ & [= <-]).
  apply bind_Some in Hsub as (? & _ & [= <-]).
  done.
Qed.

(** Where [LRU_Insert] links the record: at the most recent end of the
    list, or behind the cursor of the low-priority pool. *)
Lemma LRU_Insert_lru e s s' h :
  heap s !! e = Some h → LRU_Insert e s = Some s' →
  if Qgtb (high_pri_pool_ratio_ s) 0 && (IsHighPri h || HasHit h)
  then lru_ s' = lru_ s ++ [e]
  else ∃ n, after (lru_low_pri_ s) (lru_ s) = Some n ∧
            lru_ s' = take n (lru_ s) ++ e :: drop n (lru_ s) ∧
            lru_low_pri_ s' = Some e.
Proof.
  intros Hh. unfold LRU_Insert. rewrite Hh. simpl.
  destruct (bool_decide (e ∈ lru_ s)); [done|].
  destruct (Qgtb _ _ && _).
  - destruct (update _ e _) as [s2|] eqn:Hup; [|done]. simpl.
    destruct (HighPriPoolUsageAdd e s2) as [s3|] eqn:Hadd; [|done]. simpl.
    destruct (MaintainPoolSize s3) as [s4|] eqn:Hm; [|done]. simpl.
    intros Hlast. apply MaintainPoolSize_loop_lru in Hm.
    apply bind_Some in Hup as (? & _ & [= <-]).
    apply bind_Some in Hadd as (? & _ & [= <-]).
    apply bind_Some in Hlast as (? & _ & [= <-]).
    simpl in *. by rewrite Hm.
  - destruct (after _ _) as [n|]; [|done]. simpl.
    destruct (update _ e _) as [s2|] eqn:Hup; [|done]. simpl.
    intros Hlast.
    apply bind_Some in Hup as (? & _ & [= <-]).
    apply bind_Some in Hlast as (? & _ & [= <-]).
    simpl. by exists n.
Qed.




End recency_extras.

(** * A second reference and its release *)

Section ref_round_trip.

Implicit Types (s : t) (e : positive).

(** X23: a handle that is copied and released leaves no trace. When the
    caller holds a handle to a record, [Ref] returns true and counts one
    more reference, and the [Release] that follows, forced or not, returns
    false, frees nothing and gives back the very state in which [Ref] was
    called. *)
Theorem Ref_then_Release_restores s e h force :
  reachable s → heap s !! e = Some h →
  (in_cache h = true → 2 ≤ refs h) → refs h < 2 ^ 32 - 1 →
  ∃ s1, Ref e s = Some (true, s1) ∧
        heap s1 !! e = Some (set_refs (refs h + 1) h) ∧
        Release (Some e) force s1 = Some (false, s).
Proof.
  intros Hinv%reachable_Inv Hh Hheld Hmax.
  destruct (Inv_refs s e h Hinv Hh) as [Hrefs Hcharge].
  destruct (Ref_spec s e h Hinv Hh Hmax) as (s1 & Href & Hinv1).
  assert (Hs1 : s1 = set_heap (<[e := set_refs (refs h + 1) h]> (heap s)) s).
  { revert Href. unfold Ref. rewrite Hh. simpl.
    assert (Hno : InCache h && (refs h =? 1) = false).
    { unfold InCache. destruct (in_cache h); [|done]. simpl.
      apply Z.eqb_neq. specialize (Hheld eq_refl). lia. }
    rewrite Hno. simpl. unfold update. rewrite Hh. simpl.
    rewrite wrap32_small by lia. by intros [= <-]. }
  exists s1. split; [done|].
  assert (Hh1 : heap s1 !! e = Some (set_refs (refs h + 1) h))
    by (rewrite Hs1; apply lookup_insert_eq).
  split; [done|].
  destruct (Release_unpin s1 e (set_refs (refs h + 1) h) force Hinv1 Hh1)
    as [Hrel _].
  { simpl. lia. }
  { simpl. intros Htwo. destruct (in_cache h); [|done].
    specialize (Hheld eq_refl). lia. }
  rewrite Hrel. do 2 f_equal. rewrite Hs1. simpl.
  rewrite insert_insert_eq, Z.add_simpl_r.
  replace (set_refs (refs h) (set_refs (refs h + 1) h)) with h
    by (by destruct h).
  rewrite insert_id by done. by destruct s.
Qed.

Lemma Ref_then_Release_restores_witness :
  ∃ s1, Ref 1 crowded_state = Some (true, s1) ∧
        heap s1 !! 1%positive
        = Some (mkLRUHandle 0 0 40 "a" 3 true false false false 1) ∧
        Release (Some 1%positive) true s1 = Some (false, crowded_state).
Proof.
  apply (Ref_then_Release_restores crowded_state 1
           (mkLRUHandle 0 0 40 "a" 2 true false false false 1) true).
  - apply (boot_reachable 50 true 0
             [OpInsert 1 "a" 1 0 40 0 true LOW;
              OpInsert 2 "c" 3 0 10 0 false LOW]).
    vm_compute. reflexivity.
  - vm_compute. reflexivity.
  - simpl. lia.
  - simpl. lia.
Defined.

End ref_round_trip.

(** * Where [Insert] links a record that no handle pins *)

Section insert_order.

Implicit Types (s : t) (e p q : positive).

Lemma Free_all_lru d : ∀ s s',
  Free_all d s = Some s' →
  lru_ s' = lru_ s ∧ lru_low_pri_ s' = lru_low_pri_ s.
Proof.
  induction d as [|x d IH]; intros s s'; simpl.
  - by intros [= <-].
  - intros (s1 & Hfree & Hrest)%bind_Some.
    apply bind_Some in Hfree as (h & _ & [= <-]).
    by apply IH in Hrest.
Qed.

Lemma update_other f p e s s' :
  update f p s = Some s' → p ≠ e →
  heap s' !! e = heap s !! e ∧ lru_ s' = lru_ s ∧
  high_pri_pool_ratio_ s' = high_pri_pool_ratio_ s.
Proof.
  intros (h & _ & [= <-])%bind_Some Hne. simpl.
  by rewrite lookup_insert_ne.
Qed.

Lemma Unref_other p e s r :
  Unref p s = Some r → p ≠ e →
  heap r.2 !! e = heap s !! e ∧ lru_ r.2 = lru_ s ∧
  high_pri_pool_ratio_ r.2 = high_pri_pool_ratio_ s.
Proof.
  intros (h & _ & [= <-])%bind_Some Hne. simpl.
  by rewrite lookup_insert_ne.
Qed.

Lemma UsageSub_other p s s' :
  UsageSub p s = Some s' →
  heap s' = heap s ∧ lru_ s' = lru_ s ∧
  high_pri_pool_ratio_ s' = high_pri_pool_ratio_ s.
Proof. by intros (h & _ & [= <-])%bind_Some. Qed.

(** [LRU_Remove] takes one record off the list and writes no record. *)
Lemma LRU_Remove_other p s s' :
  LRU_Remove p s = Some s' →
  heap s' = heap s ∧ lru_ s' `sublist_of` lru_ s ∧
  high_pri_pool_ratio_ s' = high_pri_pool_ratio_ s.
Proof.
  intros (h & _ & (i & _ & Hrest)%bind_Some)%bind_Some.
  cbv zeta in Hrest.
  apply bind_Some in Hrest as (s3 & Hsub & Hrest).
  apply bind_Some in Hsub as (h3 & _ & [= <-]).
  assert (Hs' : heap s' = heap s ∧ lru_ s' = delete i (lru_ s) ∧
                high_pri_pool_ratio_ s' = high_pri_pool_ratio_ s).
  { destruct (InHighPriPool h).
    - apply bind_Some in Hrest as (h4 & _ & [= <-]).
      by destruct (decide (lru_low_pri_ s = Some p)).
    - injection Hrest as <-.
      by destruct (decide (lru_low_pri_ s = Some p)). }
  destruct Hs' as (-> & -> & ->). split_and!; [done| |done].
  apply sublist_delete.
Qed.

(** The list that an admitting [Insert] without a handle leaves: the list
    after the eviction, without the record that the new one displaced, and
    the new record where [LRU_Insert] links it. *)
Lemma Insert_admitted_lru e key hash0 value0 charge0 deleter0 priority s d s1
    old tb' r :
  heap s !! e = None →
  EvictFromLRU charge0 []
    (set_heap (<[e := new_handle key hash0 value0 charge0 deleter0 false
                        priority]> (heap s)) s)
  = Some (d, s1) →
  (capacity_ s1 <? wrap64 (wrap64 (usage_ s1 - lru_usage_ s1) + charge0))
  && (strict_capacity_limit_ s1 || true) = false →
  LRUHandleTable.Insert (heap s1) e (table_ s1) = Some (old, tb') →
  heap s1 !! e
  = Some (new_handle key hash0 value0 charge0 deleter0 false priority) →
  old ≠ Some e →
  Insert e key hash0 value0 charge0 deleter0 false priority s = Some r →
  ∃ l, l `sublist_of` lru_ s1 ∧
    if Qgtb (high_pri_pool_ratio_ s1) 0
       && match priority with HIGH => true | LOW => false end
    then lru_ r.2 = l ++ [e]
    else ∃ n, lru_ r.2 = take n l ++ e :: drop n l ∧
              lru_low_pri_ r.2 = Some e.
Proof.
  intros He Hev Hcond Htab Hh0 Hne.
  set (h0 := new_handle key hash0 value0 charge0 deleter0 false priority)
    in *.
  unfold Insert. rewrite He. fold h0. simpl. rewrite Hev. simpl.
  rewrite Hcond, Htab. simpl.
  intros (s2 & Hadd & Hrun)%bind_Some.
  apply bind_Some in Hadd as (? & _ & [= <-]).
  apply bind_Some in Hrun as ([dl s3] & Hold & Hrun).
  apply bind_Some in Hrun as ([o4 s4] & Hins & Hrun).
  apply bind_Some in Hrun as (s5 & Hfree & [= <-]).
  simpl in Hfree, Hins. simpl.
  apply bind_Some in Hins as (s4' & Hins & [= <- <-]).
  destruct (Free_all_lru _ _ _ Hfree) as [-> ->].
  assert (Hs3 : heap s3 !! e = Some h0 ∧ lru_ s3 `sublist_of` lru_ s1 ∧
                high_pri_pool_ratio_ s3 = high_pri_pool_ratio_ s1).
  { destruct old as [o|].
    - assert (o ≠ e) by (by intros ->).
      apply bind_Some in Hold as (sa & Hup & Hold).
      apply bind_Some in Hold as (rb & Hun & Hold).
      destruct (update_other _ _ e _ _ Hup) as (Ha1 & Ha2 & Ha3); [done|].
      destruct (Unref_other _ e _ _ Hun) as (Hb1 & Hb2 & Hb3); [done|].
      simpl in Ha1, Ha2, Ha3.
      destruct rb.1.
      + apply bind_Some in Hold as (sc & Hsub & Hold).
        apply bind_Some in Hold as (sd & Hrem & [= <- <-]).
        destruct (UsageSub_other _ _ _ Hsub) as (Hc1 & Hc2 & Hc3).
        destruct (LRU_Remove_other _ _ _ Hrem) as (Hd1 & Hd2 & Hd3).
        split_and!.
        * by rewrite Hd1, Hc1, Hb1, Ha1.
        * by rewrite <- Ha2, <- Hb2, <- Hc2.
        * by rewrite Hd3, Hc3, Hb3, Ha3.
      + injection Hold as <- <-. split_and!.
        * by rewrite Hb1, Ha1.
        * by rewrite Hb2, Ha2.
        * by rewrite Hb3, Ha3.
    - injection Hold as <- <-. by split_and!. }
  destruct Hs3 as (Hh3 & Hsub3 & Hr3).
  pose proof (LRU_Insert_lru e s3 s4' h0 Hh3 Hins) as Hl.
  rewrite Hr3 in Hl.
  replace (IsHighPri h0 || HasHit h0)
    with (match priority with HIGH => true | LOW => false end) in Hl
    by (symmetry; apply orb_false_r).
  exists (lru_ s3). split; [done|].
  destruct (Qgtb _ _ && _); [done|].
  destruct Hl as (n & _ & ? & ?). by exists n.
Qed.

(** X24: the priority of an entry decides where [Insert] links it. An
    entry that [Insert] takes in without a handle is on the LRU list and
    the entries that were listed keep their order. In a shard with a
    high-priority pool an entry of high priority is at the most recent end
    of the list. Any other entry ends the low-priority pool: the cursor
    [lru_low_pri_] is on it, the entries behind it are those of the
    high-priority pool, and eviction, which starts at the other end, takes
    it before them. *)
Theorem Insert_links_by_priority s e key hash0 value0 charge0 deleter0
    priority st out s' :
  reachable s → heap s !! e = None → 0 ≤ charge0 < 2 ^ 64 →
  Insert e key hash0 value0 charge0 deleter0 false priority s
  = Some (st, out, s') →
  e ∈ lru_ s' →
  ∃ low high,
    (low ++ high) `sublist_of` lru_ s ∧
    lru_ s' = low ++ e :: high ∧
    if Qgtb (high_pri_pool_ratio_ s) 0
       && match priority with HIGH => true | LOW => false end
    then high = []
    else lru_low_pri_ s' = Some e ∧
         (∀ p h, p ∈ low ∨ p = e → heap s' !! p = Some h →
                 in_high_pri_pool h = false) ∧
         (∀ p h, p ∈ high → heap s' !! p = Some h →
                 in_high_pri_pool h = true).
Proof.
  intros Hinv%reachable_Inv He Hc Hrun Hin.
  pose proof (Insert_inv _ _ _ _ _ _ _ _ _ _ _ _ Hinv He Hc Hrun) as Hinv'.
  destruct (Insert_reject s e key hash0 value0 charge0 deleter0 false
              priority Hinv He)
    as (k & s2 & Hev & Hinv2 & Hevd & He2 & Hnot & Hrej).
  simpl in Hev, Hrej.
  set (h0 := new_handle key hash0 value0 charge0 deleter0 false priority)
    in *.
  pose proof Hevd as (Hdrop & _ & _ & _ & _ & _ & _ & Hratio & _).
  assert (Hfresh : e ∉ lru_ s).
  { destruct Hinv as [(_ & _ & ((_ & Htr) & _) & _) _].
    intros (h & Hh & _)%Htr. congruence. }
  destruct ((capacity_ s2
             <? wrap64 (wrap64 (usage_ s2 - lru_usage_ s2) + charge0))
            && (strict_capacity_limit_ s2 || true)) eqn:Hcond.
  { destruct (Hrej eq_refl) as [Heq _]. rewrite Heq in Hrun.
    injection Hrun as _ _ <-. simpl in Hin. rewrite Hdrop in Hin.
    exfalso. apply Hfresh. by apply (subseteq_drop k (lru_ s)). }
  clear Hrej.
  pose proof Hinv2 as (Hstore2 & Hwf2 & _).
  assert (Hent : e ∉ entries (table_ s2)).
  { destruct Hstore2 as (_ & Htr & _). by apply (tracks_not_elem _ _ _ _ Htr). }
  assert (Hwf_a : table_wf (<[e := h0]> (heap s2)) (table_ s2))
    by (by apply table_wf_insert_other).
  assert (Htab : ∃ old tb',
            LRUHandleTable.Insert (<[e := h0]> (heap s2)) e (table_ s2)
            = Some (old, tb')).
  { revert Hrun. unfold Insert. rewrite He. fold h0. simpl.
    rewrite Hev. simpl. rewrite Hcond.
    destruct (LRUHandleTable.Insert _ _ _) as [[old tb']|]; [|done].
    intros _. by exists old, tb'. }
  destruct Htab as (old & tb' & Htab).
  destruct (table_Insert_wf _ _ e h0 old tb' Hwf_a (lookup_insert_eq _ _ _)
              Hent Htab) as (Hlook & _ & Hents).
  assert (Hne : old ≠ Some e).
  { intros ->. destruct Hents as (t1 & t2 & Ht & _). apply Hent.
    rewrite Ht. apply elem_of_app. right. apply elem_of_cons. by left. }
  destruct (Insert_admitted_lru e key hash0 value0 charge0 deleter0 priority
              s _ _ old tb' _ He Hev Hcond Htab (lookup_insert_eq _ _ _)
              Hne Hrun) as (l & Hsub & Hl).
  simpl in Hsub, Hl. rewrite Hratio in Hl. rewrite Hdrop in Hsub.
  assert (Hsub' : l `sublist_of` lru_ s).
  { etrans; [exact Hsub|]. apply sublist_drop. }
  destruct (Qgtb (high_pri_pool_ratio_ s) 0
            && match priority with HIGH => true | LOW => false end).
  - exists l, []. rewrite app_nil_r. by split_and!.
  - destruct Hl as (n & Hlist & Hcur).
    destruct Hinv' as [(_ & _ & ((Hnd & _) & Hpool & _) & _) _].
    destruct Hpool as (low' & high & Hsplit & Hlast & Hlow & Hhigh).
    rewrite Hcur in Hlast. symmetry in Hlast.
    apply last_Some in Hlast as (low & ->).
    rewrite <- app_assoc in Hsplit. simpl in Hsplit.
    assert (Hl' : l = low ++ high).
    { rewrite <- (take_drop n l).
      rewrite <- (filter_ne_middle e (take n l) (drop n l))
        by (by rewrite <- Hlist).
      rewrite <- Hlist, Hsplit.
      apply filter_ne_middle. by rewrite <- Hsplit. }
    exists low, high. rewrite <- Hl'. split_and!; try done.
    intros p h Hp. apply Hlow. rewrite elem_of_app, list_elem_of_singleton.
    done.
Qed.

Lemma Insert_links_by_priority_witness :
  ∃ s' low high,
    Insert 3 "k3" 3 0 10 0 false LOW pooled_state = Some (OK, None, s') ∧
    lru_ s' = low ++ 3%positive :: high ∧
    lru_low_pri_ s' = Some 3%positive ∧
    lru_ pooled_state = [1%positive; 2%positive] ∧
    lru_ s' = [3%positive; 1%positive; 2%positive].
Proof.
  destruct (Insert 3 "k3" 3 0 10 0 false LOW pooled_state)
    as [[[st out] s']|] eqn:Hrun.
  2: { vm_compute in Hrun. discriminate Hrun. }
  assert (Hs' : (st, out, lru_ s')
                = (OK, None, [3%positive; 1%positive; 2%positive])).
  { vm_compute in Hrun. injection Hrun as <- <- <-. reflexivity. }
  injection Hs' as -> -> Hlist.
  destruct (Insert_links_by_priority pooled_state 3 "k3" 3 0 10 0 LOW
              OK None s')
    as (low & high & _ & Hl & Hcase).
  - apply (boot_reachable 100 false (1 # 2) pooled_ops).
    vm_compute. reflexivity.
  - vm_compute. reflexivity.
  - lia.
  - exact Hrun.
  - rewrite Hlist. apply list_elem_of_here.
  - rewrite andb_false_r in Hcase. destruct Hcase as (Hcur & _).
    exists s', low, high. split; [reflexivity|]. split; [exact Hl|].
    split; [exact Hcur|]. split; [vm_compute; reflexivity|exact Hlist].
Defined.

End insert_order.

(** * The assertion of [Release]: a shard over its capacity lists nothing *)

Section capacity_assert.

Implicit Types (s : t) (e p q : positive) (m : gmap positive LRUHandle).

Lemma weight_nonneg P m p h : heap_ok m → m !! p = Some h → 0 ≤ weight P h.
Proof.
  intros Hok Hh. unfold weight. destruct (Hok p h Hh) as (_ & ? & _).
  destruct (P h); lia.
Qed.

Lemma sum_charge_nonneg P m : heap_ok m → 0 ≤ sum_charge P m.
Proof.
  induction m as [|p h m Hp IH] using map_ind; intros Hok.
  - by rewrite sum_charge_empty.
  - rewrite sum_charge_alloc by done.
    pose proof (weight_nonneg P _ p h Hok (lookup_insert_eq _ _ _)).
    assert (Hrest : heap_ok m).
    { intros q hq Hq. apply (Hok q).
      destruct (decide (p = q)) as [->|Hne]; [congruence|].
      by rewrite lookup_insert_ne. }
    specialize (IH Hrest). lia.
Qed.

Lemma weight_le_sum P m p h :
  heap_ok m → m !! p = Some h → weight P h ≤ sum_charge P m.
Proof.
  intros Hok Hh.
  pose proof (sum_charge_delete P m p h Hh).
  pose proof (sum_charge_nonneg P (delete p m) (heap_ok_delete _ _ Hok)).
  lia.
Qed.

(** A store whose records weigh no more than those of another one. *)
Lemma sum_charge_mono P m' : ∀ m,
  heap_ok m →
  (∀ p h', m' !! p = Some h' →
           weight P h' ≤ default 0 (weight P <$> m !! p)) →
  sum_charge P m' ≤ sum_charge P m.
Proof.
  induction m' as [|p h' m' Hp IH] using map_ind; intros m Hok Hle.
  - rewrite sum_charge_empty. by apply sum_charge_nonneg.
  - rewrite sum_charge_alloc by done.
    pose proof (Hle p h' (lookup_insert_eq _ _ _)) as Hp'.
    assert (Hrest : ∀ q hq, m' !! q = Some hq →
              q ≠ p ∧ <[p := h']> m' !! q = Some hq).
    { intros q hq Hq. assert (q ≠ p) by congruence.
      by rewrite lookup_insert_ne. }
    destruct (m !! p) as [h|] eqn:Hh; simpl in Hp'.
    + pose proof (sum_charge_delete P m p h Hh) as Hd.
      assert (sum_charge P m' ≤ sum_charge P (delete p m)); [|lia].
      apply IH; [by apply heap_ok_delete|].
      intros q hq Hq. destruct (Hrest q hq Hq) as [Hne Hq'].
      rewrite lookup_delete_ne by done. by apply Hle.
    + assert (sum_charge P m' ≤ sum_charge P m); [|lia].
      apply IH; [done|].
      intros q hq Hq. destruct (Hrest q hq Hq) as [Hne Hq']. by apply Hle.
Qed.

(** Eviction takes charge away. *)
Lemma retired_sum l m m' :
  retired l m m' → heap_ok m → sum_charge live m' ≤ sum_charge live m.
Proof.
  intros Hret Hok. apply sum_charge_mono; [done|].
  intros p h' Hh'. rewrite (Hret p) in Hh'.
  destruct (decide (p ∈ l)).
  - destruct (m !! p) as [h|] eqn:Hh; [|done].
    simpl in Hh'. injection Hh' as <-. simpl.
    change (weight live (retire h)) with 0.
    by apply (weight_nonneg live m p).
  - rewrite Hh'. simpl. lia.
Qed.

(** Dropping the charge of a live record does not wrap. *)
Lemma usage_sub_le m p h (u : Z) :
  heap_ok m → m !! p = Some h → 1 ≤ refs h →
  u = sum_charge live m → u < 2 ^ 64 →
  wrap64 (u - charge h) ≤ u.
Proof.
  intros Hok Hh Hr -> Hu.
  pose proof (weight_le_sum live m p h Hok Hh) as Hle.
  rewrite weight_true in Hle by (by apply live_true).
  destruct (Hok p h Hh) as (_ & ? & _).
  rewrite wrap64_small by lia. lia.
Qed.

Lemma full_means_unlisted_mono s s' :
  full_means_unlisted s → lru_ s' `sublist_of` lru_ s →
  capacity_ s' = capacity_ s → usage_ s' ≤ usage_ s →
  full_means_unlisted s'.
Proof.
  intros Hfull Hsub Hc Hu Hover. rewrite Hc in Hover.
  assert (lru_ s = []) as Hnil by (apply Hfull; lia).
  rewrite Hnil in Hsub. by apply sublist_nil_r in Hsub.
Qed.

(** What the steps of the operations do to the list and to [usage_]. *)
Lemma update_usage f p s s' :
  update f p s = Some s' → lru_ s' = lru_ s ∧ usage_ s' = usage_ s.
Proof. by intros (h & _ & [= <-])%bind_Some. Qed.

Lemma Unref_usage p s r :
  Unref p s = Some r → lru_ r.2 = lru_ s ∧ usage_ r.2 = usage_ s.
Proof. by intros (h & _ & [= <-])%bind_Some. Qed.

Lemma LRU_Remove_usage p s s' :
  LRU_Remove p s = Some s' → usage_ s' = usage_ s.
Proof.
  intros (h & _ & (i & _ & Hrest)%bind_Some)%bind_Some.
  cbv zeta in Hrest.
  apply bind_Some in Hrest as (s3 & Hsub & Hrest).
  apply bind_Some in Hsub as (h3 & _ & [= <-]).
  destruct (InHighPriPool h).
  - apply bind_Some in Hrest as (h4 & _ & [= <-]).
    by destruct (decide (lru_low_pri_ s = Some p)).
  - injection Hrest as <-.
    by destruct (decide (lru_low_pri_ s = Some p)).
Qed.

Lemma MaintainPoolSize_loop_usage fuel : ∀ s s',
  MaintainPoolSize_loop fuel s = Some s' → usage_ s' = usage_ s.
Proof.
  induction fuel as [|fuel IH]; intros s s';
    rewrite MaintainPoolSize_loop_unfold;
    destruct (Qgtb _ _); try done;
    try (by intros [= <-]).
  destruct (after (lru_low_pri_ s) (lru_ s)) as [n|]; [|done]. simpl.
  destruct (lru_ s !! n) as [c|]; [|done]. simpl.
  destruct (update _ c _) as [s2|] eqn:Hup; [|done]. simpl.
  destruct (HighPriPoolUsageSub c s2) as [s3|] eqn:Hsub; [|done]. simpl.
  intros Hrest. apply IH in Hrest. rewrite Hrest.
  apply bind_Some in Hup as (? & _ & [= <-]).
  apply bind_Some in Hsub as (? & _ & [= <-]).
  done.
Qed.

Lemma Free_all_usage d : ∀ s s',
  Free_all d s = Some s' → usage_ s' = usage_ s.
Proof.
  induction d as [|x d IH]; intros s s'; simpl.
  - by intros [= <-].
  - intros (s1 & Hfree & Hrest)%bind_Some.
    apply bind_Some in Hfree as (h & _ & [= <-]).
    by apply IH in Hrest.
Qed.

Lemma Lookup_list key hash0 s r :
  Lookup key hash0 s = Some r →
  lru_ r.2 `sublist_of` lru_ s ∧ usage_ r.2 = usage_ s.
Proof.
  unfold Lookup.
  destruct (LRUHandleTable.Lookup _ _ _ _) as [[e|]|]; simpl; try done.
  2: { by intros [= <-]. }
  destruct (heap s !! e) as [h|]; [|done]. simpl.
  destruct (if refs h =? 1 then LRU_Remove e s else Some s) as [s1|] eqn:H1;
    [|done]. simpl.
  destruct (update _ e s1) as [s2|] eqn:Hup; [|done]. simpl.
  intros [= <-]. simpl.
  destruct (update_usage _ _ _ _ Hup) as [-> ->].
  destruct (refs h =? 1).
  - destruct (LRU_Remove_other _ _ _ H1) as (_ & ? & _).
    split; [done|]. by apply (LRU_Remove_usage e).
  - by injection H1 as <-.
Qed.

Lemma Ref_list e s r :
  Ref e s = Some r →
  lru_ r.2 `sublist_of` lru_ s ∧ usage_ r.2 = usage_ s.
Proof.
  unfold Ref.
  destruct (heap s !! e) as [h|]; [|done]. simpl.
  destruct (if InCache h && (refs h =? 1) then LRU_Remove e s else Some s)
    as [s1|] eqn:H1; [|done]. simpl.
  destruct (update _ e s1) as [s2|] eqn:Hup; [|done]. simpl.
  intros [= <-]. simpl.
  destruct (update_usage _ _ _ _ Hup) as [-> ->].
  destruct (InCache h && (refs h =? 1)).
  - destruct (LRU_Remove_other _ _ _ H1) as (_ & ? & _).
    split; [done|]. by apply (LRU_Remove_usage e).
  - by injection H1 as <-.
Qed.

(** [Erase] leaves [usage_] as it is or takes the charge of one record
    away. *)
Lemma Erase_list key hash0 s s' :
  Erase key hash0 s = Some s' →
  lru_ s' `sublist_of` lru_ s ∧
  (usage_ s' = usage_ s ∨
   ∃ e h, heap s !! e = Some h ∧ usage_ s' = wrap64 (usage_ s - charge h)).
Proof.
  unfold Erase.
  intros ([r tb'] & _ & Hrest)%bind_Some. simpl in Hrest.
  destruct r as [e|].
  2: { injection Hrest as <-. split; [done|by left]. }
  apply bind_Some in Hrest as (r2 & Hun & Hrest).
  apply bind_Some in Hrest as (h & Hh & Hrest).
  apply bind_Some in Hrest as (s3 & H3 & Hrest).
  apply bind_Some in Hrest as (s4 & H4 & Hrest).
  apply bind_Some in Hrest as (s5 & H5 & Hrest).
  destruct (Unref_usage _ _ _ Hun) as [Hl2 Hu2].
  apply bind_Some in Hun as (h0 & Hh0 & Hr2).
  simpl in Hh0.
  assert (Hcharge : charge h = charge h0).
  { injection Hr2 as <-. simpl in Hh. rewrite lookup_insert_eq in Hh.
    by injection Hh as <-. }
  simpl in Hl2, Hu2.
  assert (Hs3 : heap s3 = heap r2.2 ∧ lru_ s3 `sublist_of` lru_ s ∧
                usage_ s3 = usage_ s).
  { rewrite <- Hl2, <- Hu2. destruct (r2.1 && InCache h).
    - destruct (LRU_Remove_other _ _ _ H3) as (? & ? & _).
      split_and!; [done|done|]. by apply (LRU_Remove_usage e).
    - by injection H3 as <-. }
  destruct Hs3 as (Hh3 & Hl3 & Hu3).
  destruct (update_usage _ _ _ _ H5) as [Hl5 Hu5].
  assert (Hs' : lru_ s' = lru_ s5 ∧ usage_ s' = usage_ s5).
  { destruct r2.1.
    - apply bind_Some in Hrest as (? & _ & [= <-]). done.
    - by injection Hrest as <-. }
  destruct Hs' as [-> ->]. rewrite Hl5, Hu5.
  destruct r2.1.
  - apply bind_Some in H4 as (h4 & Hh4 & [= <-]). simpl.
    split; [done|]. right. exists e, h0. split; [done|].
    rewrite Hh3, Hh in Hh4. injection Hh4 as <-.
    by rewrite Hu3, Hcharge.
  - injection H4 as <-. split; [done|]. left. done.
Qed.

Lemma SetHighPriorityPoolRatio_list ratio s s' :
  SetHighPriorityPoolRatio ratio s = Some s' →
  lru_ s' = lru_ s ∧ usage_ s' = usage_ s.
Proof.
  unfold SetHighPriorityPoolRatio, MaintainPoolSize. intros Hm.
  pose proof (MaintainPoolSize_loop_lru _ _ _ Hm) as ->.
  pose proof (MaintainPoolSize_loop_usage _ _ _ Hm) as ->.
  done.
Qed.

(** The list and [usage_] after [Insert]: those that the eviction left when
    the record is turned down; and a record that is taken in with a handle
    joins no list. *)
Lemma Insert_list e key hash0 value0 charge0 deleter0 handle priority s d s1
    r :
  heap s !! e = None →
  EvictFromLRU charge0 []
    (set_heap (<[e := new_handle key hash0 value0 charge0 deleter0 handle
                        priority]> (heap s)) s)
  = Some (d, s1) →
  Insert e key hash0 value0 charge0 deleter0 handle priority s = Some r →
  if (capacity_ s1 <? wrap64 (wrap64 (usage_ s1 - lru_usage_ s1) + charge0))
     && (strict_capacity_limit_ s1 || negb handle)
  then lru_ r.2 = lru_ s1 ∧ usage_ r.2 = usage_ s1
  else is_Some (LRUHandleTable.Insert (heap s1) e (table_ s1)) ∧
       (handle = true → lru_ r.2 `sublist_of` lru_ s1).
Proof.
  intros He Hev.
  unfold Insert. rewrite He. simpl. rewrite Hev. simpl.
  destruct (_ && _).
  - destruct handle; simpl.
    + intros (s3 & Hfree & [= <-])%bind_Some. simpl.
      destruct (Free_all_lru _ _ _ Hfree) as [-> _].
      by rewrite (Free_all_usage _ _ _ Hfree).
    + intros (s3 & Hfree & [= <-])%bind_Some. simpl.
      destruct (Free_all_lru _ _ _ Hfree) as [-> _].
      by rewrite (Free_all_usage _ _ _ Hfree).
  - intros ([old tb'] & Htab & Hrun)%bind_Some.
    split; [by eexists|]. intros ->.
    apply bind_Some in Hrun as (s2 & Hadd & Hrun).
    apply bind_Some in Hadd as (? & _ & [= <-]).
    apply bind_Some in Hrun as ([dl s3] & Hold & Hrun).
    apply bind_Some in Hrun as ([o4 s4] & Hins & Hrun).
    apply bind_Some in Hrun as (s5 & Hfree & [= <-]).
    simpl in Hfree, Hins, Hold. simpl.
    injection Hins as <- <-.
    destruct (Free_all_lru _ _ _ Hfree) as [-> _].
    destruct old as [o|].
    + apply bind_Some in Hold as (sa & Hup & Hold).
      apply bind_Some in Hold as (rb & Hun & Hold).
      destruct (update_usage _ _ _ _ Hup) as [Ha _].
      destruct (Unref_usage _ _ _ Hun) as [Hb _].
      simpl in Ha.
      destruct rb.1.
      * apply bind_Some in Hold as (sc & Hsub & Hold).
        apply bind_Some in Hold as (sd & Hrem & [= <- <-]).
        destruct (UsageSub_other _ _ _ Hsub) as (_ & Hc & _).
        destruct (LRU_Remove_other _ _ _ Hrem) as (_ & Hd & _).
        by rewrite <- Ha, <- Hb, <- Hc.
      * injection Hold as <- <-. by rewrite Hb, Ha.
    + by injection Hold as <- <-.
Qed.

(** The three ways in which [Insert] ends, as long as the charges do not
    wrap: the record is turned down and nothing but the eviction happened;
    or the shard is within its capacity; or a shard without a strict limit
    took a record that a handle pins although it does not fit, and then the
    list is empty. *)
Lemma Insert_usage_cases s e key hash0 value0 charge0 deleter0 handle priority
    r :
  Inv s → heap s !! e = None → 0 ≤ charge0 < 2 ^ 64 →
  sum_charge live (heap s) + charge0 < 2 ^ 64 →
  Insert e key hash0 value0 charge0 deleter0 handle priority s = Some r →
  (usage_ r.2 ≤ usage_ s ∧ lru_ r.2 `sublist_of` lru_ s) ∨
  usage_ r.2 ≤ capacity_ s ∨
  (lru_ r.2 = [] ∧ strict_capacity_limit_ s = false ∧ handle = true).
Proof.
  intros Hinv He Hc Hsum Hins.
  pose proof Hinv as [Hsinv Hpend].
  pose proof Hsinv as ((Hok & _ & Hu) & _).
  pose proof (sum_charge_nonneg live (heap s) Hok) as Hpos.
  assert (Husage : usage_ s = sum_charge live (heap s)).
  { rewrite Hu. apply wrap64_small. lia. }
  set (h0 := new_handle key hash0 value0 charge0 deleter0 handle priority).
  destruct (Insert_evict s e h0 charge0 Hinv He)
    as (k & s1 & Hev & Hinv1 & Hevd & He1 & _ & _ & Hstop).
  pose proof Hevd as (Hdropk & Hret & _ & _ & _ & Hcap1 & Hstrict1 & _).
  pose proof Hinv1 as ((Hok1 & _ & Hu1) & _ & ((_ & Htr1) & _ & Hlu1 & _) & _).
  pose proof (retired_sum _ _ _ Hret Hok) as Hle1.
  pose proof (sum_charge_nonneg live (heap s1) Hok1) as Hpos1.
  assert (Husage1 : usage_ s1 = sum_charge live (heap s1)).
  { rewrite Hu1. apply wrap64_small. lia. }
  assert (Hfits : wrap64 (usage_ s1 + charge0) ≤ capacity_ s →
            usage_ s1 + charge0 ≤ capacity_ s).
  { rewrite wrap64_small by lia. done. }
  pose proof (Insert_list e key hash0 value0 charge0 deleter0 handle
                priority s _ _ r He Hev Hins) as Hcase.
  simpl in Hcase. fold h0 in Hev.
  destruct ((capacity_ s1
             <? wrap64 (wrap64 (usage_ s1 - lru_usage_ s1) + charge0))
            && (strict_capacity_limit_ s1 || negb handle)) eqn:Hcond.
  - destruct Hcase as [Hl Hus]. left. split; [lia|].
    rewrite Hl, Hdropk. apply sublist_drop.
  - right. destruct Hcase as [Hsome Hpin].
    destruct (Insert_admitted s e key hash0 value0 charge0 deleter0 handle
                priority _ _ Hinv He Hc Hev Hcond Hsome)
      as (old & s'' & h1 & _ & Heq & _ & _ & _ & _ & _ & _ & Hcase).
    rewrite Hins in Heq. injection Heq as Heq. subst r.
    simpl in Hcase, Hpin. simpl.
    assert (Hbound : usage_ s'' ≤ usage_ s1 + charge0).
    { destruct old as [o|].
      - destruct Hcase as (ho & Hho & Hcase).
        destruct (refs ho =? 1) eqn:Hone.
        + destruct Hcase as (_ & -> & _). apply Z.eqb_eq in Hone.
          assert (Hok0 : heap_ok (<[e := h0]> (heap s1))).
          { apply heap_ok_insert; try done.
            - simpl. destruct handle; lia.
            - intros _. simpl. destruct handle; lia. }
          pose proof (weight_le_sum live _ o ho Hok0 Hho) as Hw.
          rewrite weight_true in Hw by (apply live_true; lia).
          rewrite sum_charge_alloc in Hw by done.
          rewrite weight_true in Hw
            by (apply live_true; simpl; destruct handle; lia).
          simpl in Hw.
          destruct (Hok0 o ho Hho) as (_ & ? & _).
          rewrite wrap64_small by lia. lia.
        + destruct Hcase as (_ & -> & _). rewrite wrap64_small by lia. lia.
      - destruct Hcase as (-> & _). rewrite wrap64_small by lia. lia. }
    destruct Hstop as [Hk|Hle]; [|left; apply Hfits in Hle; lia].
    assert (Hnil : lru_ s1 = []) by (rewrite Hdropk, Hk; apply drop_all).
    assert (Hzero : lru_usage_ s1 = 0).
    { rewrite Hlu1.
      destruct (decide (sum_charge evictable (heap s1) = 0))
        as [->|Hne]; [done|].
      destruct (sum_charge_witness _ _ Hne) as (p & h & Hh & Hev').
      assert (p ∈ lru_ s1) as Hp by (apply Htr1; eauto).
      rewrite Hnil in Hp. by apply elem_of_nil in Hp. }
    rewrite Hzero, Z.sub_0_r, (wrap64_small (usage_ s1)) in Hcond by lia.
    rewrite Hcap1, Hstrict1 in Hcond.
    apply andb_false_iff in Hcond as [Hfit|Hflags].
    + left. apply Z.ltb_ge in Hfit. apply Hfits in Hfit. lia.
    + right. apply orb_false_iff in Hflags as [Hs Hh].
      apply negb_false_iff in Hh. subst handle.
      split_and!; [|done|done].
      specialize (Hpin eq_refl). rewrite Hnil in Hpin.
      by apply sublist_nil_r in Hpin.
Qed.

(** The operations that bring no charge and set no capacity leave the
    capacity, do not raise [usage_], and add to the list only in a shard
    that is within its capacity. *)
Lemma run_op_shrinks o s s' :
  Inv s → allowed o s → sum_charge live (heap s) < 2 ^ 64 →
  run_op o s = Some s' →
  match o with
  | OpInsert _ _ _ _ _ _ _ _ | OpSetCapacity _ => True
  | _ => capacity_ s' = capacity_ s ∧ usage_ s' ≤ usage_ s ∧
         (lru_ s' `sublist_of` lru_ s ∨ usage_ s ≤ capacity_ s)
  end.
Proof.
  intros Hinv Hall Hsum Hrun.
  pose proof Hinv as [Hsinv Hpend].
  pose proof Hsinv as ((Hok & _ & Hu) & _).
  pose proof (sum_charge_nonneg live (heap s) Hok) as Hpos.
  assert (Husage : usage_ s = sum_charge live (heap s)).
  { rewrite Hu. apply wrap64_small. lia. }
  assert (Hdrop : ∀ p h, heap s !! p = Some h →
            wrap64 (usage_ s - charge h) ≤ usage_ s).
  { intros p h Hh. destruct (Inv_refs s p h Hinv Hh) as [Hr _].
    apply (usage_sub_le (heap s) p h); try done; lia. }
  destruct o; simpl in Hrun, Hall; [done| | | | | |done| |].
  - (* Lookup *)
    destruct (Lookup key hash0 s) as [r|] eqn:Heq; [|done].
    simpl in Hrun. injection Hrun as <-.
    destruct (Lookup_list _ _ _ _ Heq) as [Hl Hus].
    destruct (Lookup_config _ _ _ _ Heq) as (_ & ? & _).
    split_and!; [done|lia|by left].
  - (* Ref *)
    destruct (Ref handle s) as [r|] eqn:Heq; [|done].
    simpl in Hrun. injection Hrun as <-.
    destruct (Ref_list _ _ _ Heq) as [Hl Hus].
    destruct (Ref_config _ _ _ Heq) as (_ & ? & _).
    split_and!; [done|lia|by left].
  - (* Release *)
    destruct (Release handle force_erase s) as [r|] eqn:Heq; [|done].
    simpl in Hrun. injection Hrun as <-.
    destruct handle as [e|].
    2: { injection Heq as <-. simpl. split_and!; [done|done|by left]. }
    destruct Hall as (h & Hh & Hheld).
    destruct (Inv_refs s e h Hinv Hh) as [Hr _].
    destruct (decide (refs h = 1)) as [Hone|Hmany].
    { assert (Hin : in_cache h = false).
      { destruct (in_cache h); [|done]. specialize (Hheld eq_refl). lia. }
      destruct (Release_last s e h force_erase Hinv Hh Hone Hin) as [Hrel _].
      rewrite Hrel in Heq. injection Heq as <-. simpl.
      split_and!; [done|by apply (Hdrop e)|by left]. }
    destruct (decide (refs h = 2 ∧ in_cache h = true)) as [[Htwo Hin]|Hno].
    2: { destruct (Release_unpin s e h force_erase Hinv Hh) as [Hrel _];
           [lia| |].
         { intros Htwo. destruct (in_cache h); [|done]. by destruct Hno. }
         rewrite Hrel in Heq. injection Heq as <-. simpl.
         split_and!; [done|done|by left]. }
    destruct ((capacity_ s <? usage_ s) || force_erase) eqn:Hcond.
    + destruct (Release_erase s e h force_erase Hinv Hh Htwo Hin Hcond)
        as (tb' & t1 & t2 & _ & _ & Hrel & _).
      rewrite Hrel in Heq. injection Heq as <-. simpl.
      split_and!; [done|by apply (Hdrop e)|by left].
    + apply orb_false_iff in Hcond as [Hfit ->].
      destruct (Release_relink s e h Hinv Hh Htwo Hin Hfit)
        as (m' & l' & c' & lu' & hu' & h' & Hrel & _).
      rewrite Hrel in Heq. injection Heq as <-. simpl.
      apply Z.ltb_ge in Hfit. split_and!; [done|done|by right].
  - (* Erase *)
    destruct (Erase_list _ _ _ _ Hrun) as [Hl Hus].
    destruct (Erase_config _ _ _ _ Hrun) as (_ & ? & _).
    split_and!; [done| |by left].
    destruct Hus as [->|(e & h & Hh & ->)]; [lia|]. by apply (Hdrop e).
  - (* EraseUnRefEntries *)
    destruct (EraseUnRefEntries_loop_spec (length (lru_ s)) s [] Hsinv)
      as (s1 & Hrun1 & Hinv1 & Hev); [done|].
    destruct (evict_free_inv _ s s1 Hinv Hinv1 Hev)
      as (s'' & Hfree & _ & Heq).
    unfold EraseUnRefEntries in Hrun. rewrite Hrun1 in Hrun.
    simpl in Hrun. rewrite firstn_all in Hfree. rewrite Hfree in Hrun.
    injection Hrun as <-. rewrite Heq. simpl.
    pose proof Hev as (Hl & Hret & _ & _ & _ & Hc & _).
    pose proof Hinv1 as ((Hok1 & _ & Hu1) & _).
    pose proof (retired_sum _ _ _ Hret Hok) as Hle1.
    pose proof (sum_charge_nonneg live (heap s1) Hok1) as Hpos1.
    split_and!; [done| |left].
    + rewrite Hu1, wrap64_small by lia. lia.
    + rewrite Hl. apply sublist_drop.
  - (* SetStrictCapacityLimit *)
    unfold SetStrictCapacityLimit in Hrun. injection Hrun as <-.
    simpl. split_and!; [done|done|by left].
  - (* SetHighPriorityPoolRatio *)
    destruct (SetHighPriorityPoolRatio_list _ _ _ Hrun) as [Hl Hus].
    destruct (SetHighPriorityPoolRatio_config _ _ _ Hrun) as (_ & ? & _).
    split_and!; [done|lia|left; by rewrite Hl].
Qed.

(** X25: the assertion of [Release] holds. [Release] asserts, before it
    erases the record whose last handle it got, that a shard over its
    capacity has an empty LRU list. Every public operation keeps that
    condition, as long as the charges in the shard, with the charge that an
    [Insert] brings, stay below 2^64, where [usage_] would wrap. *)
Theorem full_shard_lists_nothing o s s' :
  reachable s → allowed o s →
  sum_charge live (heap s) + added_charge o < 2 ^ 64 →
  full_means_unlisted s →
  run_op o s = Some s' →
  full_means_unlisted s'.
Proof.
  intros Hinv%reachable_Inv Hall Hsum Hfull Hrun.
  pose proof Hinv as [Hsinv Hpend].
  pose proof Hsinv as (Hstore & Hwf & Hlru & Hhc & Hratio & Hcapr).
  assert (Hadd : 0 ≤ added_charge o).
  { destruct o; simpl; try lia. by destruct Hall as (_ & _ & ? & _). }
  pose proof (run_op_shrinks o s s' Hinv Hall ltac:(lia) Hrun) as Hshr.
  destruct o; simpl in Hshr;
    try (destruct Hshr as (Hc & Hu & [Hl|Hfit]);
         [by apply (full_means_unlisted_mono s)|intros Hover; lia]).
  - (* Insert *)
    simpl in Hrun, Hall, Hsum. destruct Hall as (He & _ & Hc).
    destruct (Insert e key hash0 value0 charge0 deleter0 handle priority s)
      as [r|] eqn:Hins; [|done].
    simpl in Hrun. injection Hrun as <-.
    assert (Hcr : capacity_ r.2 = capacity_ s).
    { by destruct (Insert_config _ _ _ _ _ _ _ _ _ _ Hins) as [(? & _) _]. }
    destruct (Insert_usage_cases s e key hash0 value0 charge0 deleter0 handle
                priority r Hinv He Hc Hsum Hins)
      as [[Hu Hl]|[Hfit|(Hnil & _)]].
    + by apply (full_means_unlisted_mono s).
    + intros Hover. lia.
    + by intros _.
  - (* SetCapacity *)
    simpl in Hrun, Hall.
    set (s2 := set_high_pri_pool_capacity
                 (inject_Z capacity * high_pri_pool_ratio_ s)
                 (set_capacity capacity s)).
    assert (Hinv2 : shard_inv s2).
    { apply shard_inv_intro; try done.
      apply Qmult_le_0_compat; [|done].
      change 0%Q with (inject_Z 0). rewrite <- Zle_Qle. lia. }
    destruct (EvictFromLRU_plain s2 0 [] Hinv2)
      as (k & s3 & Hev & Hinv3 & Hevd & _ & _ & Hstop).
    destruct (evict_free_inv k s2 s3 (conj Hinv2 Hpend) Hinv3 Hevd)
      as (s4 & Hfree & _ & Heq).
    change (SetCapacity capacity s)
      with (r ← EvictFromLRU 0 [] s2; Free_all r.1 r.2) in Hrun.
    rewrite Hev in Hrun. simpl in Hrun, Hfree. rewrite Hfree in Hrun.
    injection Hrun as <-.
    destruct Hevd as (Hdropk & _ & _ & _ & _ & Hc & _).
    intros Hover. rewrite Heq in Hover |- *. simpl in Hover |- *.
    rewrite Hdropk.
    destruct Hstop as [->|Hle]; [apply drop_all|].
    exfalso. rewrite Z.add_0_r, (shard_inv_usage s3 Hinv3) in Hle.
    rewrite Hc in Hover. lia.
Qed.

Lemma full_shard_lists_nothing_witness :
  ∃ s', run_op (OpInsert 3 "b" 17 0 95 0 true LOW) displaced_state = Some s' ∧
        capacity_ s' = 100 ∧ usage_ s' = 105 ∧ lru_ s' = [].
Proof.
  destruct (run_op (OpInsert 3 "b" 17 0 95 0 true LOW) displaced_state)
    as [s'|] eqn:Hrun.
  2: { vm_compute in Hrun. discriminate Hrun. }
  assert (Hs' : capacity_ s' = 100 ∧ usage_ s' = 105).
  { vm_compute in Hrun. injection Hrun as <-. split; reflexivity. }
  destruct Hs' as [Hc Hu].
  exists s'. split; [reflexivity|]. split; [exact Hc|]. split; [exact Hu|].
  apply (full_shard_lists_nothing (OpInsert 3 "b" 17 0 95 0 true LOW)
           displaced_state s').
  - apply (boot_reachable 100 false 0
             [OpInsert 1 "a" 7 0 10 0 true LOW;
              OpInsert 2 "a" 7 0 20 0 false LOW]).
    vm_compute. reflexivity.
  - apply allowedb_sound. vm_compute. reflexivity.
  - vm_compute. reflexivity.
  - intros Hover. vm_compute in Hover. discriminate Hover.
  - exact Hrun.
  - rewrite Hc, Hu. reflexivity.
Defined.

(** X26: the strict capacity limit is kept. In a shard with
    [strict_capacity_limit_] set whose usage is within the capacity, no
    operation but [SetCapacity] takes the usage over the capacity: [Insert]
    evicts, and turns down what does not fit even then. The charges in the
    shard, with the charge that an [Insert] brings, are below 2^64. *)
Theorem strict_limit_is_kept o s s' :
  reachable s → allowed o s →
  sum_charge live (heap s) + added_charge o < 2 ^ 64 →
  strict_capacity_limit_ s = true →
  usage_ s ≤ capacity_ s →
  (∀ c, o ≠ OpSetCapacity c) →
  run_op o s = Some s' →
  usage_ s' ≤ capacity_ s'.
Proof.
  intros Hinv%reachable_Inv Hall Hsum Hstrict Hwithin Hset Hrun.
  assert (Hadd : 0 ≤ added_charge o).
  { destruct o; simpl; try lia. by destruct Hall as (_ & _ & ? & _). }
  pose proof (run_op_shrinks o s s' Hinv Hall ltac:(lia) Hrun) as Hshr.
  destruct o; simpl in Hshr;
    try (destruct Hshr as (Hc & Hu & _); lia).
  - simpl in Hrun, Hall, Hsum. destruct Hall as (He & _ & Hc).
    destruct (Insert e key hash0 value0 charge0 deleter0 handle priority s)
      as [r|] eqn:Hins; [|done].
    simpl in Hrun. injection Hrun as <-.
    assert (Hcr : capacity_ r.2 = capacity_ s).
    { by destruct (Insert_config _ _ _ _ _ _ _ _ _ _ Hins) as [(? & _) _]. }
    destruct (Insert_usage_cases s e key hash0 value0 charge0 deleter0 handle
                priority r Hinv He Hc Hsum Hins)
      as [[Hu Hl]|[Hfit|(_ & Hs & _)]]; [lia|lia|congruence].
  - by destruct (Hset capacity).
Qed.

Lemma strict_limit_is_kept_witness :
  ∃ s', run_op (OpInsert 3 "b" 17 0 30 0 true LOW) crowded_state = Some s' ∧
        strict_capacity_limit_ crowded_state = true ∧
        usage_ s' ≤ capacity_ s'.
Proof.
  destruct (run_op (OpInsert 3 "b" 17 0 30 0 true LOW) crowded_state)
    as [s'|] eqn:Hrun.
  2: { vm_compute in Hrun. discriminate Hrun. }
  exists s'. split; [reflexivity|]. split; [vm_compute; reflexivity|].
  apply (strict_limit_is_kept (OpInsert 3 "b" 17 0 30 0 true LOW)
           crowded_state s').
  - apply (boot_reachable 50 true 0
             [OpInsert 1 "a" 1 0 40 0 true LOW;
              OpInsert 2 "c" 3 0 10 0 false LOW]).
    vm_compute. reflexivity.
  - apply allowedb_sound. vm_compute. reflexivity.
  - vm_compute. reflexivity.
  - vm_compute. reflexivity.
  - apply Z.leb_le. vm_compute. reflexivity.
  - intros c Heq. discriminate Heq.
  - exact Hrun.
Defined.

End capacity_assert.
